(** * A shallow embedding of the program-analysis pipeline of
      [program-verification.tsx]

    The development follows the source file top to bottom: the line-oriented
    parser ([parseProgram], [parseExpression]), the SSA builder
    ([convertToSSA]), the optimizer ([optimizeSSA]), the constraint encoder
    ([generateVerificationSMT], [generateEquivalenceSMT] and their helpers) and
    the two verdict functions ([checkVerification], [checkEquivalence]),
    glued together by [analyzePrograms].

    JavaScript values are modelled as the code uses them:
    - strings are [string]s whose characters stand for the code units 0 to
      255 (the texts are taken to hold no code unit above 255);
    - numbers are exact rationals extended with the two infinities and NaN
      (the program's numbers are IEEE doubles; both agree as long as every
      result is exactly representable, which covers the integers of magnitude
      below 2^53 that the parser produces);
    - objects used as dictionaries whose key order is observable
      ([variables], [lastAssignments], the [declarations] set) are insertion
      ordered association lists read through [Obj.keys], with the members
      that an object inherits where the code reads them ([variables],
      [varTypes]); the two dictionaries of the optimizer ([constants],
      [useCounts]) are [gmap]s over the names of an SSA stream, which are
      taken not to be names of inherited members (a versioned name, as
      [convertToSSA] makes it, never is one);
    - a [throw] is the [Throw] result, with the thrown value. *)

From Stdlib Require Import ZArith QArith Ascii DecimalString Lia.
From stdpp Require Import base option list strings gmap.

Local Open Scope Z_scope.

(** ** Results of fallible code *)

(** What the source can throw: [new Error(message)] and the [TypeError] the
    runtime raises when a property of [undefined] is read. *)
Inductive exn : Type :=
  | Error (message : string)
  | TypeError.

(** [OutOfFuel] only marks a recursion bound of the model that was too
    small; it is not a behaviour of the program. *)
Inductive result (A : Type) : Type :=
  | Ok (a : A)
  | Throw (e : exn)
  | OutOfFuel.
Arguments Ok {A} a.
Arguments Throw {A} e.
Arguments OutOfFuel {A}.

Definition rbind {A B} (r : result A) (k : A -> result B) : result B :=
  match r with
  | Ok a => k a
  | Throw e => Throw e
  | OutOfFuel => OutOfFuel
  end.

Notation "'let?' x ':=' r 'in' k" := (rbind r (fun x => k))
  (at level 10, x pattern, r at level 100, k at level 200).

(** ** JavaScript strings *)

Module Js.

Definition code (c : ascii) : N := N_of_ascii c.

(** White space and line terminators, as [trim], [parseInt] and the [\s]
    class see them: the codes 9 to 13, the space and the no-break space (the
    other white space characters have codes above 255). *)
Definition is_white (c : ascii) : bool :=
  let n := code c in
  ((9 <=? n) && (n <=? 13) || (n =? 32) || (n =? 160))%N.

Definition is_digit (c : ascii) : bool :=
  let n := code c in ((48 <=? n) && (n <=? 57))%N.

Definition is_hex_digit (c : ascii) : bool :=
  let n := code c in
  (is_digit c || ((65 <=? n) && (n <=? 70)) || ((97 <=? n) && (n <=? 102)))%N.

(** The [\w] class. *)
Definition is_word (c : ascii) : bool :=
  let n := code c in
  (is_digit c || ((65 <=? n) && (n <=? 90)) || ((97 <=? n) && (n <=? 122))
   || (n =? 95))%N.

(** The class [.]: anything but a line terminator. *)
Definition is_dot (c : ascii) : bool :=
  let n := code c in negb ((n =? 10) || (n =? 13))%N.

Definition nl : string := String "010"%char EmptyString.

Definition is_empty (s : string) : bool :=
  match s with EmptyString => true | String _ _ => false end.

Fixpoint rev_onto (s acc : string) : string :=
  match s with
  | EmptyString => acc
  | String c s' => rev_onto s' (String c acc)
  end.

Definition rev (s : string) : string := rev_onto s EmptyString.

(** [s.startsWith(p)] *)
Fixpoint startsWith (s p : string) : bool :=
  match p, s with
  | EmptyString, _ => true
  | String _ _, EmptyString => false
  | String b p', String a s' => Ascii.eqb a b && startsWith s' p'
  end.

(** [s.includes(sub)] *)
Fixpoint includes (s sub : string) : bool :=
  if startsWith s sub then true
  else match s with
       | EmptyString => false
       | String _ s' => includes s' sub
       end.

(** [s.split(sep)] for a non-empty separator: the pieces between the
    non-overlapping occurrences of [sep], found left to right.  [skip] counts
    the characters of an occurrence still to be passed over and [cur] holds
    the current piece, reversed. *)
Fixpoint split_from (sep s : string) (skip : nat) (cur : string) : list string :=
  match s with
  | EmptyString => [rev cur]
  | String c s' =>
      match skip with
      | S k => split_from sep s' k cur
      | O =>
          if startsWith s sep
          then rev cur :: split_from sep s' (String.length sep - 1)%nat EmptyString
          else split_from sep s' O (String c cur)
      end
  end.

Definition split (s sep : string) : list string := split_from sep s O EmptyString.

(** [l.join(sep)] *)
Fixpoint join (l : list string) (sep : string) : string :=
  match l with
  | [] => EmptyString
  | [x] => x
  | x :: l' => x +:+ sep +:+ join l' sep
  end.

Fixpoint trimStart (s : string) : string :=
  match s with
  | EmptyString => EmptyString
  | String c s' => if is_white c then trimStart s' else s
  end.

Definition trimEnd (s : string) : string := rev (trimStart (rev s)).

(** [s.trim()] *)
Definition trim (s : string) : string := trimEnd (trimStart s).

Fixpoint take_while (p : ascii -> bool) (s : string) : string :=
  match s with
  | EmptyString => EmptyString
  | String c s' => if p c then String c (take_while p s') else EmptyString
  end.

Fixpoint drop_while (p : ascii -> bool) (s : string) : string :=
  match s with
  | EmptyString => EmptyString
  | String c s' => if p c then drop_while p s' else s
  end.

Fixpoint all_chars (p : ascii -> bool) (s : string) : bool :=
  match s with
  | EmptyString => true
  | String c s' => p c && all_chars p s'
  end.

End Js.

(** ** Regular expressions

    The source uses seven regular expression literals.  They are kept as data
    and run by one backtracking matcher, so that a literal can be compared
    with its embedding character by character.  The atoms are the ones those
    literals need. *)

Module Regex.

Inductive atom : Type :=
  | Chr (c : ascii)                    (* a literal character *)
  | Cls (p : ascii -> bool)            (* one character of a class *)
  | Rep (p : ascii -> bool)            (* greedy star of a class *)
  | Cap (plus : bool) (p : ascii -> bool)
                      (* captured greedy star, or plus, of a class *)
  | Eoi.                               (* the dollar anchor, no m flag *)

Definition regex := list atom.

Definition matched : Type := list string * string.

(** A greedy star of the class [p], followed by the rest of the expression
    [k]: as many characters as possible are taken first and given back one at
    a time. *)
Fixpoint rep_loop (p : ascii -> bool) (k : string -> option matched)
    (s : string) : option matched :=
  match s with
  | String a s' =>
      if p a
      then match rep_loop p k s' with
           | Some m => Some m
           | None => k s
           end
      else k s
  | EmptyString => k s
  end.

(** The same for a captured repetition; [taken] is the text of the group so
    far, reversed, and [plus] asks for at least one character. *)
Fixpoint cap_loop (plus : bool) (p : ascii -> bool) (k : string -> option matched)
    (s taken : string) : option matched :=
  let stop :=
    if plus && Js.is_empty taken then None
    else match k s with
         | Some (caps, rest) => Some (Js.rev taken :: caps, rest)
         | None => None
         end in
  match s with
  | String a s' =>
      if p a
      then match cap_loop plus p k s' (String a taken) with
           | Some m => Some m
           | None => stop
           end
      else stop
  | EmptyString => stop
  end.

(** [match_here r s]: match [r] at the start of [s]; the captures, in order,
    and what is left of [s]. *)
Fixpoint match_here (r : regex) (s : string) : option matched :=
  match r with
  | [] => Some ([], s)
  | Chr c :: r' =>
      match s with
      | String a s' => if Ascii.eqb a c then match_here r' s' else None
      | EmptyString => None
      end
  | Cls p :: r' =>
      match s with
      | String a s' => if p a then match_here r' s' else None
      | EmptyString => None
      end
  | Eoi :: r' =>
      match s with
      | EmptyString => match_here r' s
      | String _ _ => None
      end
  | Rep p :: r' => rep_loop p (match_here r') s
  | Cap plus p :: r' => cap_loop plus p (match_here r') s EmptyString
  end.

Record found : Type := Found {
  before : string;          (* the text in front of the match *)
  groups : list string;     (* the capture groups, [match[1]], [match[2]], ... *)
  after : string            (* the text behind the match *)
}.

(** The leftmost match, [before] being accumulated in reverse. *)
Fixpoint search_from (r : regex) (s skipped : string) : option found :=
  match match_here r s with
  | Some (caps, rest) => Some (Found (Js.rev skipped) caps rest)
  | None =>
      match s with
      | EmptyString => None
      | String a s' => search_from r s' (String a skipped)
      end
  end.

(** [s.match(r)] for a regular expression without the [g] flag. *)
Definition exec (r : regex) (s : string) : option found :=
  search_from r s EmptyString.

(** [s.replace(r, "")] *)
Definition remove (r : regex) (s : string) : string :=
  match exec r s with
  | Some m => before m +:+ after m
  | None => s
  end.

Fixpoint lit (s : string) : regex :=
  match s with
  | EmptyString => []
  | String c s' => Chr c :: lit s'
  end.

End Regex.

(** ** JavaScript numbers and primitive values *)

Inductive number : Type :=
  | Finite (q : Q)
  | Infinity (negative : bool)
  | NaN.

(** The values a [Literal] can carry: the parser stores numbers, constant
    folding can also store the boolean a comparison evaluates to. *)
Inductive value : Type :=
  | Num (n : number)
  | Boolean (b : bool).

Module Number.

Definition of_Z (z : Z) : number := Finite (inject_Z z).

Definition string_of_Z (z : Z) : string := NilZero.string_of_int (Z.to_int z).

Definition digit_char (d : Z) : ascii := ascii_of_N (48 + Z.to_N d).

(** The decimals of [r / d] for [0 <= r < d], at most [fuel] of them. *)
Fixpoint fraction_digits (fuel : nat) (r d : Z) : string :=
  match fuel with
  | O => EmptyString
  | S fuel' =>
      if r =? 0 then EmptyString
      else String (digit_char (r * 10 / d)) (fraction_digits fuel' (r * 10 mod d) d)
  end.

(** [String(n)].  Integers print as their decimal numeral; a fraction prints
    with its decimals, cut after 17 (the program prints the shortest numeral
    that reads back as the same double, which is the same text whenever the
    expansion is that short). *)
Definition to_string (n : number) : string :=
  match n with
  | NaN => "NaN"
  | Infinity false => "Infinity"
  | Infinity true => "-Infinity"
  | Finite q =>
      let q := Qred q in
      let d := Zpos (Qden q) in
      if d =? 1 then string_of_Z (Qnum q)
      else
        let a := Z.abs (Qnum q) in
        (if Qnum q <? 0 then "-" else "") +:+ string_of_Z (a / d) +:+ "."
          +:+ fraction_digits 17 (a mod d) d
  end.

Definition is_zero (q : Q) : bool := Qnum q =? 0.
Definition is_neg (q : Q) : bool := Qnum q <? 0.

Definition neg (a : number) : number :=
  match a with
  | Finite q => Finite (Qred (- q))
  | Infinity s => Infinity (negb s)
  | NaN => NaN
  end.

Definition add (a b : number) : number :=
  match a, b with
  | NaN, _ | _, NaN => NaN
  | Finite x, Finite y => Finite (Qred (x + y))
  | Infinity s, Finite _ | Finite _, Infinity s => Infinity s
  | Infinity s, Infinity t => if Bool.eqb s t then Infinity s else NaN
  end.

Definition sub (a b : number) : number := add a (neg b).

Definition mul (a b : number) : number :=
  match a, b with
  | NaN, _ | _, NaN => NaN
  | Finite x, Finite y => Finite (Qred (x * y))
  | Infinity s, Finite y | Finite y, Infinity s =>
      if is_zero y then NaN else Infinity (xorb s (is_neg y))
  | Infinity s, Infinity t => Infinity (xorb s t)
  end.

(** Division never raises: a zero divisor gives an infinity or NaN.  (A
    literal that holds a negative zero is written into the evaluated text as
    [0], so the divisor zero is always the positive one.) *)
Definition div (a b : number) : number :=
  match a, b with
  | NaN, _ | _, NaN => NaN
  | Finite x, Finite y =>
      if is_zero y then (if is_zero x then NaN else Infinity (is_neg x))
      else Finite (Qred (x / y))
  | Finite _, Infinity _ => Finite 0
  | Infinity s, Finite y => Infinity (xorb s (is_neg y))
  | Infinity _, Infinity _ => NaN
  end.

Definition trunc (q : Q) : Z := Z.quot (Qnum q) (Zpos (Qden q)).

(** The remainder takes the sign of the dividend; a zero divisor gives NaN. *)
Definition rem (a b : number) : number :=
  match a, b with
  | NaN, _ | _, NaN => NaN
  | Infinity _, _ => NaN
  | Finite x, Infinity _ => Finite x
  | Finite x, Finite y =>
      if is_zero y then NaN
      else Finite (Qred (x - y * inject_Z (trunc (x / y))))
  end.

Definition lt (a b : number) : bool :=
  match a, b with
  | NaN, _ | _, NaN => false
  | Finite x, Finite y => match Qcompare x y with Lt => true | _ => false end
  | Infinity s, Finite _ => s
  | Finite _, Infinity t => negb t
  | Infinity s, Infinity t => s && negb t
  end.

Definition eq (a b : number) : bool :=
  match a, b with
  | NaN, _ | _, NaN => false
  | Finite x, Finite y => Qeq_bool x y
  | Infinity s, Infinity t => Bool.eqb s t
  | _, _ => false
  end.

Definition le (a b : number) : bool := lt a b || eq a b.

(** *** Strings read as numbers *)

Definition strip_sign (s : string) : string :=
  match s with
  | String c s' =>
      if (Ascii.eqb c "+" || Ascii.eqb c "-")%char then s' else s
  | EmptyString => s
  end.

Definition nonempty (s : string) : bool := negb (Js.is_empty s).

(** Nothing, or [e] or [E], an optional sign and at least one digit. *)
Definition is_exponent_part (s : string) : bool :=
  match s with
  | EmptyString => true
  | String c s' =>
      (Ascii.eqb c "e" || Ascii.eqb c "E")%char
      && nonempty (strip_sign s') && Js.all_chars Js.is_digit (strip_sign s')
  end.

Definition is_unsigned_decimal (s : string) : bool :=
  if String.eqb s "Infinity" then true
  else
    let ip := Js.take_while Js.is_digit s in
    match Js.drop_while Js.is_digit s with
    | String "."%char r =>
        (nonempty ip || nonempty (Js.take_while Js.is_digit r))
        && is_exponent_part (Js.drop_while Js.is_digit r)
    | r => nonempty ip && is_exponent_part r
    end.

Definition is_binary_digit (c : ascii) : bool :=
  (Ascii.eqb c "0" || Ascii.eqb c "1")%char.
Definition is_octal_digit (c : ascii) : bool :=
  ((48 <=? Js.code c) && (Js.code c <=? 55))%N.

Definition is_non_decimal (s : string) : bool :=
  match s with
  | String "0"%char (String x r) =>
      if (Ascii.eqb x "x" || Ascii.eqb x "X")%char
      then nonempty r && Js.all_chars Js.is_hex_digit r
      else if (Ascii.eqb x "b" || Ascii.eqb x "B")%char
      then nonempty r && Js.all_chars is_binary_digit r
      else if (Ascii.eqb x "o" || Ascii.eqb x "O")%char
      then nonempty r && Js.all_chars is_octal_digit r
      else false
  | _ => false
  end.

(** [isNaN(s)] for a string [s]: the string is converted with [Number(s)],
    which is NaN unless the trimmed string is empty or a numeric literal. *)
Definition isNaN (s : string) : bool :=
  let t := Js.trim s in
  negb (Js.is_empty t || is_non_decimal t || is_unsigned_decimal (strip_sign t)).

Definition digit_value (c : ascii) : Z :=
  let n := Z.of_N (Js.code c) in
  if Js.is_digit c then n - 48
  else if n <? 97 then n - 55 else n - 87.

Definition digits_value (radix : Z) (s : string) (acc : Z) : Z :=
  (fix go (s : string) (acc : Z) : Z :=
     match s with
     | EmptyString => acc
     | String c s' => go s' (acc * radix + digit_value c)
     end) s acc.

(** [Number.parseInt(s)] without a radix: leading white space and a sign are
    passed over, [0x] selects base sixteen, and the longest run of digits is
    read; no digit at all gives NaN. *)
Definition parseInt (s : string) : number :=
  let t := Js.trimStart s in
  let negative := Js.startsWith t "-" in
  let t := strip_sign t in
  let hex := Js.startsWith t "0x" || Js.startsWith t "0X" in
  let digits :=
    if hex then Js.take_while Js.is_hex_digit (String.substring 2 (String.length t) t)
    else Js.take_while Js.is_digit t in
  if Js.is_empty digits then NaN
  else
    let v := digits_value (if hex then 16 else 10) digits 0 in
    of_Z (if negative then - v else v).

End Number.

Definition to_number (v : value) : number :=
  match v with
  | Num n => n
  | Boolean true => Number.of_Z 1
  | Boolean false => Number.of_Z 0
  end.

(** A value inside a template literal. *)
Definition value_to_string (v : value) : string :=
  match v with
  | Num n => Number.to_string n
  | Boolean true => "true"
  | Boolean false => "false"
  end.

(** ** Abstract syntax *)

Inductive binop : Type :=
  | OpEq | OpNe | OpLe | OpGe | OpLt | OpGt | OpAdd | OpSub | OpMul | OpDiv | OpMod.

(** The operator as the source spells it. *)
Definition op_text (op : binop) : string :=
  match op with
  | OpEq => "==" | OpNe => "!=" | OpLe => "<=" | OpGe => ">="
  | OpLt => "<" | OpGt => ">"
  | OpAdd => "+" | OpSub => "-" | OpMul => "*" | OpDiv => "/" | OpMod => "%"
  end.

(** Expressions, of the source program and of the SSA form alike (the SSA
    builder only replaces names by versioned names).  The one unary operator
    is the [!] that the builder puts on a loop condition. *)
Inductive Expr : Type :=
  | Literal (value : value)
  | Var (name : string)                  (* the node of type [Variable] *)
  | ArrayAccess (array : string) (index : Expr)
  | BinaryOperation (operator : binop) (left right : Expr)
  | UnaryOperation (operand : Expr).

#[warning="-register-all"]
Inductive stmt : Type :=
  | Assignment (left : string) (right : Expr)
  | IfStatement (condition : Expr) (ifBody elseBody : list stmt)
  | WhileLoop (condition : Expr) (body : list stmt)
  | ForLoop (init : stmt) (condition : Expr) (update : stmt) (body : list stmt)
  | Assert (condition : Expr).

(** The node [{ type: "Program", body }]. *)
Record program : Type := Program { body : list stmt }.

(** ** The parser *)

Module Parser.

Import Regex.

(** The literal [/if\s*\(G\)\s*\{/], writing [G] for the capture group: any
    characters of the line, as many as possible. *)
Definition re_if : regex :=
  lit "if" ++ [Rep Js.is_white; Chr "("; Cap false Js.is_dot; Chr ")";
               Rep Js.is_white; Chr "{"]%char.

(** The literal [/while\s*$$G$$\s*\{/], with the four end-of-input anchors
    the source has where the parentheses of the header would be expected. *)
Definition re_while : regex :=
  lit "while" ++ [Rep Js.is_white; Eoi; Eoi; Cap false Js.is_dot; Eoi; Eoi;
                  Rep Js.is_white; Chr "{"]%char.

(** The literal [/for\s*$$G;G;G$$\s*\{/]. *)
Definition re_for : regex :=
  lit "for" ++ [Rep Js.is_white; Eoi; Eoi; Cap false Js.is_dot; Chr ";";
                Cap false Js.is_dot; Chr ";"; Cap false Js.is_dot; Eoi; Eoi;
                Rep Js.is_white; Chr "{"]%char.

(** The literal [/assert\(G\);/]. *)
Definition re_assert : regex :=
  lit "assert" ++ [Chr "("; Cap false Js.is_dot; Chr ")"; Chr ";"]%char.

(** The literal [/G[G]/]: the brackets are not escaped, so the second group is
    read as a character class, which holds the four characters the group is
    written with (the two parentheses, the dot and the star). *)
Definition re_array : regex :=
  [Cap false Js.is_dot;
   Cls (fun c => Ascii.eqb c "(" || Ascii.eqb c "." || Ascii.eqb c "*"
                 || Ascii.eqb c ")")%char].

(** The literal [/;$/]. *)
Definition re_semicolon : regex := [Chr ";"%char; Eoi].

(** [match[n]], which is [undefined] when the expression has fewer groups. *)
Definition group (m : found) (n : nat) : option string := groups m !! (n - 1)%nat.

Definition operators : list binop :=
  [OpEq; OpNe; OpLe; OpGe; OpLt; OpGt; OpAdd; OpSub; OpMul; OpDiv; OpMod].

(** [parseExpression].  Each recursive call is on a proper piece of [expr], so
    fuel beyond the length of [expr] is never used up. *)
Fixpoint parseExpression_fuel (fuel : nat) (expr : string) : result Expr :=
  match fuel with
  | O => OutOfFuel
  | S fuel' =>
      let array_access :=
        if Js.includes expr "[" && Js.includes expr "]"
        then exec re_array expr else None in
      match array_access with
      | Some m =>
          match group m 1, group m 2 with
          | Some array, Some index =>
              let? index := parseExpression_fuel fuel' (Js.trim index) in
              Ok (ArrayAccess (Js.trim array) index)
          | _, _ => Throw TypeError       (* [.trim()] of [undefined] *)
          end
      | None =>
          match List.find (fun op => Js.includes expr (op_text op)) operators with
          | Some op =>
              (* [const [left, right] = expr.split(op)] *)
              match Js.split expr (op_text op) with
              | lhs :: rhs :: _ =>
                  let? l := parseExpression_fuel fuel' (Js.trim lhs) in
                  let? r := parseExpression_fuel fuel' (Js.trim rhs) in
                  Ok (BinaryOperation op l r)
              | _ => Throw TypeError
              end
          | None =>
              if negb (Number.isNaN expr)
              then Ok (Literal (Num (Number.parseInt expr)))
              else Ok (Var expr)
          end
      end
  end.

Definition parseExpression (expr : string) : result Expr :=
  parseExpression_fuel (S (String.length expr)) expr.

(** The loop that collects the lines of a block, written four times in the
    source: [ls] are the lines from index [j] on; the result is the body and
    the number of lines the loop went over. *)
Fixpoint collect_block (ls : list string) (depth : Z) (acc : list string)
    (passed : nat) : list string * nat :=
  match ls with
  | [] => (acc, passed)
  | l :: ls' =>
      if depth >? 0 then
        let currentLine := Js.trim l in
        let depth := if Js.includes currentLine "{" then depth + 1 else depth in
        let depth := if Js.includes currentLine "}" then depth - 1 else depth in
        let acc :=
          if (depth >? 0) && negb (Js.is_empty currentLine)
          then acc ++ [currentLine] else acc in
        collect_block ls' depth acc (S passed)
      else (acc, passed)
  end.

(** The optional [else] block: [ls] are the lines behind the [if] block.  The
    source steps over the [else] line and over one more line before it
    collects. *)
Definition collect_else (ls : list string) : list string * nat :=
  match ls with
  | l :: ls' =>
      if Js.startsWith (Js.trim l) "else"
      then let '(elseBody, n) := collect_block (drop 1 ls') 1 [] 0 in
           (elseBody, (2 + n)%nat)
      else ([], 0%nat)
  | [] => ([], 0%nat)
  end.

(** The pieces [left := right] of an assignment text, as the [for] header
    takes them apart. *)
Definition parse_assign_parts (text : string) : result stmt :=
  match Js.split text ":=" with
  | lhs :: rhs :: _ =>
      let? r := parseExpression (Js.trim rhs) in
      Ok (Assignment (Js.trim lhs) r)
  | _ => Throw TypeError
  end.

(** The loop of [parseProgram] over the lines of one text.  [parseBlock] is
    the call of [parseProgram] on the text of a nested block; [ls] are the
    lines from index [i] on, and [skip] is the number of them that a block
    construct has already consumed ([i = j] in the source). *)
Section Lines.

Variable parseBlock : string -> result program.

Definition parse_condition (found : option string) : result Expr :=
  match found with
  | Some c => parseExpression (Js.trim c)
  | None => Throw TypeError
  end.

Fixpoint parse_lines (ls : list string) (skip : nat) (ast : list stmt)
    : result program :=
  match ls with
  | [] => Ok (Program ast)
  | l :: ls' =>
      match skip with
      | S k => parse_lines ls' k ast
      | O =>
          let line := Js.trim l in
          if Js.is_empty line || Js.startsWith line "//" then parse_lines ls' O ast
          else if Js.includes line ":=" then
            match Js.split line ":=" with
            | lhs :: rhs :: _ =>
                let? r := parseExpression (Js.trim (remove re_semicolon rhs)) in
                parse_lines ls' O (ast ++ [Assignment (Js.trim lhs) r])
            | _ => Throw TypeError
            end
          else if Js.startsWith line "if" then
            match exec re_if line with
            | None => Throw (Error ("Invalid if statement: " +:+ line))
            | Some condMatch =>
                let? condition := parse_condition (group condMatch 1) in
                let '(ifBody, n) := collect_block ls' 1 [] 0 in
                let '(elseBody, m) := collect_else (drop n ls') in
                let? ifAst := parseBlock (Js.join ifBody Js.nl) in
                let? elseAst := parseBlock (Js.join elseBody Js.nl) in
                parse_lines ls' (n + m)%nat
                  (ast ++ [IfStatement condition (body ifAst) (body elseAst)])
            end
          else if Js.startsWith line "while" then
            match exec re_while line with
            | None => Throw (Error ("Invalid while statement: " +:+ line))
            | Some condMatch =>
                let? condition := parse_condition (group condMatch 1) in
                let '(loopBody, n) := collect_block ls' 1 [] 0 in
                let? bodyAst := parseBlock (Js.join loopBody Js.nl) in
                parse_lines ls' n (ast ++ [WhileLoop condition (body bodyAst)])
            end
          else if Js.startsWith line "for" then
            match exec re_for line with
            | None => Throw (Error ("Invalid for statement: " +:+ line))
            | Some forMatch =>
                match group forMatch 1, group forMatch 2, group forMatch 3 with
                | Some initialization, Some cond, Some update =>
                    let? condition := parseExpression (Js.trim cond) in
                    let '(loopBody, n) := collect_block ls' 1 [] 0 in
                    let? initAssign := parse_assign_parts (Js.trim initialization) in
                    let? updateAssign := parse_assign_parts (Js.trim update) in
                    let? bodyAst := parseBlock (Js.join loopBody Js.nl) in
                    parse_lines ls' n
                      (ast ++ [ForLoop initAssign condition updateAssign (body bodyAst)])
                | _, _, _ => Throw TypeError
                end
            end
          else if Js.startsWith line "assert" then
            match exec re_assert line with
            | None => Throw (Error ("Invalid assert statement: " +:+ line))
            | Some assertMatch =>
                let? condition := parse_condition (group assertMatch 1) in
                parse_lines ls' O (ast ++ [Assert condition])
            end
          else parse_lines ls' O ast
      end
  end.

End Lines.

(** [parseProgram]; [fuel] bounds the nesting of blocks. *)
Fixpoint parseProgram_fuel (fuel : nat) (programText : string) : result program :=
  match fuel with
  | O => OutOfFuel
  | S fuel' =>
      parse_lines (parseProgram_fuel fuel') (Js.split programText Js.nl) O []
  end.

(** Every nested block has fewer lines than the text around it, so the
    length of the text bounds the nesting. *)
Definition parseProgram (programText : string) : result program :=
  parseProgram_fuel (S (String.length programText)) programText.

End Parser.

(** ** Objects used as dictionaries

    An object literal [{}] is modelled by its own properties, in the order in
    which they were first written.  It also inherits the members of
    [Object.prototype]: a read of a name that is no own property finds them
    ([inherited]), and a write to [__proto__] goes to the accessor of that
    name, which ignores a number or a string, so that no own property comes
    into being. *)

Module Obj.

(** The names of the members of [Object.prototype]. *)
Definition prototype_members : list string :=
  ["constructor"; "__defineGetter__"; "__defineSetter__"; "hasOwnProperty";
   "__lookupGetter__"; "__lookupSetter__"; "isPrototypeOf";
   "propertyIsEnumerable"; "toString"; "valueOf"; "__proto__";
   "toLocaleString"].

(** [k] names a member that every object inherits. *)
Definition inherited (k : string) : bool :=
  existsb (String.eqb k) prototype_members.

Section Dictionary.
Context {V : Type}.

Definition t : Type := list (string * V).

(** The own property [k] of [o], [None] when there is none. *)
Definition get (o : t) (k : string) : option V :=
  snd <$> List.find (fun p => String.eqb (fst p) k) o.

(** The own property [k] is written, or made at the end. *)
Fixpoint put (o : t) (k : string) (v : V) : t :=
  match o with
  | [] => [(k, v)]
  | (k', v') :: o' =>
      if String.eqb k' k then (k', v) :: o' else (k', v') :: put o' k v
  end.

(** [o[k] = v], for a value [v] that is a number or a string. *)
Definition set (o : t) (k : string) (v : V) : t :=
  if String.eqb k "__proto__" then o else put o k v.

End Dictionary.

Arguments t V : clear implicits.

(** A key that is the canonical numeral of an integer below 2^32 - 1 is an
    array index; such keys are enumerated first, in ascending order. *)
Definition array_index (k : string) : option Z :=
  if Number.nonempty k && Js.all_chars Js.is_digit k
     && (String.eqb k "0" || negb (Js.startsWith k "0"))
  then
    let v := Number.digits_value 10 k 0 in
    if v <=? 4294967294 then Some v else None
  else None.

Definition is_array_index (k : string) : bool :=
  match array_index k with Some _ => true | None => false end.

Fixpoint insert_index (p : Z * string) (l : list (Z * string)) : list (Z * string) :=
  match l with
  | [] => [p]
  | q :: l' => if fst p <=? fst q then p :: l else q :: insert_index p l'
  end.

Definition sort_indices (l : list (Z * string)) : list (Z * string) :=
  foldr insert_index [] l.

(** [Object.keys(o)] *)
Definition keys {V} (o : t V) : list string :=
  let ks := fst <$> o in
  (snd <$> sort_indices (omap (fun k => (fun i => (i, k)) <$> array_index k) ks))
  ++ List.filter (fun k => negb (is_array_index k)) ks.

(** [Object.values(o)] *)
Definition values {V} (o : t V) : list V := omap (get o) (keys o).

(** [Object.assign(target, source)] *)
Definition assign {V} (target source : t V) : t V :=
  fold_left (fun o k => match get source k with
                        | Some v => set o k v
                        | None => o
                        end) (keys source) target.

End Obj.

(** ** SSA instructions *)

(** An operand of a phi node.  The builder stores the versioned name, a
    string; the renamer copies every operand with an object spread, which
    turns a non-empty string into an object holding its characters. *)
Inductive operand : Type :=
  | Name (s : string)
  | Spread (s : string).

(** The nodes of the SSA sequence; their [type] tags in the source are
    [Assignment], [Assert] and [Phi].  The phi of a loop entry has no
    [condition]. *)
Inductive instr : Type :=
  | SAssign (left : string) (right : Expr)
  | SAssert (condition : Expr)
  | SPhi (result : string) (operands : list operand) (condition : option Expr).

(** ** The SSA builder *)

Module SSA.

(** What a read of [variables] can give for a name: a number, the string
    [loop] that the loop rule writes, or the member of [Object.prototype] of
    that name, when the name is no own property of [variables]. *)
Inductive version : Type :=
  | Ver (n : number)
  | Loop
  | Member (name : string).

(** The text of a value inside a template literal.  The inherited members
    are built-in functions, but for [__proto__], which reads as the
    prototype object itself; the function under [constructor] is [Object].
    The text of a built-in function is written as V8 gives it (ECMA-262
    fixes it up to its white space). *)
Definition version_to_string (v : version) : string :=
  match v with
  | Ver n => Number.to_string n
  | Loop => "loop"
  | Member name =>
      if String.eqb name "__proto__" then "[object Object]"
      else "function "
           +:+ (if String.eqb name "constructor" then "Object" else name)
           +:+ "() { [native code] }"
  end.

(** [o[k]] on an object whose own properties are [o]: [None] stands for
    [undefined]. *)
Definition read (o : Obj.t version) (k : string) : option version :=
  match Obj.get o k with
  | Some v => Some v
  | None => if Obj.inherited k then Some (Member k) else None
  end.

(** [!v]: [undefined], zero and NaN are falsy; a function or an object is
    not. *)
Definition falsy (v : option version) : bool :=
  match v with
  | None => true
  | Some (Ver (Finite q)) => Number.is_zero q
  | Some (Ver NaN) => true
  | Some (Ver (Infinity _)) => false
  | Some Loop => false
  | Some (Member _) => false
  end.

(** [v !== 0] *)
Definition is_not_zero (v : option version) : bool :=
  match v with
  | Some (Ver (Finite q)) => negb (Number.is_zero q)
  | _ => true
  end.

(** [v++]: the string [loop], a function and an object convert to NaN. *)
Definition increment (v : version) : version :=
  match v with
  | Ver n => Ver (Number.add n (Number.of_Z 1))
  | Loop => Ver NaN
  | Member _ => Ver NaN
  end.

(** [a !== b] on what a read of [variables] can give. *)
Definition strict_ne (a b : option version) : bool :=
  match a, b with
  | None, None => false
  | Some Loop, Some Loop => false
  | Some (Ver x), Some (Ver y) => negb (Number.eq x y)
  | Some (Member x), Some (Member y) => negb (String.eqb x y)
  | _, _ => true
  end.

(** A loop-entry phi while it sits in the builder's [phi] array. *)
Record loop_phi : Type := LoopPhi {
  lp_result : string;
  lp_operands : list string;
  loopVar : bool
}.

(** The three variables the closures of [convertToSSA] share. *)
Record builder : Type := Builder {
  ssa : list instr;
  variables : Obj.t version;
  phi : list loop_phi
}.

Definition M (A : Type) : Type := builder -> A * builder.

Definition ret {A} (a : A) : M A := fun st => (a, st).
Definition bind {A B} (m : M A) (k : A -> M B) : M B :=
  fun st => let '(a, st') := m st in k a st'.

Notation "x <- m ;; k" := (bind m (fun x => k))
  (at level 100, m at next level, right associativity).
Notation "m ;;; k" := (bind m (fun _ => k))
  (at level 100, right associativity).

Definition get_variables : M (Obj.t version) := fun st => (variables st, st).
Definition set_variable (k : string) (v : version) : M unit :=
  fun st => (tt, Builder (ssa st) (Obj.set (variables st) k v) (phi st)).
Definition put_variables (vs : Obj.t version) : M unit :=
  fun st => (tt, Builder (ssa st) vs (phi st)).
Definition push_ssa (i : instr) : M unit :=
  fun st => (tt, Builder (ssa st ++ [i]) (variables st) (phi st)).
Definition get_phi : M (list loop_phi) := fun st => (phi st, st).
Definition put_phi (p : list loop_phi) : M unit :=
  fun st => (tt, Builder (ssa st) (variables st) p).

Fixpoint for_each {A} (l : list A) (f : A -> M unit) : M unit :=
  match l with
  | [] => ret tt
  | a :: l' => f a ;;; for_each l' f
  end.

Definition versioned (varName : string) (v : version) : string :=
  varName +:+ "_" +:+ version_to_string v.

(** The template literal that both helpers return, which reads
    [variables[varName]] once more. *)
Definition current_name (varName : string) : M string :=
  vs <- get_variables ;;
  match read vs varName with
  | Some v => ret (versioned varName v)
  | None => ret (varName +:+ "_undefined")
  end.

Definition createNewVersion (varName : string) : M string :=
  vs <- get_variables ;;
  let v := match read vs varName with
           | Some cur => if falsy (Some cur) then Ver (Number.of_Z 0) else increment cur
           | None => Ver (Number.of_Z 0)
           end in
  set_variable varName v ;;;
  current_name varName.

Definition getCurrentVersion (varName : string) : M string :=
  vs <- get_variables ;;
  let cur := read vs varName in
  if falsy cur && is_not_zero cur then
    set_variable varName (Ver (Number.of_Z 0)) ;;;
    ret (varName +:+ "_0")
  else current_name varName.

Fixpoint processExpression (expr : Expr) : M Expr :=
  match expr with
  | BinaryOperation op l r =>
      l' <- processExpression l ;;
      r' <- processExpression r ;;
      ret (BinaryOperation op l' r')
  | UnaryOperation e =>
      e' <- processExpression e ;;
      ret (UnaryOperation e')
  | Var name =>
      name' <- getCurrentVersion name ;;
      ret (Var name')
  | ArrayAccess array index =>
      array' <- getCurrentVersion array ;;
      index' <- processExpression index ;;
      ret (ArrayAccess array' index')
  | Literal _ => ret expr
  end.

(** [new Set([...a, ...b])]: the elements in the order of their first
    occurrence. *)
Fixpoint distinct (l seen : list string) : list string :=
  match l with
  | [] => []
  | x :: l' =>
      if existsb (String.eqb x) seen then distinct l' seen
      else x :: distinct l' (x :: seen)
  end.

(** The name of what a state gives for [varName], or [null]. *)
Definition version_name (state : Obj.t version) (varName : string) : option string :=
  versioned varName <$> read state varName.

Definition option_string_eqb (a b : option string) : bool :=
  match a, b with
  | Some x, Some y => String.eqb x y
  | None, None => true
  | _, _ => false
  end.

(** The phi nodes at the join of an [if]: one for every name of either state
    whose two version names both exist and differ. *)
Definition join_branches (condition : Expr) (afterIfState : Obj.t version) : M unit :=
  vs <- get_variables ;;
  let modifiedVars := distinct (Obj.keys afterIfState ++ Obj.keys vs) [] in
  for_each modifiedVars (fun varName =>
    vs <- get_variables ;;
    let ifVersion := version_name afterIfState varName in
    let elseVersion := version_name vs varName in
    match ifVersion, elseVersion with
    | Some i, Some e =>
        if negb (String.eqb i e) && Number.nonempty i && Number.nonempty e then
          newVar <- createNewVersion varName ;;
          push_ssa (SPhi newVar [Name i; Name e] (Some condition))
        else ret tt
    | _, _ => ret tt
    end).

(** The rule for [IfStatement], given how to process the two bodies. *)
Definition ifStatement (cond : Expr) (processIf processElse : M unit) : M unit :=
  condition <- processExpression cond ;;
  beforeIfState <- get_variables ;;
  processIf ;;;
  afterIfState <- get_variables ;;
  vs <- get_variables ;;
  put_variables (Obj.assign vs beforeIfState) ;;;
  processElse ;;;
  join_branches condition afterIfState.

(** The second loop of the loop rule: every phi still marked [loopVar] gets
    the current version of the name in front of the first underscore of its
    result, unless it already has that operand. *)
Fixpoint close_loop_phis (ps : list loop_phi) : M (list loop_phi) :=
  match ps with
  | [] => ret []
  | p :: ps' =>
      p' <- (if loopVar p then
               let varName := default EmptyString (head (Js.split (lp_result p) "_")) in
               endVersion <- getCurrentVersion varName ;;
               if existsb (String.eqb endVersion) (lp_operands p) then ret p
               else ret (LoopPhi (lp_result p) (lp_operands p ++ [endVersion]) (loopVar p))
             else ret p) ;;
      ps'' <- close_loop_phis ps' ;;
      ret (p' :: ps'')
  end.

(** The rule for [WhileLoop], given how to process the body. *)
Definition whileLoop (cond : Expr) (processBody : M unit) : M unit :=
  condition <- processExpression cond ;;
  beforeLoopState <- get_variables ;;
  for_each (Obj.keys beforeLoopState) (fun varName =>
    operand <- getCurrentVersion varName ;;
    ps <- get_phi ;;
    put_phi (ps ++ [LoopPhi (varName +:+ "_loop") [operand] true]) ;;;
    set_variable varName Loop) ;;;
  processBody ;;;
  ps <- get_phi ;;
  ps <- close_loop_phis ps ;;
  put_phi ps ;;;
  for_each ps (fun phiNode =>
    if loopVar phiNode
    then push_ssa (SPhi (lp_result phiNode) (Name <$> lp_operands phiNode) None)
    else ret tt) ;;;
  put_phi ((fun p => LoopPhi (lp_result p) (lp_operands p) false) <$> ps) ;;;
  vs <- get_variables ;;
  for_each (Obj.keys vs) (fun varName =>
    vs <- get_variables ;;
    if strict_ne (read vs varName) (read beforeLoopState varName) then
      newVar <- createNewVersion varName ;;
      let entry := match read beforeLoopState varName with
                   | Some v => versioned varName v
                   | None => varName +:+ "_0"
                   end in
      current <- getCurrentVersion varName ;;
      push_ssa (SPhi newVar [Name entry; Name current]
                  (Some (UnaryOperation condition)))
    else ret tt).

(** [processNode] on a statement. *)
Fixpoint processNode (node : stmt) : M unit :=
  let processAll :=
    fix processAll (l : list stmt) : M unit :=
      match l with
      | [] => ret tt
      | statement :: l' => processNode statement ;;; processAll l'
      end in
  match node with
  | Assignment varName rhs =>
      rightValue <- processExpression rhs ;;
      newVar <- createNewVersion varName ;;
      push_ssa (SAssign newVar rightValue)
  | IfStatement cond ifBody elseBody =>
      ifStatement cond (processAll ifBody) (processAll elseBody)
  | WhileLoop cond body =>
      whileLoop cond (processAll body)
  | ForLoop init cond update body =>
      (* the loop [{ condition, body: [...node.body, node.update] }] *)
      processNode init ;;;
      whileLoop cond (processAll body ;;; processNode update)
  | Assert cond =>
      condition <- processExpression cond ;;
      push_ssa (SAssert condition)
  end.

(** [processNode] on the [Program] node. *)
Definition processProgram (ast : program) : M unit :=
  for_each (body ast) processNode.

(** [convertToSSA]: the pair [{ ssa, variables }]. *)
Definition convertToSSA (ast : program) : list instr * Obj.t version :=
  let '(_, st) := processProgram ast (Builder [] [] []) in
  (ssa st, variables st).

End SSA.

(** ** The optimizer *)

Module Optimizer.

(** What [eval] gives for the text made of the left value, the operator and
    the right value.  Booleans take part as 1 and 0.  The evaluation of such
    a text raises nothing, whatever the operator and the two values are: the
    result is always [Ok]. *)
Definition evaluate (op : binop) (l r : value) : result value :=
  let a := to_number l in
  let b := to_number r in
  Ok match op with
     | OpAdd => Num (Number.add a b)
     | OpSub => Num (Number.sub a b)
     | OpMul => Num (Number.mul a b)
     | OpDiv => Num (Number.div a b)
     | OpMod => Num (Number.rem a b)
     | OpEq => Boolean (Number.eq a b)
     | OpNe => Boolean (negb (Number.eq a b))
     | OpLt => Boolean (Number.lt a b)
     | OpGt => Boolean (Number.lt b a)
     | OpLe => Boolean (Number.le a b)
     | OpGe => Boolean (Number.le b a)
     end.

(** [useCounts[k] = (useCounts[k] || 0) + 1] *)
Definition bump (k : string) (useCounts : gmap string nat) : gmap string nat :=
  <[k := (default 0 (useCounts !! k) + 1)%nat]> useCounts.

Fixpoint countUses (expr : Expr) (useCounts : gmap string nat) : gmap string nat :=
  match expr with
  | Var name => bump name useCounts
  | BinaryOperation _ l r => countUses r (countUses l useCounts)
  | ArrayAccess array index => countUses index (bump array useCounts)
  | Literal _ | UnaryOperation _ => useCounts
  end.

(** The property key an operand is used as. *)
Definition operand_key (o : operand) : string :=
  match o with
  | Name s => s
  | Spread _ => "[object Object]"
  end.

(** One round of the first loop.  Uses are counted in [node.right], which
    only an assignment has. *)
Definition scan_node (node : instr) (acc : gmap string value * gmap string nat)
    : gmap string value * gmap string nat :=
  let '(constants, useCounts) := acc in
  let constants :=
    match node with
    | SAssign lhs (Literal v) => <[lhs := v]> constants
    | _ => constants
    end in
  let useCounts :=
    match node with
    | SAssign _ rhs => countUses rhs useCounts
    | SAssert _ => useCounts
    | SPhi _ operands _ => foldl (fun m o => bump (operand_key o) m) useCounts operands
    end in
  (constants, useCounts).

Fixpoint propagateConstants (constants : gmap string value) (expr : Expr) : Expr :=
  match expr with
  | Var name =>
      match constants !! name with
      | Some v => Literal v
      | None => expr
      end
  | BinaryOperation op l r =>
      let l' := propagateConstants constants l in
      let r' := propagateConstants constants r in
      match l', r' with
      | Literal a, Literal b =>
          match evaluate op a b with
          | Ok v => Literal v
          | _ => BinaryOperation op l' r'          (* the [catch] branch *)
          end
      | _, _ => BinaryOperation op l' r'
      end
  | _ => expr
  end.

(** [useCounts[node.left] === 0] *)
Definition is_dead (useCounts : gmap string nat) (node : instr) : bool :=
  match node with
  | SAssign lhs _ => bool_decide (useCounts !! lhs = Some 0%nat)
  | _ => false
  end.

(** One node of the second loop; the operands of a phi are mapped through
    [propagateConstants] too, which gives back anything that is not an
    expression node as it is. *)
Definition rewrite_node (constants : gmap string value) (node : instr) : instr :=
  match node with
  | SAssign lhs rhs => SAssign lhs (propagateConstants constants rhs)
  | SAssert c => SAssert (propagateConstants constants c)
  | SPhi r ops c => SPhi r ops (propagateConstants constants <$> c)
  end.

Definition optimizeSSA (ssaNodes : list instr) : list instr :=
  let '(constants, useCounts) := foldl (fun acc node => scan_node node acc) (∅, ∅) ssaNodes in
  rewrite_node constants <$> List.filter (fun node => negb (is_dead useCounts node)) ssaNodes.

End Optimizer.

(** ** The constraint encoder *)

Module Encoder.

Import Regex.

(** [declarations.add(name)] on the insertion-ordered set. *)
Definition add_declaration (name : string) (declarations : list string) : list string :=
  if existsb (String.eqb name) declarations then declarations
  else declarations ++ [name].

(** The encoder's [processExpression] on an expression node: the text, and
    the set of declarations.  Array accesses and the unary operation have no
    case of their own and get the default text.  (The case for a node of
    type [Phi] is left out: no expression has that type.) *)
Fixpoint processExpression (expr : Expr) (declarations : list string)
    : string * list string :=
  match expr with
  | BinaryOperation op l r =>
      let '(l', declarations) := processExpression l declarations in
      let '(r', declarations) := processExpression r declarations in
      ("(" +:+ op_text op +:+ " " +:+ l' +:+ " " +:+ r' +:+ ")", declarations)
  | Var name => (name, add_declaration name declarations)
  | Literal v => (value_to_string v, declarations)
  | ArrayAccess _ _ | UnaryOperation _ => ("0", declarations)
  end.

(** [processExpression(node.condition)], where the field may be missing:
    reading [type] of [undefined] raises. *)
Definition processCondition (c : option Expr) (declarations : list string)
    : result (string * list string) :=
  match c with
  | Some e => Ok (processExpression e declarations)
  | None => Throw TypeError
  end.

(** [processExpression(node.operands[i])]: an operand is a string or an
    object without a [type], so the [switch] takes its default. *)
Definition processOperand (o : option operand) : result string :=
  match o with
  | Some _ => Ok "0"
  | None => Throw TypeError
  end.

(** The three variables of the loop over the SSA nodes. *)
Record script : Type := Script {
  smt : string;
  declarations : list string;
  assertions : list string
}.

Definition encode_node (node : instr) (s : script) : result script :=
  match node with
  | SAssign lhs rhs =>
      let declarations := add_declaration lhs (declarations s) in
      let '(rhs', declarations) := processExpression rhs declarations in
      Ok (Script (smt s +:+ "(assert (= " +:+ lhs +:+ " " +:+ rhs' +:+ "))" +:+ Js.nl)
            declarations (assertions s))
  | SAssert c =>
      let '(c', declarations) := processExpression c (declarations s) in
      Ok (Script (smt s) declarations
            (assertions s ++ ["(assert " +:+ c' +:+ ")" +:+ Js.nl]))
  | SPhi r operands c =>
      let? guard := processCondition c (declarations s) in
      let '(condition, declarations) := guard in
      let? trueCase := processOperand (operands !! 0%nat) in
      let? falseCase := processOperand (operands !! 1%nat) in
      Ok (Script (smt s +:+ "(assert (= " +:+ r +:+ " (ite " +:+ condition +:+ " "
                    +:+ trueCase +:+ " " +:+ falseCase +:+ ")))" +:+ Js.nl)
            declarations (assertions s))
  end.

Fixpoint encode_nodes (nodes : list instr) (s : script) : result script :=
  match nodes with
  | [] => Ok s
  | node :: nodes' => let? s' := encode_node node s in encode_nodes nodes' s'
  end.

Definition concat_all (l : list string) : string := foldr String.append EmptyString l.

(** [varTypes[decl]]: the string [Int], which was written under every
    declared name; under the name [__proto__] the write went to the accessor
    and the read gives the prototype object. *)
Definition var_type (decl : string) : string :=
  if String.eqb decl "__proto__" then "[object Object]" else "Int".

(** [generateVerificationSMT]; the unroll depth it also receives is never
    read. *)
Definition generateVerificationSMT (ssa : list instr) : result string :=
  let? s := encode_nodes ssa (Script ("(set-logic QF_LIA)" +:+ Js.nl) [] []) in
  Ok (smt s
      +:+ concat_all ((fun decl => "(declare-const " +:+ decl +:+ " " +:+ var_type decl
                                   +:+ ")" +:+ Js.nl)
                        <$> declarations s)
      +:+ concat_all (assertions s)
      +:+ "(check-sat)" +:+ Js.nl +:+ "(get-model)" +:+ Js.nl).

(** [x += suffix] under the guard [if (x)]. *)
Definition add_suffix (x suffix : string) : string :=
  if Js.is_empty x then x else x +:+ suffix.

(** [renameInExpr]: the fields [name], [left], [right] and [operands] are
    looked at, so the names inside an array access or under the unary
    operator stay as they are. *)
Fixpoint renameInExpr (suffix : string) (expr : Expr) : Expr :=
  match expr with
  | Var name => Var (add_suffix name suffix)
  | BinaryOperation op l r =>
      BinaryOperation op (renameInExpr suffix l) (renameInExpr suffix r)
  | Literal _ | ArrayAccess _ _ | UnaryOperation _ => expr
  end.

(** [renameInExpr] on an operand: the empty string is given back, anything
    else is copied with an object spread. *)
Definition renameOperand (o : operand) : operand :=
  match o with
  | Name s => if Js.is_empty s then o else Spread s
  | Spread s => Spread s
  end.

Definition renameNode (suffix : string) (node : instr) : instr :=
  match node with
  | SAssign lhs rhs => SAssign (add_suffix lhs suffix) (renameInExpr suffix rhs)
  | SAssert c => SAssert (renameInExpr suffix c)
  | SPhi r operands c =>
      SPhi (add_suffix r suffix) (renameOperand <$> operands) (renameInExpr suffix <$> c)
  end.

Definition renameVariables (ssa : list instr) (suffix : string) : list instr :=
  renameNode suffix <$> ssa.

(** The literal [/$$declare-const (\w+) (\w+)$$/] of [extractDeclarations]. *)
Definition re_declaration : regex :=
  [Eoi; Eoi] ++ lit "declare-const " ++ [Cap true Js.is_word; Chr " "%char;
  Cap true Js.is_word; Eoi; Eoi].

(** The literal [/\(declare-const (\w+)/] of the two verdict functions. *)
Definition re_declared_name : regex :=
  lit "(declare-const " ++ [Cap true Js.is_word].

(** [extractDeclarations]: the pairs of a name and a sort. *)
Definition extractDeclarations (smt : string) : list (string * string) :=
  omap (fun line =>
          match exec re_declaration line with
          | Some m =>
              match groups m with
              | [name; sort] => Some (name, sort)
              | _ => None
              end
          | None => None
          end) (Js.split smt Js.nl).

Definition extractAssertions (smt : string) : string :=
  Js.join (List.filter (fun line => Js.startsWith line "(assert"
                                    && negb (Js.includes line "check-sat"))
             (Js.split smt Js.nl)) Js.nl +:+ Js.nl.

(** [findOutputVariables]: the values of an object that maps the target of
    every assignment node to itself. *)
Definition findOutputVariables (ssa : list instr) : list string :=
  Obj.values
    (foldl (fun lastAssignments node =>
              match node with
              | SAssign lhs _ => Obj.set lastAssignments lhs lhs
              | _ => lastAssignments
              end) [] ssa).

(** The loop over [outputs1], reading [outputs2] at the same index. *)
Definition equivalence_checks (outputs1 outputs2 : list string) : string :=
  concat_all
    (zip_with (fun o1 o2 => "(assert (= " +:+ o1 +:+ " " +:+ o2 +:+ "))" +:+ Js.nl)
       outputs1 outputs2).

Definition generateEquivalenceSMT (ssa1 ssa2 : list instr) : result string :=
  let renamedSSA2 := renameVariables ssa2 "_p2" in
  let? smt1 := generateVerificationSMT ssa1 in
  let? smt2 := generateVerificationSMT renamedSSA2 in
  let combinedDeclarations := extractDeclarations smt1 ++ extractDeclarations smt2 in
  let outputs1 := findOutputVariables ssa1 in
  let outputs2 := findOutputVariables renamedSSA2 in
  Ok ("(set-logic QF_LIA)" +:+ Js.nl
      +:+ concat_all ((fun '(name, sort) =>
                         "(declare-const " +:+ name +:+ " " +:+ sort +:+ ")" +:+ Js.nl)
                        <$> combinedDeclarations)
      +:+ extractAssertions smt1
      +:+ extractAssertions smt2
      +:+ (if (length outputs1 =? length outputs2)%nat
           then equivalence_checks outputs1 outputs2
           else "(assert false) ; Output count mismatch" +:+ Js.nl)
      +:+ "(check-sat)" +:+ Js.nl +:+ "(get-model)" +:+ Js.nl).

End Encoder.

(** ** The solver and the verdicts *)

Inductive answer : Type := Sat | Unsat.

(** The solver stands outside the program.  The source puts a stub in its
    place whose [check] and whose model values are drawn at random; here they
    are the two fields of an oracle.  [check] is consulted once per analysis
    and [draw i] is the value drawn for the declaration at position [i]. *)
Record solver : Type := Solver {
  check : answer;
  draw : nat -> Z
}.

Module Verdict.

(** The names of the [declare-const] lines of a script. *)
Definition declared (smt : string) : list string :=
  omap (fun line =>
          match Regex.exec Encoder.re_declared_name line with
          | Some m => match Regex.groups m with
                      | name :: _ => if Js.is_empty name then None else Some name
                      | [] => None
                      end
          | None => None
          end)
    (List.filter (fun line => Js.startsWith line "(declare-const") (Js.split smt Js.nl)).

(** The object that gets a drawn value for every declared name. *)
Definition assignments (z3 : solver) (smt : string) : Obj.t Z :=
  foldl (fun o '(i, decl) => Obj.set o decl (draw z3 i)) [] (imap pair (declared smt)).

(** What a verdict function returns: the flag [verified] or [equivalent],
    and the counterexamples. *)
Record verdict : Type := MkVerdict {
  holds : bool;
  counterexamples : list (Obj.t Z)
}.

Definition checkVerification (z3 : solver) (smt : string) : verdict :=
  match check z3 with
  | Sat => MkVerdict false [assignments z3 smt]
  | Unsat => MkVerdict true []
  end.

Definition checkEquivalence (z3 : solver) (smt : string) : verdict :=
  match check z3 with
  | Unsat => MkVerdict true []
  | Sat => MkVerdict false [assignments z3 smt]
  end.

End Verdict.

(** ** The analysis *)

(** The state variable [mode]: the string [verification] or [equivalence]. *)
Inductive mode : Type := VerificationMode | EquivalenceMode.

(** What a run leaves behind.  The SSA forms and the script are kept as the
    values that the display functions are applied to; a field that the run
    did not reach is [None].  [report] is either the counterexamples of the
    verdict or the exception that ended the run. *)
Record analysis : Type := Analysis {
  ssaForm1 : option (list instr);
  optimizedSSA1 : option (list instr);
  ssaForm2 : option (list instr);
  optimizedSSA2 : option (list instr);
  smtCode : option string;
  verificationResult : bool;
  report : list (Obj.t Z) + exn
}.

Definition failed (partial : analysis) (e : exn) : analysis :=
  Analysis (ssaForm1 partial) (optimizedSSA1 partial) (ssaForm2 partial)
    (optimizedSSA2 partial) (smtCode partial) false (inr e).

Definition untouched : analysis := Analysis None None None None None false (inl []).

(** [analyzePrograms].  The control-flow graph, which is built between the
    SSA forms and the script, raises nothing and is read by the display
    only; it is left out.  The bound of the model is never reached (see
    [parseProgram_total]), so the [OutOfFuel] branches are idle. *)
Definition analyzePrograms (m : mode) (program1 program2 : string) (z3 : solver)
    : analysis :=
  match Parser.parseProgram program1 with
  | Ok ast1 =>
      let parsed2 :=
        match m with
        | EquivalenceMode => let? ast := Parser.parseProgram program2 in Ok (Some ast)
        | VerificationMode => Ok None
        end in
      match parsed2 with
      | Ok ast2 =>
          let ssa1 := (SSA.convertToSSA ast1).1 in
          let ssa2 := (fun ast => (SSA.convertToSSA ast).1) <$> ast2 in
          let shown :=
            Analysis (Some ssa1) (Some (Optimizer.optimizeSSA ssa1))
              ssa2 (Optimizer.optimizeSSA <$> ssa2) None false (inl []) in
          let generated :=
            match m, ssa2 with
            | EquivalenceMode, Some s2 => Encoder.generateEquivalenceSMT ssa1 s2
            | _, _ => Encoder.generateVerificationSMT ssa1
            end in
          match generated with
          | Ok smt =>
              let v := match m with
                       | VerificationMode => Verdict.checkVerification z3 smt
                       | EquivalenceMode => Verdict.checkEquivalence z3 smt
                       end in
              Analysis (ssaForm1 shown) (optimizedSSA1 shown) (ssaForm2 shown)
                (optimizedSSA2 shown) (Some smt) (Verdict.holds v)
                (inl (Verdict.counterexamples v))
          | Throw e => failed shown e
          | OutOfFuel => untouched
          end
      | Throw e => failed untouched e
      | OutOfFuel => untouched
      end
  | Throw e => failed untouched e
  | OutOfFuel => untouched
  end.

(** ** The control-flow graph *)

Module CFG.

(** [formatExpression]: the text of an expression in a label.  A node of
    another type than the three it knows is shown by the name of its type. *)
Fixpoint formatExpression (expr : Expr) : string :=
  match expr with
  | BinaryOperation op l r =>
      formatExpression l +:+ " " +:+ op_text op +:+ " " +:+ formatExpression r
  | Var name => name
  | Literal v => value_to_string v
  | ArrayAccess _ _ => "ArrayAccess"
  | UnaryOperation _ => "UnaryOperation"
  end.

Record node : Type := Node { id : nat; label : string }.

(** An edge [{ from, to, label }], the label being optional. *)
Record edge : Type := Edge { from : nat; to : nat; edge_label : option string }.

Record graph : Type := Graph { graph_nodes : list node; graph_edges : list edge }.

(** The three variables of [generateCFG] that its [processNode] shares. *)
Record builder : Type := Builder {
  nodes : list node;
  edges : list edge;
  nodeId : nat
}.

(** [const i = nodeId++; nodes.push({ id: i, label })] *)
Definition add_node (label : string) (g : builder) : nat * builder :=
  (nodeId g, Builder (nodes g ++ [Node (nodeId g) label]) (edges g) (S (nodeId g))).

Definition add_edge (e : edge) (g : builder) : builder :=
  Builder (nodes g) (edges g ++ [e]) (nodeId g).

(** [if (parentId !== null) edges.push({ from: parentId, to: currentNodeId })] *)
Definition link (parentId : option nat) (currentNodeId : nat) (g : builder) : builder :=
  match parentId with
  | Some p => add_edge (Edge p currentNodeId None) g
  | None => g
  end.

(** [processNode] on a statement.  A [for] loop has no case of its own: it is
    one node, labelled with its type, and its body is not visited. *)
Fixpoint processNode (node : stmt) (parentId : option nat) (g : builder) : builder :=
  let processAll :=
    fix processAll (l : list stmt) (parent : nat) (g : builder) : builder :=
      match l with
      | [] => g
      | child :: l' => processAll l' parent (processNode child (Some parent) g)
      end in
  match node with
  | Assignment lhs rhs =>
      let '(currentNodeId, g) := add_node (lhs +:+ " := " +:+ formatExpression rhs) g in
      link parentId currentNodeId g
  | IfStatement cond ifBody elseBody =>
      let '(currentNodeId, g) := add_node ("If (" +:+ formatExpression cond +:+ ")") g in
      let g := link parentId currentNodeId g in
      let '(trueBranchId, g) := add_node "Then" g in
      let g := add_edge (Edge currentNodeId trueBranchId (Some "T")) g in
      let g := processAll ifBody trueBranchId g in
      let '(falseBranchId, g) := add_node "Else" g in
      let g := add_edge (Edge currentNodeId falseBranchId (Some "F")) g in
      processAll elseBody falseBranchId g
  | WhileLoop cond body =>
      let '(currentNodeId, g) := add_node ("While (" +:+ formatExpression cond +:+ ")") g in
      let g := link parentId currentNodeId g in
      let '(loopBodyId, g) := add_node "Loop Body" g in
      let g := add_edge (Edge currentNodeId loopBodyId (Some "T")) g in
      let g := processAll body loopBodyId g in
      add_edge (Edge loopBodyId currentNodeId None) g
  | ForLoop _ _ _ _ =>
      let '(currentNodeId, g) := add_node "ForLoop" g in
      link parentId currentNodeId g
  | Assert cond =>
      let '(currentNodeId, g) := add_node ("Assert (" +:+ formatExpression cond +:+ ")") g in
      link parentId currentNodeId g
  end.

(** The children of a node, in order, under one parent. *)
Fixpoint processChildren (l : list stmt) (parent : nat) (g : builder) : builder :=
  match l with
  | [] => g
  | child :: l' => processChildren l' parent (processNode child (Some parent) g)
  end.

(** [generateCFG]: the [Program] node is the root and has no edge of its
    own. *)
Definition generateCFG (ast : program) : graph :=
  let '(currentNodeId, g) := add_node "Program Start" (Builder [] [] 0) in
  let g := processChildren (body ast) currentNodeId g in
  Graph (nodes g) (edges g).

End CFG.

(** ** The display of a script *)

(** The callback of [formatSMT]: a declaration or an assertion is indented
    by two spaces. *)
Definition indent_line (line : string) : string :=
  if Js.startsWith line "(declare-const" then "  " +:+ line
  else if Js.startsWith line "(assert" then "  " +:+ line
  else line.

Definition formatSMT (smt : string) : string :=
  Js.join (indent_line <$> Js.split smt Js.nl) Js.nl.

(** * Vocabulary of the statements *)

(** An integer literal. *)
Definition int (z : Z) : Expr := Literal (Num (Number.of_Z z)).

(** An expression that has an [ArrayAccess] node somewhere. *)
Fixpoint has_array_access (e : Expr) : bool :=
  match e with
  | ArrayAccess _ _ => true
  | BinaryOperation _ l r => has_array_access l || has_array_access r
  | UnaryOperation e => has_array_access e
  | Literal _ | Var _ => false
  end.

(** A line that the scan of [parseProgram] goes past without opening a block
    and without raising: a blank line, a comment, an assignment whose right
    side parses, or a line that starts with none of the four keywords. *)
Definition passes_on (l : string) : bool :=
  let line := Js.trim l in
  if Js.is_empty line || Js.startsWith line "//" then true
  else if Js.includes line ":=" then
    match Js.split line ":=" with
    | _ :: rhs :: _ =>
        match Parser.parseExpression (Js.trim (Regex.remove Parser.re_semicolon rhs)) with
        | Ok _ => true
        | _ => false
        end
    | _ => false
    end
  else negb (Js.startsWith line "if" || Js.startsWith line "while"
             || Js.startsWith line "for" || Js.startsWith line "assert").

(** A line that the scan goes past without opening a block and without
    raising: one that [passes_on], or an [assert] whose header matches and
    whose condition parses. *)
Definition steps_over (l : string) : bool :=
  passes_on l
  || (let line := Js.trim l in
      negb (Js.includes line ":=") && Js.startsWith line "assert"
      && match Regex.exec Parser.re_assert line with
         | Some assertMatch =>
             match Parser.parse_condition (Parser.group assertMatch 1) with
             | Ok _ => true
             | _ => false
             end
         | None => false
         end).

(** A line that opens an [if] block: it holds no [:=], starts with [if],
    matches the header, and its condition parses. *)
Definition opens_if (l : string) : bool :=
  let line := Js.trim l in
  negb (Js.includes line ":=") && Js.startsWith line "if"
  && match Regex.exec Parser.re_if line with
     | Some condMatch =>
         match Parser.parse_condition (Parser.group condMatch 1) with
         | Ok _ => true
         | _ => false
         end
     | None => false
     end.

(** The three parts of the lines [ls] behind the header of an [if]: the
    lines of the block, the lines of the [else] block, and the lines behind
    both. *)
Definition if_block (ls : list string) : list string :=
  (Parser.collect_block ls 1 [] 0).1.

Definition else_block (ls : list string) : list string :=
  (Parser.collect_else (drop (Parser.collect_block ls 1 [] 0).2 ls)).1.

Definition behind_if (ls : list string) : list string :=
  let n := (Parser.collect_block ls 1 [] 0).2 in
  drop (n + (Parser.collect_else (drop n ls)).2) ls.

(** The lines that [parseProgram] sees when it is called on the text of a
    block. *)
Definition block_lines (body : list string) : list string :=
  Js.split (Js.join body Js.nl) Js.nl.

(** The text of a block is parsed without an exception. *)
Definition block_parses (body : list string) : Prop :=
  exists ast, Parser.parseProgram (Js.join body Js.nl) = Ok ast.

(** The scan of [parseProgram] over the lines [ls] arrives at the line [l],
    nothing having been raised before: [l] is the first line; or the first
    line is gone past and the scan of the rest arrives at [l]; or the first
    line opens an [if] and [l] is arrived at in its block, or in its [else]
    block after the block was parsed, or behind both after both were
    parsed.  (A line that starts with [while] or [for] is never gone past:
    see [parse_lines_rejects_every_while].) *)
Inductive reaches : list string -> string -> Prop :=
  | reach_here l ls : reaches (l :: ls) l
  | reach_next p ls l :
      steps_over p = true -> reaches ls l -> reaches (p :: ls) l
  | reach_then p ls l :
      opens_if p = true -> reaches (block_lines (if_block ls)) l -> reaches (p :: ls) l
  | reach_else p ls l :
      opens_if p = true -> block_parses (if_block ls) ->
      reaches (block_lines (else_block ls)) l -> reaches (p :: ls) l
  | reach_behind p ls l :
      opens_if p = true -> block_parses (if_block ls) -> block_parses (else_block ls) ->
      reaches (behind_if ls) l -> reaches (p :: ls) l.

(** The four keywords with the header expressions that the source has for
    them. *)
Definition headers : list (string * Regex.regex) :=
  [("if", Parser.re_if); ("while", Parser.re_while); ("for", Parser.re_for);
   ("assert", Parser.re_assert)].

(** A line that holds no [:=], starts with [keyword] and does not match the
    header expression [re]. *)
Definition rejected (keyword : string) (re : Regex.regex) (l : string) : Prop :=
  Js.includes (Js.trim l) ":=" = false
  /\ Js.startsWith (Js.trim l) keyword = true
  /\ Regex.exec re (Js.trim l) = None.

(** The message of the error for a line. *)
Definition invalid (keyword l : string) : string :=
  "Invalid " +:+ keyword +:+ " statement: " +:+ Js.trim l.

(** The condition of an [if] header, parsed. *)
Definition header_condition (l : string) : result Expr :=
  match Regex.exec Parser.re_if (Js.trim l) with
  | Some condMatch => Parser.parse_condition (Parser.group condMatch 1)
  | None => Throw TypeError
  end.

(** A line that leaves the depth of the braces as it is: it holds both
    braces or none. *)
Definition keeps_depth (l : string) : bool :=
  Bool.eqb (Js.includes (Js.trim l) "{") (Js.includes (Js.trim l) "}").

(** A line that closes a block: it holds a closing brace and no opening
    one. *)
Definition closes (l : string) : bool :=
  Js.includes (Js.trim l) "}" && negb (Js.includes (Js.trim l) "{").

(** The lines [ls] begin with an [else] line. *)
Definition else_ahead (ls : list string) : bool :=
  match ls with
  | l :: _ => Js.startsWith (Js.trim l) "else"
  | [] => false
  end.

(** The lines of a block as they are collected: trimmed, the blank ones left
    out. *)
Definition collected (ls : list string) : list string :=
  List.filter (fun l => negb (Js.is_empty l)) (Js.trim <$> ls).

(** The summed length of some strings, and the length of the text that a
    list of lines makes when a line break is counted after every line. *)
Definition total_length (l : list string) : nat :=
  foldr (fun s n => String.length s + n)%nat 0%nat l.

Definition weight (ls : list string) : nat := (total_length ls + length ls)%nat.

(** A statement without a loop in it. *)
Fixpoint loop_free (node : stmt) : bool :=
  match node with
  | Assignment _ _ | Assert _ => true
  | IfStatement _ ifBody elseBody => forallb loop_free ifBody && forallb loop_free elseBody
  | WhileLoop _ _ | ForLoop _ _ _ _ => false
  end.

(** An instruction that is not a phi and whose target, if it has one, is the
    version 0 of a name. *)
Definition version_zero (i : instr) : Prop :=
  match i with
  | SAssign target _ => exists varName, target = varName +:+ "_0"
  | SAssert _ => True
  | SPhi _ _ _ => False
  end.

Definition zero : SSA.version := SSA.Ver (Number.of_Z 0).

(** The own entries of [variables] are names that no object inherits, all
    at version zero. *)
Definition tidy (vs : Obj.t SSA.version) : Prop :=
  Forall (fun p => Obj.inherited p.1 = false /\ p.2 = zero) vs.

(** A statement that assigns to no name that every object inherits. *)
Fixpoint plain_targets (node : stmt) : bool :=
  match node with
  | Assignment x _ => negb (Obj.inherited x)
  | IfStatement _ ifBody elseBody =>
      forallb plain_targets ifBody && forallb plain_targets elseBody
  | WhileLoop _ body => forallb plain_targets body
  | ForLoop init _ update body =>
      plain_targets init && plain_targets update && forallb plain_targets body
  | Assert _ => true
  end.

(** The name that a read of [varName] gets while [variables] is tidy:
    version 0, or the text of the member that is inherited under that
    name. *)
Definition first_name (varName : string) : string :=
  SSA.versioned varName (if Obj.inherited varName then SSA.Member varName else zero).

(** A computation of the builder that leaves the instructions and the loop
    phis alone and keeps [variables] tidy; [P] holds of its result. *)
Definition quiet {A} (m : SSA.M A) (P : A -> Prop) : Prop :=
  forall st, tidy (SSA.variables st) ->
    P (m st).1 /\ SSA.ssa (m st).2 = SSA.ssa st /\ SSA.phi (m st).2 = SSA.phi st
    /\ tidy (SSA.variables (m st).2).

(** Every name of an expression replaced by its first name. *)
Fixpoint at_version_zero (e : Expr) : Expr :=
  match e with
  | Literal v => Literal v
  | Var name => Var (first_name name)
  | ArrayAccess array index => ArrayAccess (first_name array) (at_version_zero index)
  | BinaryOperation op l r => BinaryOperation op (at_version_zero l) (at_version_zero r)
  | UnaryOperation e => UnaryOperation (at_version_zero e)
  end.

(** The assignments and assertions of a statement in the order of the text,
    the branches of an [if] one after the other, every target at version
    0. *)
Fixpoint flat_ssa (node : stmt) : list instr :=
  match node with
  | Assignment x e => [SAssign (x +:+ "_0") (at_version_zero e)]
  | Assert c => [SAssert (at_version_zero c)]
  | IfStatement _ ifBody elseBody =>
      foldr (fun s l => flat_ssa s ++ l) [] ifBody
      ++ foldr (fun s l => flat_ssa s ++ l) [] elseBody
  | WhileLoop _ _ | ForLoop _ _ _ _ => []
  end.

Definition flat_ssa_of (l : list stmt) : list instr :=
  foldr (fun s l => flat_ssa s ++ l) [] l.

(** A computation of the builder that appends [out] and keeps [variables]
    tidy. *)
Definition emits (m : SSA.M unit) (out : list instr) : Prop :=
  forall st, tidy (SSA.variables st) ->
    SSA.ssa (m st).2 = SSA.ssa st ++ out
    /\ SSA.phi (m st).2 = SSA.phi st /\ tidy (SSA.variables (m st).2).

(** A computation of the builder that only appends instructions with the
    property [P]. *)
Definition appends {A} (P : instr -> Prop) (m : SSA.M A) : Prop :=
  forall st, exists new, SSA.ssa (m st).2 = SSA.ssa st ++ new /\ Forall P new.

(** No counter is zero: a counter comes into being with its first increment. *)
Definition counts_positive (useCounts : gmap string nat) : Prop :=
  forall k n, useCounts !! k = Some n -> (0 < n)%nat.

(** The [declare-const] lines of a script. *)
Definition declaration_lines (declarations : list string) : string :=
  Encoder.concat_all
    ((fun decl => "(declare-const " +:+ decl +:+ " " +:+ Encoder.var_type decl
                  +:+ ")" +:+ Js.nl) <$> declarations).




(** A line that is blank or a comment. *)
Definition blank_or_comment (l : string) : bool :=
  Js.is_empty (Js.trim l) || Js.startsWith (Js.trim l) "//".

(** A string without a line break. *)
Definition one_line (s : string) : bool :=
  Js.all_chars (fun c => negb (Ascii.eqb c "010")) s.

(** A node that the encoder can write: a phi needs its guard and two
    operands. *)
Definition encodable (node : instr) : bool :=
  match node with
  | SPhi _ operands c =>
      match c, operands with
      | Some _, _ :: _ :: _ => true
      | _, _ => false
      end
  | SAssign _ _ | SAssert _ => true
  end.

(** The target of an assignment node. *)
Definition assigned (node : instr) : option string :=
  match node with
  | SAssign lhs _ => Some lhs
  | _ => None
  end.

(** The loops that [generateCFG] visits in a statement; it does not look
    into a [for] loop. *)
Fixpoint visited_loops (node : stmt) : nat :=
  match node with
  | WhileLoop _ body => S (foldr (fun s n => visited_loops s + n)%nat 0%nat body)
  | IfStatement _ ifBody elseBody =>
      (foldr (fun s n => visited_loops s + n) 0 ifBody
       + foldr (fun s n => visited_loops s + n) 0 elseBody)%nat
  | Assignment _ _ | ForLoop _ _ _ _ | Assert _ => 0%nat
  end.

Definition visited_loops_in (l : list stmt) : nat :=
  foldr (fun s n => visited_loops s + n)%nat 0%nat l.

(** A graph under construction whose nodes are numbered from 0 in the order
    of the list and whose edges join nodes that exist. *)
Definition cfg_ok (g : CFG.builder) : Prop :=
  CFG.id <$> CFG.nodes g = seq 0 (CFG.nodeId g)
  /\ Forall (fun e => CFG.from e < CFG.nodeId g /\ CFG.to e < CFG.nodeId g)%nat
       (CFG.edges g).

(** What a step of the graph builder does to a graph in good order: it
    stays in good order, and it gets as many edges as nodes, and one more for
    every loop. *)
Definition grows (g g' : CFG.builder) (loops : nat) : Prop :=
  cfg_ok g' /\ (CFG.nodeId g <= CFG.nodeId g')%nat
  /\ (length (CFG.edges g') + CFG.nodeId g
      = length (CFG.edges g) + CFG.nodeId g' + loops)%nat.

Definition node_grows (node : stmt) : Prop :=
  forall p g, cfg_ok g -> (p < CFG.nodeId g)%nat ->
    grows g (CFG.processNode node (Some p) g) (visited_loops node)
    /\ (CFG.nodeId g < CFG.nodeId (CFG.processNode node (Some p) g))%nat.

(** An integer that a double holds exactly, with all the integers between
    it and zero. *)
Definition safe_integer (z : Z) : Prop := Z.abs z <= 9007199254740991.

(** The names that occur in an expression and in a node of a stream. *)
Fixpoint names_of (e : Expr) : list string :=
  match e with
  | Literal _ => []
  | Var name => [name]
  | ArrayAccess array index => array :: names_of index
  | BinaryOperation _ l r => names_of l ++ names_of r
  | UnaryOperation e => names_of e
  end.

Definition node_names (node : instr) : list string :=
  match node with
  | SAssign lhs rhs => lhs :: names_of rhs
  | SAssert c => names_of c
  | SPhi r operands c =>
      r :: (Optimizer.operand_key <$> operands) ++ from_option names_of [] c
  end.

(** A stream in which no name is the name of a member that every object
    inherits. *)
Definition plain_stream (ssa : list instr) : bool :=
  forallb (fun node => forallb (fun x => negb (Obj.inherited x)) (node_names node)) ssa.

(** The object that [findOutputVariables] builds. *)
Definition lastAssignments (ssa : list instr) : Obj.t string :=
  foldl (fun o node => match node with
                       | SAssign lhs _ => Obj.set o lhs lhs
                       | _ => o
                       end) [] ssa.

(** The targets of the assignments of a stream that become properties of
    that object. *)
Definition targets (ssa : list instr) : list string :=
  List.filter (fun x => negb (String.eqb x "__proto__")) (omap assigned ssa).

(** The text that the encoder writes for an expression. *)
Fixpoint smt_text (e : Expr) : string :=
  match e with
  | BinaryOperation op l r =>
      "(" +:+ op_text op +:+ " " +:+ smt_text l +:+ " " +:+ smt_text r +:+ ")"
  | Var name => name
  | Literal v => value_to_string v
  | ArrayAccess _ _ | UnaryOperation _ => "0"
  end.

(** The variables that the encoder meets in an expression, from left to
    right: the ones outside array accesses and unary operations. *)
Fixpoint declared_in (e : Expr) : list string :=
  match e with
  | BinaryOperation _ l r => declared_in l ++ declared_in r
  | Var name => [name]
  | Literal _ | ArrayAccess _ _ | UnaryOperation _ => []
  end.

(** The names that a node adds to the declarations, the line that it adds
    to the definitions, and the line that it adds to the assertions. *)
Definition declared_by (node : instr) : list string :=
  match node with
  | SAssign lhs rhs => lhs :: declared_in rhs
  | SAssert c => declared_in c
  | SPhi _ _ c => from_option declared_in [] c
  end.

Definition definition_line (node : instr) : option string :=
  match node with
  | SAssign lhs rhs => Some ("(assert (= " +:+ lhs +:+ " " +:+ smt_text rhs +:+ "))" +:+ Js.nl)
  | SAssert _ => None
  | SPhi r _ c =>
      Some ("(assert (= " +:+ r +:+ " (ite " +:+ from_option smt_text "" c
            +:+ " 0 0)))" +:+ Js.nl)
  end.

Definition assertion_line (node : instr) : option string :=
  match node with
  | SAssert c => Some ("(assert " +:+ smt_text c +:+ ")" +:+ Js.nl)
  | _ => None
  end.

(** Some names added to a set of declarations, one after the other. *)
Definition declare_all (names declarations : list string) : list string :=
  foldl (fun ds x => Encoder.add_declaration x ds) declarations names.

(** The literal assignments of a stream, as pairs of a target and a value. *)
Definition literal_assignments (ssa : list instr) : list (string * value) :=
  omap (fun node => match node with
                    | SAssign lhs (Literal v) => Some (lhs, v)
                    | _ => None
                    end) ssa.

(** ** Sample inputs *)

(** [x := 0; while (x < 5) { x := x + 1; }] *)
Definition counting_loop : program :=
  Program [Assignment "x" (int 0);
           WhileLoop (BinaryOperation OpLt (Var "x") (int 5))
             [Assignment "x" (BinaryOperation OpAdd (Var "x") (int 1))]].

(** An [assert] without its closing parenthesis, inside the block of an
    [if] that stands behind an [assert]. *)
Definition nested_bad_header_text : string :=
  "assert(x > 0);" +:+ Js.nl +:+ "if (x < 5) {" +:+ Js.nl +:+ "y := 1;" +:+ Js.nl
  +:+ "assert(y > 0;" +:+ Js.nl +:+ "}".

(** [x := 0; while (x < 5) { x := x + 1; }], one statement a line. *)
Definition loop_text : string :=
  "x := 0;" +:+ Js.nl +:+ "while (x < 5) {" +:+ Js.nl +:+ "x := x + 1;" +:+ Js.nl +:+ "}".

(** An [if] with its [else] on the line of the closing brace, and one with
    the [else] on a line of its own. *)
Definition else_on_closing_line_text : string :=
  "if (x < 5) {" +:+ Js.nl +:+ "  y := x + 1;" +:+ Js.nl +:+ "} else {" +:+ Js.nl
  +:+ "  y := x - 1;" +:+ Js.nl +:+ "}" +:+ Js.nl +:+ "assert(y > 0);".

Definition else_on_own_line_text : string :=
  "if (x < 5) {" +:+ Js.nl +:+ "y := 1;" +:+ Js.nl +:+ "}" +:+ Js.nl
  +:+ "else {" +:+ Js.nl +:+ "y := 2;" +:+ Js.nl +:+ "y := 3;" +:+ Js.nl +:+ "}"
  +:+ Js.nl +:+ "assert(y > 0);".

(** The program that the page shows first, with the two-space indentation
    it has there. *)
Definition first_program_text : string :=
  "x := 3;" +:+ Js.nl +:+ "if (x < 5) {" +:+ Js.nl +:+ "  y := x + 1;" +:+ Js.nl
  +:+ "} else {" +:+ Js.nl +:+ "  y := x - 1;" +:+ Js.nl +:+ "}" +:+ Js.nl
  +:+ "assert(y > 0);".



(** * Strings *)

Section StringFacts.
Local Open Scope nat_scope.

Lemma append_assoc (a b c : string) : (a +:+ b) +:+ c = a +:+ b +:+ c.
Proof.
  induction a as [|x a IH]; [reflexivity|].
  change (String x ((a +:+ b) +:+ c) = String x (a +:+ b +:+ c)). by rewrite IH.
Qed.

Lemma append_length a b : String.length (a +:+ b) = String.length a + String.length b.
Proof.
  induction a as [|c a IH]; [done|].
  change (String c a +:+ b) with (String c (a +:+ b)).
  cbn [String.length]. by rewrite IH.
Qed.

Lemma rev_onto_length s acc :
  String.length (Js.rev_onto s acc) = String.length s + String.length acc.
Proof.
  revert acc. induction s as [|c s IH]; intros acc; cbn [Js.rev_onto String.length]; [done|].
  rewrite IH. cbn [String.length]. lia.
Qed.

Lemma rev_length s : String.length (Js.rev s) = String.length s.
Proof. unfold Js.rev. rewrite rev_onto_length. cbn [String.length]. lia. Qed.

Lemma trimStart_length s : String.length (Js.trimStart s) <= String.length s.
Proof.
  induction s as [|c s IH]; cbn [Js.trimStart String.length]; [done|].
  destruct (Js.is_white c); cbn [String.length]; lia.
Qed.

Lemma trim_length s : String.length (Js.trim s) <= String.length s.
Proof.
  unfold Js.trim, Js.trimEnd. rewrite rev_length.
  etrans; [apply trimStart_length|]. rewrite rev_length. apply trimStart_length.
Qed.

Lemma nonempty_length s : Js.is_empty s = false -> 0 < String.length s.
Proof. destruct s; [discriminate|]. cbn. lia. Qed.

(** Every cut of [split] passes over a character that goes to no piece. *)
Lemma split_from_length sep s skip cur :
  weight (Js.split_from sep s skip cur) <= String.length s + String.length cur + 1.
Proof.
  unfold weight. revert skip cur.
  induction s as [|c s IH]; intros skip cur; cbn [Js.split_from].
  - cbn. rewrite rev_length. lia.
  - destruct skip as [|k].
    + destruct (Js.startsWith (String c s) sep).
      * cbn [total_length foldr length].
        fold (total_length (Js.split_from sep s (String.length sep - 1) "")).
        specialize (IH (String.length sep - 1) EmptyString).
        rewrite rev_length. cbn [String.length] in *. lia.
      * specialize (IH 0 (String c cur)). cbn [String.length] in *. lia.
    + specialize (IH k cur). cbn [String.length]. lia.
Qed.

Lemma split_pieces_shorter s sep lhs rhs pieces :
  Js.split s sep = lhs :: rhs :: pieces ->
  String.length lhs < String.length s /\ String.length rhs < String.length s.
Proof.
  intros H. pose proof (split_from_length sep s 0 EmptyString) as Hlen.
  unfold Js.split in H. rewrite H in Hlen. unfold weight in Hlen.
  cbn [total_length foldr length String.length] in Hlen. lia.
Qed.

Lemma weight_cons l ls : weight (l :: ls) = String.length l + 1 + weight ls.
Proof. unfold weight. cbn [total_length foldr length]. fold (total_length ls). lia. Qed.

Lemma weight_app l1 l2 : weight (l1 ++ l2) = weight l1 + weight l2.
Proof.
  induction l1 as [|l l1 IH]; [done|].
  change ((l :: l1) ++ l2) with (l :: (l1 ++ l2)). rewrite !weight_cons, IH. lia.
Qed.

Lemma weight_drop n ls : weight (drop n ls) <= weight ls.
Proof.
  revert n. induction ls as [|l ls IH]; intros [|n]; cbn [drop]; try lia.
  rewrite weight_cons. specialize (IH n). lia.
Qed.

Lemma join_length ls : String.length (Js.join ls Js.nl) <= weight ls.
Proof.
  induction ls as [|l ls IH]; [done|]. rewrite weight_cons.
  destruct ls as [|l' ls]; [cbn [Js.join]; lia|].
  change (Js.join (l :: l' :: ls) Js.nl) with (l +:+ Js.nl +:+ Js.join (l' :: ls) Js.nl).
  rewrite !append_length. change (String.length Js.nl) with 1. lia.
Qed.

(** ** Lines *)

Lemma append_empty_r s : s +:+ "" = s.
Proof.
  induction s as [|c s IH]; [done|].
  change (String c s +:+ "") with (String c (s +:+ "")). by rewrite IH.
Qed.

Lemma rev_onto_rev_onto a cur acc :
  Js.rev_onto (Js.rev_onto a cur) acc = Js.rev_onto cur (a +:+ acc).
Proof.
  revert cur. induction a as [|c a IH]; intros cur; cbn [Js.rev_onto]; [done|].
  by rewrite IH.
Qed.

Lemma one_line_append a b : one_line (a +:+ b) = one_line a && one_line b.
Proof.
  unfold one_line. induction a as [|c a IH]; [done|].
  change (String c a +:+ b) with (String c (a +:+ b)). cbn [Js.all_chars].
  by rewrite IH, andb_assoc.
Qed.

Lemma one_line_rev_onto a acc :
  one_line (Js.rev_onto a acc) = one_line a && one_line acc.
Proof.
  revert acc. induction a as [|c a IH]; intros acc; cbn [Js.rev_onto]; [done|].
  rewrite IH. unfold one_line. cbn [Js.all_chars].
  by rewrite andb_assoc, (andb_comm (Js.all_chars _ a)).
Qed.

Lemma one_line_rev a : one_line (Js.rev a) = one_line a.
Proof. unfold Js.rev. by rewrite one_line_rev_onto, andb_true_r. Qed.

Lemma startsWith_nl c s : Js.startsWith (String c s) Js.nl = Ascii.eqb c "010".
Proof. cbn [Js.startsWith Js.nl]. destruct s; apply andb_true_r. Qed.

(** The pieces that [split] cuts at the line breaks hold no line break. *)
Lemma split_from_one_line s cur :
  one_line cur = true -> Forall (fun l => one_line l = true) (Js.split_from Js.nl s 0 cur).
Proof.
  revert cur. induction s as [|c s IH]; intros cur Hcur; cbn [Js.split_from].
  - repeat constructor. by rewrite one_line_rev.
  - rewrite startsWith_nl. destruct (Ascii.eqb c "010") eqn:E.
    + constructor; [by rewrite one_line_rev|]. by apply IH.
    + apply IH. unfold one_line in *. cbn [Js.all_chars]. by rewrite E.
Qed.

Lemma split_one_line s : Forall (fun l => one_line l = true) (Js.split s Js.nl).
Proof. by apply split_from_one_line. Qed.

Lemma split_from_line a t cur :
  one_line a = true ->
  Js.split_from Js.nl (a +:+ t) 0 cur = Js.split_from Js.nl t 0 (Js.rev_onto a cur).
Proof.
  revert cur. induction a as [|c a IH]; intros cur Ha; [done|].
  change (String c a +:+ t) with (String c (a +:+ t)).
  unfold one_line in Ha. cbn [Js.all_chars] in Ha. apply andb_prop in Ha as [Hc Ha].
  apply negb_true_iff in Hc.
  cbn [Js.split_from]. rewrite startsWith_nl, Hc. cbn [Js.rev_onto].
  by apply IH.
Qed.

(** [split] undoes [join], on lines that hold no line break. *)
Lemma split_join ls :
  ls <> [] -> Forall (fun l => one_line l = true) ls ->
  Js.split (Js.join ls Js.nl) Js.nl = ls.
Proof.
  intros Hne Hls. unfold Js.split.
  induction Hls as [|x ls Hx Hls IH]; [done|]. clear Hne.
  destruct ls as [|y ls].
  - cbn [Js.join]. rewrite <- (append_empty_r x) at 1.
    rewrite split_from_line by done. cbn [Js.split_from]. unfold Js.rev.
    rewrite rev_onto_rev_onto. cbn [Js.rev_onto]. by rewrite !append_empty_r.
  - change (Js.join (x :: y :: ls) Js.nl) with (x +:+ Js.nl +:+ Js.join (y :: ls) Js.nl).
    rewrite split_from_line by done.
    change (Js.nl +:+ Js.join (y :: ls) Js.nl)
      with (String "010" (Js.join (y :: ls) Js.nl)).
    cbn [Js.split_from]. rewrite startsWith_nl.
    change (Ascii.eqb "010" "010") with true. cbn iota.
    change (String.length Js.nl - 1)%nat with 0%nat.
    rewrite IH by done. f_equal. unfold Js.rev. rewrite rev_onto_rev_onto.
    cbn [Js.rev_onto]. apply append_empty_r.
Qed.

Lemma split_nonempty s sep : Js.split s sep <> [].
Proof.
  unfold Js.split. generalize 0%nat as skip, EmptyString as cur.
  induction s as [|c s IH]; intros skip cur; cbn [Js.split_from]; [done|].
  destruct skip; [|apply IH]. destruct (Js.startsWith _ sep); [done|apply IH].
Qed.

End StringFacts.

(** * Regular expressions *)

Section RegexFacts.
Import Regex.

Lemma rep_loop_none p k s : (forall t, k t = None) -> rep_loop p k s = None.
Proof.
  intros Hk. induction s as [|a s IH]; simpl; [apply Hk|].
  destruct (p a); [rewrite IH|]; apply Hk.
Qed.

Lemma chr_none c r : (forall t, match_here r t = None) ->
  forall s, match_here (Chr c :: r) s = None.
Proof.
  intros Hr [|a s]; simpl; [reflexivity|]. destruct (Ascii.eqb a c); auto.
Qed.

Lemma rep_none p r : (forall t, match_here r t = None) ->
  forall s, match_here (Rep p :: r) s = None.
Proof. intros Hr s. cbn [match_here]. by apply rep_loop_none. Qed.

Lemma search_from_none r s skipped :
  (forall t, match_here r t = None) -> search_from r s skipped = None.
Proof.
  intros Hr. revert skipped.
  induction s as [|a s IH]; intros skipped; simpl; rewrite Hr; auto.
Qed.

(** Two end-of-input anchors in front of something that needs a character:
    the anchors hold at the end of the text only, where no character is
    left. *)
Lemma anchors_then_char_none r :
  match_here r EmptyString = None ->
  forall s, match_here (Eoi :: Eoi :: r) s = None.
Proof. intros Hr [|a s]; simpl; auto. Qed.

(** The expression of the [while] header matches no text at all. *)
Lemma re_while_never_matches s : exec Parser.re_while s = None.
Proof.
  apply search_from_none. cbn [Parser.re_while lit app].
  do 5 apply chr_none. apply rep_none, anchors_then_char_none. reflexivity.
Qed.

(** Neither does the expression of the [for] header. *)
Lemma re_for_never_matches s : exec Parser.re_for s = None.
Proof.
  apply search_from_none. cbn [Parser.re_for lit app].
  do 3 apply chr_none. apply rep_none, anchors_then_char_none. reflexivity.
Qed.


Lemma cap_loop_one_group plus p k s taken caps rest :
  (forall t c r, k t = Some (c, r) -> c = []) ->
  cap_loop plus p k s taken = Some (caps, rest) ->
  exists g, caps = [g].
Proof.
  intros Hk. revert taken.
  assert (Hstop : forall t taken,
    (if plus && Js.is_empty taken then None
     else match k t with
          | Some (caps, rest) => Some (Js.rev taken :: caps, rest)
          | None => None
          end) = Some (caps, rest) -> exists g, caps = [g]).
  { intros t taken. destruct (plus && Js.is_empty taken); [discriminate|].
    destruct (k t) as [[c r]|] eqn:E; [|discriminate].
    apply Hk in E as ->. intros [= <- _]. eauto. }
  induction s as [|a s IH]; intros taken; simpl; [apply Hstop|].
  destruct (p a); [|apply Hstop].
  destruct (cap_loop plus p k s (String a taken)) as [m|] eqn:E; [|apply Hstop].
  intros [= ->]. eauto.
Qed.

Lemma class_has_no_group q t c r : match_here [Cls q] t = Some (c, r) -> c = [].
Proof.
  destruct t as [|a t]; simpl; [discriminate|].
  destruct (q a); [|discriminate]. by intros [= <- _].
Qed.

(** A match of the array expression has one group: its [match[2]] is
    [undefined]. *)
Lemma re_array_has_one_group s m :
  exec Parser.re_array s = Some m -> Parser.group m 2 = None.
Proof.
  assert (Hhere : forall t caps rest,
    match_here Parser.re_array t = Some (caps, rest) -> exists g, caps = [g]).
  { intros t caps rest. apply cap_loop_one_group, class_has_no_group. }
  unfold exec. generalize EmptyString as skipped.
  induction s as [|a s IH]; intros skipped; cbn [search_from].
  - destruct (match_here Parser.re_array EmptyString) as [[caps rest]|] eqn:E; [|discriminate].
    apply Hhere in E as [g ->]. by intros [= <-].
  - destruct (match_here Parser.re_array (String a s)) as [[caps rest]|] eqn:E; [|apply IH].
    apply Hhere in E as [g ->]. by intros [= <-].
Qed.

End RegexFacts.

(** * Numbers *)

Section NumberFacts.

Lemma Qred_inject_Z z : Qred (inject_Z z) = inject_Z z.
Proof.
  unfold Qred, inject_Z.
  pose proof (Z.ggcd_gcd z 1) as Hg. pose proof (Z.ggcd_correct_divisors z 1) as Hd.
  destruct (Z.ggcd z 1) as [g [aa bb]]. cbn [fst snd] in *.
  rewrite Z.gcd_1_r in Hg. subst g. destruct Hd as [Ha Hb].
  rewrite Z.mul_1_l in Ha, Hb. by subst aa bb.
Qed.

Lemma Qred_integer q z : (q == inject_Z z)%Q -> Qred q = inject_Z z.
Proof. intros H. by rewrite (Qred_complete _ _ H), Qred_inject_Z. Qed.

Lemma add_integers a b : Number.add (Number.of_Z a) (Number.of_Z b) = Number.of_Z (a + b).
Proof.
  unfold Number.of_Z. cbn [Number.add]. f_equal. apply Qred_integer.
  by rewrite inject_Z_plus.
Qed.

Lemma sub_integers a b : Number.sub (Number.of_Z a) (Number.of_Z b) = Number.of_Z (a - b).
Proof.
  unfold Number.sub, Number.of_Z. cbn [Number.neg].
  rewrite (Qred_integer (- inject_Z b) (- b)) by by rewrite inject_Z_opp.
  apply (add_integers a (- b)).
Qed.

Lemma mul_integers a b : Number.mul (Number.of_Z a) (Number.of_Z b) = Number.of_Z (a * b).
Proof.
  unfold Number.of_Z. cbn [Number.mul]. f_equal. apply Qred_integer.
  by rewrite inject_Z_mult.
Qed.

Lemma trunc_quotient a b : b <> 0 -> Number.trunc (inject_Z a / inject_Z b) = Z.quot a b.
Proof.
  intros Hb. unfold Number.trunc, Qdiv, Qinv, inject_Z. cbn [Qnum Qden Qmult].
  destruct b as [|p|p]; [done| |]; cbn [Qnum Qden Qmult Z.sgn].
  - by rewrite Z.mul_1_r, Pos.mul_1_l.
  - rewrite Pos.mul_1_l. change (Z.neg p) with (- Z.pos p).
    rewrite Z.quot_opp_r by done. rewrite <- Z.quot_opp_l by done. f_equal. lia.
Qed.

Lemma rem_integers a b :
  b <> 0 -> Number.rem (Number.of_Z a) (Number.of_Z b) = Number.of_Z (Z.rem a b).
Proof.
  intros Hb. unfold Number.of_Z. cbn [Number.rem].
  replace (Number.is_zero (inject_Z b)) with false
    by (symmetry; apply Z.eqb_neq; exact Hb).
  f_equal. apply Qred_integer. rewrite trunc_quotient by done.
  unfold Qminus. rewrite <- inject_Z_mult, <- inject_Z_opp, <- inject_Z_plus.
  apply inject_Z_injective. pose proof (Z.quot_rem' a b). lia.
Qed.

Lemma div_integers q b :
  b <> 0 -> Number.div (Number.of_Z (q * b)) (Number.of_Z b) = Number.of_Z q.
Proof.
  intros Hb. unfold Number.of_Z. cbn [Number.div].
  replace (Number.is_zero (inject_Z b)) with false
    by (symmetry; apply Z.eqb_neq; exact Hb).
  f_equal. apply Qred_integer. rewrite inject_Z_mult.
  field. intros H. apply Hb. by apply (inject_Z_injective b 0).
Qed.

Lemma lt_integers a b : Number.lt (Number.of_Z a) (Number.of_Z b) = (a <? b).
Proof.
  unfold Number.of_Z, inject_Z. cbn [Number.lt]. unfold Qcompare. cbn [Qnum Qden].
  rewrite !Z.mul_1_r. unfold Z.ltb. by destruct (a ?= b).
Qed.

Lemma eq_integers a b : Number.eq (Number.of_Z a) (Number.of_Z b) = (a =? b).
Proof.
  unfold Number.of_Z, inject_Z. cbn [Number.eq]. unfold Qeq_bool. cbn [Qnum Qden].
  by rewrite !Z.mul_1_r.
Qed.

Lemma le_integers a b : Number.le (Number.of_Z a) (Number.of_Z b) = (a <=? b).
Proof.
  unfold Number.le. rewrite lt_integers, eq_integers.
  destruct (Z.ltb_spec a b), (Z.eqb_spec a b), (Z.leb_spec a b); try done; lia.
Qed.
End NumberFacts.

(** * The parser *)

Section ParserFacts.
Import Parser.

(** ** The bounds of the model are never reached *)

Lemma parseExpression_fuel_enough fuel text :
  (String.length text < fuel)%nat -> parseExpression_fuel fuel text <> OutOfFuel.
Proof.
  revert text. induction fuel as [|fuel IH]; intros text Hlen; [lia|].
  cbn [parseExpression_fuel].
  destruct (if Js.includes text "[" && Js.includes text "]"
            then Regex.exec re_array text else None) as [m|] eqn:Earr.
  - destruct (Js.includes text "[" && Js.includes text "]"); [|discriminate].
    rewrite (re_array_has_one_group _ _ Earr). by destruct (group m 1).
  - destruct (List.find _ operators) as [op|].
    + destruct (Js.split text (op_text op)) as [|lhs [|rhs pieces]] eqn:Esplit;
        try discriminate.
      apply split_pieces_shorter in Esplit as [Hl Hr].
      pose proof (trim_length lhs). pose proof (trim_length rhs).
      pose proof (IH (Js.trim lhs) ltac:(lia)) as Hlhs.
      pose proof (IH (Js.trim rhs) ltac:(lia)) as Hrhs.
      destruct (parseExpression_fuel fuel (Js.trim lhs)); [|discriminate|done].
      cbn [rbind].
      destruct (parseExpression_fuel fuel (Js.trim rhs)); [discriminate|discriminate|done].
    + by destruct (negb (Number.isNaN text)).
Qed.

(** [parseExpression] returns or raises on every text. *)
Lemma parseExpression_total text : parseExpression text <> OutOfFuel.
Proof. apply parseExpression_fuel_enough. lia. Qed.

Lemma parse_condition_total c : parse_condition c <> OutOfFuel.
Proof. destruct c; [apply parseExpression_total|discriminate]. Qed.

Lemma collect_block_weight ls depth acc passed :
  (weight (collect_block ls depth acc passed).1 <= weight acc + weight ls)%nat.
Proof.
  revert depth acc passed. induction ls as [|l ls IH]; intros depth acc passed;
    cbn [collect_block]; [cbn [fst]; lia|].
  rewrite weight_cons. destruct (depth >? 0)%Z; [|cbn [fst]; lia].
  cbn zeta. etrans; [apply IH|].
  match goal with |- context [if ?b then _ else acc] => destruct b end; [|lia].
  rewrite weight_app, weight_cons. pose proof (trim_length l).
  change (weight []) with 0%nat. lia.
Qed.

Lemma collect_else_weight ls : (weight (collect_else ls).1 <= weight ls)%nat.
Proof.
  destruct ls as [|l ls]; cbn [collect_else]; [done|].
  destruct (Js.startsWith (Js.trim l) "else");
    [|cbn [fst]; change (weight []) with 0%nat; lia].
  pose proof (collect_block_weight (drop 1 ls) 1 [] 0) as H.
  destruct (collect_block (drop 1 ls) 1 [] 0) as [elseBody n]. cbn [fst] in *.
  pose proof (weight_drop 1 ls). rewrite weight_cons.
  change (weight []) with 0%nat in H. lia.
Qed.

(** The loop over the lines returns or raises as soon as the parser of the
    nested blocks does so on every text shorter than the lines at hand. *)
Lemma parse_lines_fuel parseBlock ls :
  (forall t, (String.length t + 1 < weight ls)%nat -> parseBlock t <> OutOfFuel) ->
  forall skip ast, parse_lines parseBlock ls skip ast <> OutOfFuel.
Proof.
  induction ls as [|l ls IH]; intros Hblock skip ast; [discriminate|].
  assert (Hrest : forall skip ast, parse_lines parseBlock ls skip ast <> OutOfFuel).
  { apply IH. intros t Ht. apply Hblock. rewrite weight_cons. lia. }
  cbn [parse_lines]. destruct skip as [|k]; [|apply Hrest].
  destruct (Js.is_empty (Js.trim l)) eqn:Hempty; [apply Hrest|].
  cbn [orb]. destruct (Js.startsWith (Js.trim l) "//"); [apply Hrest|].
  assert (Hbody : forall body, (weight body <= weight ls)%nat ->
                    parseBlock (Js.join body Js.nl) <> OutOfFuel).
  { intros body Hw. apply Hblock. rewrite weight_cons.
    pose proof (join_length body). pose proof (trim_length l).
    apply nonempty_length in Hempty. lia. }
  destruct (Js.includes (Js.trim l) ":=").
  { destruct (Js.split (Js.trim l) ":=") as [|lhs [|rhs pieces]]; try discriminate.
    pose proof (parseExpression_total (Js.trim (Regex.remove re_semicolon rhs))).
    destruct (parseExpression _); [apply Hrest|discriminate|done]. }
  destruct (Js.startsWith (Js.trim l) "if").
  { destruct (Regex.exec re_if (Js.trim l)) as [condMatch|]; [|discriminate].
    pose proof (parse_condition_total (group condMatch 1)).
    destruct (parse_condition _); [|discriminate|done]. cbn [rbind].
    pose proof (collect_block_weight ls 1 [] 0) as HwIf.
    destruct (collect_block ls 1 [] 0) as [ifBody n]. cbn [fst] in HwIf.
    pose proof (collect_else_weight (drop n ls)) as HwElse.
    destruct (collect_else (drop n ls)) as [elseBody m]. cbn [fst] in HwElse.
    pose proof (weight_drop n ls).
    pose proof (Hbody ifBody ltac:(change (weight []) with 0%nat in HwIf; lia)).
    pose proof (Hbody elseBody ltac:(lia)).
    destruct (parseBlock (Js.join ifBody Js.nl)); [|discriminate|done]. cbn [rbind].
    destruct (parseBlock (Js.join elseBody Js.nl)); [|discriminate|done]. apply Hrest. }
  destruct (Js.startsWith (Js.trim l) "while").
  { by rewrite re_while_never_matches. }
  destruct (Js.startsWith (Js.trim l) "for").
  { by rewrite re_for_never_matches. }
  destruct (Js.startsWith (Js.trim l) "assert"); [|apply Hrest].
  destruct (Regex.exec re_assert (Js.trim l)) as [assertMatch|]; [|discriminate].
  pose proof (parse_condition_total (group assertMatch 1)).
  destruct (parse_condition _); [apply Hrest|discriminate|done].
Qed.

Lemma parseProgram_fuel_enough fuel programText :
  (String.length programText <= fuel)%nat ->
  parseProgram_fuel (S fuel) programText <> OutOfFuel.
Proof.
  revert programText. induction fuel as [|fuel IH]; intros programText Hlen;
    cbn [parseProgram_fuel]; apply parse_lines_fuel; intros t Ht;
    pose proof (split_from_length Js.nl programText 0 EmptyString) as Hsplit;
    fold (Js.split programText Js.nl) in Hsplit; cbn [String.length] in Hsplit.
  - lia.
  - apply IH. lia.
Qed.

(** [parseProgram] returns or raises on every text. *)
Lemma parseProgram_total programText : parseProgram programText <> OutOfFuel.
Proof. by apply parseProgram_fuel_enough. Qed.

(** ** What the parser cannot produce *)

(** No text is parsed to an expression with an array access in it: the
    branch that builds one reads a second group of a match that has one. *)
Lemma parseExpression_fuel_no_array fuel text e :
  parseExpression_fuel fuel text = Ok e -> has_array_access e = false.
Proof.
  revert text e. induction fuel as [|fuel IH]; intros text e; [discriminate|].
  cbn [parseExpression_fuel].
  destruct (if Js.includes text "[" && Js.includes text "]"
            then Regex.exec re_array text else None) as [m|] eqn:Earr.
  - destruct (Js.includes text "[" && Js.includes text "]"); [|discriminate].
    rewrite (re_array_has_one_group _ _ Earr). by destruct (group m 1).
  - destruct (List.find _ operators) as [op|].
    + destruct (Js.split text (op_text op)) as [|lhs [|rhs pieces]]; try discriminate.
      destruct (parseExpression_fuel fuel (Js.trim lhs)) as [l| |] eqn:El; try discriminate.
      destruct (parseExpression_fuel fuel (Js.trim rhs)) as [r| |] eqn:Er; try discriminate.
      cbn. intros [= <-]. cbn. by rewrite (IH _ _ El), (IH _ _ Er).
    + destruct (negb (Number.isNaN text)); by intros [= <-].
Qed.

(** A line that starts with [while] and holds no [:=] is rejected, whatever
    follows the keyword. *)
Lemma parse_lines_rejects_every_while parseBlock l ls ast :
  Js.includes (Js.trim l) ":=" = false ->
  Js.startsWith (Js.trim l) "while" = true ->
  parse_lines parseBlock (l :: ls) O ast
  = Throw (Error ("Invalid while statement: " +:+ Js.trim l)).
Proof.
  intros Hassign Hwhile.
  assert (Js.is_empty (Js.trim l) || Js.startsWith (Js.trim l) "//" = false
          /\ Js.startsWith (Js.trim l) "if" = false) as [Hskip Hif].
  { destruct (Js.trim l) as [|a line]; [discriminate|]. cbn in Hwhile |- *.
    destruct (Ascii.eqb_spec a "w"); [by subst a|discriminate]. }
  cbn [parse_lines]. by rewrite Hskip, Hassign, Hif, Hwhile, re_while_never_matches.
Qed.

(** ** Lines in front of a header *)

Lemma parse_lines_passes parseBlock pre ls :
  forallb passes_on pre = true ->
  forall ast, exists ast',
    parse_lines parseBlock (pre ++ ls) O ast = parse_lines parseBlock ls O ast'.
Proof.
  induction pre as [|l pre IH]; intros Hpre ast; [by exists ast|].
  cbn [forallb] in Hpre. apply andb_prop in Hpre as [Hl Hpre].
  cbn [app parse_lines]. unfold passes_on in Hl.
  destruct (Js.is_empty (Js.trim l) || Js.startsWith (Js.trim l) "//"); [by apply IH|].
  destruct (Js.includes (Js.trim l) ":=").
  - destruct (Js.split (Js.trim l) ":=") as [|lhs [|rhs pieces]]; try discriminate.
    destruct (parseExpression _) as [r| |]; try discriminate. cbn. by apply IH.
  - apply negb_true_iff in Hl. repeat (apply orb_false_elim in Hl as [Hl ?]).
    rewrite Hl. repeat match goal with H : _ = false |- _ => rewrite H end. by apply IH.
Qed.

(** ** The scan, line by line *)

Lemma parse_lines_ext pb1 pb2 ls :
  (forall t, (String.length t + 1 < weight ls)%nat -> pb1 t = pb2 t) ->
  forall skip ast, parse_lines pb1 ls skip ast = parse_lines pb2 ls skip ast.
Proof.
  induction ls as [|l ls IH]; intros Hblock skip ast; [done|].
  assert (Hrest : forall skip ast, parse_lines pb1 ls skip ast = parse_lines pb2 ls skip ast).
  { apply IH. intros t Ht. apply Hblock. rewrite weight_cons. lia. }
  cbn [parse_lines]. destruct skip as [|k]; [|apply Hrest].
  destruct (Js.is_empty (Js.trim l)) eqn:Hempty; [apply Hrest|].
  cbn [orb]. destruct (Js.startsWith (Js.trim l) "//"); [apply Hrest|].
  assert (Hbody : forall body, (weight body <= weight ls)%nat ->
                    pb1 (Js.join body Js.nl) = pb2 (Js.join body Js.nl)).
  { intros body Hw. apply Hblock. rewrite weight_cons.
    pose proof (join_length body). pose proof (trim_length l).
    apply nonempty_length in Hempty. lia. }
  destruct (Js.includes (Js.trim l) ":=").
  { destruct (Js.split (Js.trim l) ":=") as [|lhs [|rhs pieces]]; try done.
    destruct (parseExpression _); [apply Hrest|done|done]. }
  destruct (Js.startsWith (Js.trim l) "if").
  { destruct (Regex.exec re_if (Js.trim l)) as [condMatch|]; [|done].
    destruct (parse_condition _); [|done|done]. cbn [rbind].
    pose proof (collect_block_weight ls 1 [] 0) as HwIf.
    destruct (collect_block ls 1 [] 0) as [ifBody n]. cbn [fst] in HwIf.
    pose proof (collect_else_weight (drop n ls)) as HwElse.
    destruct (collect_else (drop n ls)) as [elseBody m]. cbn [fst] in HwElse.
    pose proof (weight_drop n ls).
    rewrite (Hbody ifBody ltac:(change (weight []) with 0%nat in HwIf; lia)).
    rewrite (Hbody elseBody ltac:(lia)).
    destruct (pb2 (Js.join ifBody Js.nl)); [|done|done]. cbn [rbind].
    destruct (pb2 (Js.join elseBody Js.nl)); [|done|done]. apply Hrest. }
  destruct (Js.startsWith (Js.trim l) "while").
  { by rewrite re_while_never_matches. }
  destruct (Js.startsWith (Js.trim l) "for").
  { by rewrite re_for_never_matches. }
  destruct (Js.startsWith (Js.trim l) "assert"); [|apply Hrest].
  destruct (Regex.exec re_assert (Js.trim l)) as [assertMatch|]; [|done].
  destruct (parse_condition _); [apply Hrest|done|done].
Qed.

Lemma split_weight text : (weight (Js.split text Js.nl) <= String.length text + 1)%nat.
Proof.
  pose proof (split_from_length Js.nl text 0 EmptyString) as H.
  fold (Js.split text Js.nl) in H. cbn [String.length] in H. lia.
Qed.

Lemma parseProgram_fuel_stable n :
  forall fuel programText,
    (fuel <= n)%nat -> (String.length programText <= fuel)%nat ->
    parseProgram_fuel (S fuel) programText = parseProgram programText.
Proof.
  induction n as [|n IH]; intros fuel text Hf Hlen.
  - assert (fuel = 0%nat) as -> by lia.
    assert (String.length text = 0%nat) as E by lia.
    unfold parseProgram. by rewrite E.
  - unfold parseProgram. cbn [parseProgram_fuel].
    apply parse_lines_ext. intros t Ht. pose proof (split_weight text).
    destruct fuel as [|fuel]; [lia|].
    destruct (String.length text) as [|k] eqn:E; [lia|].
    rewrite (IH fuel t), (IH k t); [done|lia..].
Qed.

(** [parseProgram] in terms of itself. *)
Lemma parseProgram_unfold programText :
  parseProgram programText
  = parse_lines parseProgram (Js.split programText Js.nl) O [].
Proof.
  unfold parseProgram at 1. cbn [parseProgram_fuel].
  apply parse_lines_ext. intros t Ht. pose proof (split_weight programText).
  destruct (String.length programText) as [|k] eqn:E; [lia|].
  apply (parseProgram_fuel_stable k); lia.
Qed.

Lemma parse_lines_skip pb ls k ast :
  parse_lines pb ls k ast = parse_lines pb (drop k ls) O ast.
Proof.
  revert k. induction ls as [|l ls IH]; intros [|k]; try done.
  cbn [parse_lines drop]. apply IH.
Qed.


(** A line starts with one keyword at most, and then is neither blank nor a
    comment. *)
Lemma keyword_first line keyword :
  In keyword ["if"; "while"; "for"; "assert"] ->
  Js.startsWith line keyword = true ->
  Js.is_empty line || Js.startsWith line "//" = false
  /\ forall other, In other ["if"; "while"; "for"; "assert"] -> other <> keyword ->
       Js.startsWith line other = false.
Proof.
  intros Hk Hstart. destruct line as [|a line].
  { cbn [In] in Hk. by repeat (destruct Hk as [<-|Hk]; [discriminate|]). }
  assert (Hfirst : forall k c rest, k = String c rest ->
            Js.startsWith (String a line) k = true -> a = c).
  { intros k c rest -> H. cbn in H. by destruct (Ascii.eqb_spec a c). }
  assert (Hno : forall k c rest, k = String c rest -> a <> c ->
            Js.startsWith (String a line) k = false).
  { intros k c rest -> H. cbn. by destruct (Ascii.eqb_spec a c). }
  cbn [In] in Hk.
  repeat (destruct Hk as [<-|Hk];
    [pose proof (Hfirst _ _ _ eq_refl Hstart) as ->; split;
       [reflexivity|];
     intros other Ho Hne; cbn [In] in Ho;
     repeat (destruct Ho as [<-|Ho]; [first [done|by eapply Hno]|]); destruct Ho|]).
  destruct Hk.
Qed.

Lemma parseExpression_fuel_throws fuel text e :
  parseExpression_fuel fuel text = Throw e -> e = TypeError.
Proof.
  revert text. induction fuel as [|fuel IH]; intros text; [discriminate|].
  cbn [parseExpression_fuel].
  destruct (if Js.includes text "[" && Js.includes text "]"
            then Regex.exec re_array text else None) as [m|] eqn:Earr.
  - destruct (Js.includes text "[" && Js.includes text "]"); [|discriminate].
    rewrite (re_array_has_one_group _ _ Earr). destruct (group m 1); by intros [= <-].
  - destruct (List.find _ operators) as [op|].
    + destruct (Js.split text (op_text op)) as [|lhs [|rhs pieces]];
        try by intros [= <-].
      destruct (parseExpression_fuel fuel (Js.trim lhs)) as [l| |] eqn:El;
        [|intros [= <-]; by eapply IH|discriminate].
      cbn [rbind].
      destruct (parseExpression_fuel fuel (Js.trim rhs)) as [r| |] eqn:Er;
        [discriminate|intros [= <-]; by eapply IH|discriminate].
    + by destruct (negb (Number.isNaN text)).
Qed.

Lemma parse_condition_throws c e : parse_condition c = Throw e -> e = TypeError.
Proof.
  destruct c as [c|]; cbn [parse_condition]; [|by intros [= <-]].
  apply parseExpression_fuel_throws.
Qed.

Lemma parse_lines_steps_over pb p ls ast :
  steps_over p = true ->
  exists ast', parse_lines pb (p :: ls) O ast = parse_lines pb ls O ast'.
Proof.
  unfold steps_over. intros H. apply orb_prop in H as [H|H].
  - apply (parse_lines_passes pb [p] ls). cbn [forallb]. by rewrite H.
  - cbn zeta in H. apply andb_prop in H as [H Hcond]. apply andb_prop in H as [Hassign Hstart].
    apply negb_true_iff in Hassign.
    destruct (keyword_first (Js.trim p) "assert") as [Hskip Hother];
      [cbn; tauto|done|].
    cbn [parse_lines]. rewrite Hskip, Hassign.
    rewrite !Hother by (cbn; first [tauto|discriminate]). rewrite Hstart.
    destruct (Regex.exec re_assert (Js.trim p)) as [m|]; [|discriminate].
    destruct (parse_condition (group m 1)) as [c| |]; try discriminate.
    cbn [rbind]. eauto.
Qed.

Lemma parse_lines_opens_if pb p ls ast :
  opens_if p = true ->
  exists c,
    parse_lines pb (p :: ls) O ast
    = let? ifAst := pb (Js.join (if_block ls) Js.nl) in
      let? elseAst := pb (Js.join (else_block ls) Js.nl) in
      parse_lines pb (behind_if ls) O (ast ++ [IfStatement c (body ifAst) (body elseAst)]).
Proof.
  unfold opens_if. cbn zeta. intros H.
  apply andb_prop in H as [H Hcond]. apply andb_prop in H as [Hassign Hstart].
  apply negb_true_iff in Hassign.
  destruct (keyword_first (Js.trim p) "if") as [Hskip _]; [cbn; tauto|done|].
  cbn [parse_lines]. rewrite Hskip, Hassign, Hstart.
  destruct (Regex.exec re_if (Js.trim p)) as [m|]; [|discriminate].
  destruct (parse_condition (group m 1)) as [c| |]; try discriminate.
  exists c. cbn [rbind]. unfold if_block, else_block, behind_if.
  destruct (collect_block ls 1 [] 0) as [ifBody n]. cbn [fst snd].
  destruct (collect_else (drop n ls)) as [elseBody m']. cbn [fst snd].
  destruct (pb (Js.join ifBody Js.nl)); [|done..]. cbn [rbind].
  destruct (pb (Js.join elseBody Js.nl)); [|done..]. cbn [rbind].
  apply parse_lines_skip.
Qed.

Lemma parse_lines_rejected pb p ls ast keyword re :
  In (keyword, re) headers -> rejected keyword re p ->
  parse_lines pb (p :: ls) O ast = Throw (Error (invalid keyword p)).
Proof.
  intros Hk (Hassign & Hstart & Hmatch).
  assert (Hin : In keyword ["if"; "while"; "for"; "assert"]).
  { unfold headers in Hk. cbn [In] in Hk |- *.
    repeat (destruct Hk as [[= <- <-]|Hk]; [tauto|]). destruct Hk. }
  destruct (keyword_first (Js.trim p) keyword Hin Hstart) as [Hskip Hother].
  cbn [parse_lines]. rewrite Hskip, Hassign.
  unfold headers in Hk. cbn [In] in Hk.
  repeat (destruct Hk as [[= <- <-]|Hk];
    [rewrite ?Hother by (cbn; first [tauto|discriminate]); by rewrite Hstart, Hmatch|]).
  destruct Hk.
Qed.


(** When the scan arrives at a rejected line, the error for that line is
    raised. *)
Lemma parse_lines_reaches ls l :
  reaches ls l ->
  forall keyword re, In (keyword, re) headers -> rejected keyword re l ->
  forall ast, parse_lines parseProgram ls O ast = Throw (Error (invalid keyword l)).
Proof.
  induction 1 as [l ls|p ls l Hp _ IH|p ls l Hp _ IH|p ls l Hp [a Ha] _ IH
                 |p ls l Hp [a Ha] [b Hb] _ IH];
    intros keyword re Hk Hrej ast.
  - by apply (parse_lines_rejected _ _ _ _ keyword re).
  - destruct (parse_lines_steps_over parseProgram p ls ast Hp) as [ast' ->]. by eapply IH.
  - destruct (parse_lines_opens_if parseProgram p ls ast Hp) as [c ->].
    rewrite (parseProgram_unfold (Js.join (if_block ls) Js.nl)).
    fold (block_lines (if_block ls)). by rewrite (IH keyword re).
  - destruct (parse_lines_opens_if parseProgram p ls ast Hp) as [c ->].
    rewrite Ha. cbn [rbind].
    rewrite (parseProgram_unfold (Js.join (else_block ls) Js.nl)).
    fold (block_lines (else_block ls)). by rewrite (IH keyword re).
  - destruct (parse_lines_opens_if parseProgram p ls ast Hp) as [c ->].
    rewrite Ha, Hb. cbn [rbind]. by eapply IH.
Qed.

(** What the scan does at a line: it goes past it, opens an [if], raises the
    error of a rejected line, or raises a type error. *)
Lemma line_cases p :
  steps_over p = true \/ opens_if p = true
  \/ (exists keyword re, In (keyword, re) headers /\ rejected keyword re p)
  \/ (forall pb ls ast, parse_lines pb (p :: ls) O ast = Throw TypeError).
Proof.
  unfold steps_over, opens_if, passes_on, rejected, headers. cbn zeta.
  set (line := Js.trim p).
  destruct (Js.is_empty line || Js.startsWith line "//") eqn:Hskip; [by left|].
  destruct (Js.includes line ":=") eqn:Hassign.
  { cbn [negb andb orb].
    destruct (Js.split line ":=") as [|lhs [|rhs pieces]] eqn:Esplit.
    - right. right. right. intros pb ls ast. cbn [parse_lines]. fold line.
      by rewrite Hskip, Hassign, Esplit.
    - right. right. right. intros pb ls ast. cbn [parse_lines]. fold line.
      by rewrite Hskip, Hassign, Esplit.
    - destruct (parseExpression (Js.trim (Regex.remove re_semicolon rhs))) as [r|e|] eqn:Er.
      + by left.
      + right. right. right. intros pb ls ast. cbn [parse_lines]. fold line.
        rewrite Hskip, Hassign, Esplit, Er. cbn [rbind].
        by rewrite (parseExpression_fuel_throws _ _ _ Er).
      + by apply parseExpression_total in Er. }
  cbn [negb andb].
  destruct (Js.startsWith line "if") eqn:Hif.
  { cbn [andb orb negb]. destruct (Regex.exec re_if line) as [m|] eqn:Em.
    - destruct (parse_condition (group m 1)) as [c|e|] eqn:Ec.
      + right. by left.
      + right. right. right. intros pb ls ast. cbn [parse_lines]. fold line.
        rewrite Hskip, Hassign, Hif, Em, Ec. cbn [rbind].
        by rewrite (parse_condition_throws _ _ Ec).
      + by apply parse_condition_total in Ec.
    - right. right. left. exists "if", re_if. cbn [In]. tauto. }
  destruct (Js.startsWith line "while") eqn:Hwhile.
  { right. right. left. exists "while", re_while. cbn [In].
    pose proof (re_while_never_matches line). tauto. }
  destruct (Js.startsWith line "for") eqn:Hfor.
  { right. right. left. exists "for", re_for. cbn [In].
    pose proof (re_for_never_matches line). tauto. }
  destruct (Js.startsWith line "assert") eqn:Hassert; [|by left].
  cbn [andb orb negb]. destruct (Regex.exec re_assert line) as [m|] eqn:Em.
  - destruct (parse_condition (group m 1)) as [c|e|] eqn:Ec.
    + by left.
    + right. right. right. intros pb ls ast. cbn [parse_lines]. fold line.
      rewrite Hskip, Hassign, Hif, Hwhile, Hfor, Hassert, Em, Ec. cbn [rbind].
      by rewrite (parse_condition_throws _ _ Ec).
    + by apply parse_condition_total in Ec.
  - right. right. left. exists "assert", re_assert. cbn [In]. tauto.
Qed.

Lemma block_lines_weight body : (weight (block_lines body) <= weight body + 1)%nat.
Proof.
  unfold block_lines. pose proof (split_weight (Js.join body Js.nl)).
  pose proof (join_length body). lia.
Qed.

Lemma opens_if_length p : opens_if p = true -> (0 < String.length p)%nat.
Proof.
  unfold opens_if. cbn zeta. intros H.
  apply andb_prop in H as [H _]. apply andb_prop in H as [_ H].
  pose proof (trim_length p). destruct (Js.trim p); [discriminate|]. cbn in *. lia.
Qed.

(** An error of the parser is the error of a rejected line at which the scan
    arrives. *)
Lemma parse_lines_error n :
  forall ls, (weight ls <= n)%nat ->
  forall ast msg,
    parse_lines parseProgram ls O ast = Throw (Error msg) ->
    exists l keyword re,
      In (keyword, re) headers /\ reaches ls l /\ rejected keyword re l
      /\ msg = invalid keyword l.
Proof.
  induction n as [|n IH]; intros [|p ls] Hw ast msg; try discriminate.
  { rewrite weight_cons in Hw. lia. }
  rewrite weight_cons in Hw.
  destruct (line_cases p) as [Hp|[Hp|[(keyword & re & Hk & Hrej)|Hp]]].
  - destruct (parse_lines_steps_over parseProgram p ls ast Hp) as [ast' ->].
    intros H. apply IH in H as (l & keyword & re & Hk & Hl & Hrej & ->); [|lia].
    exists l, keyword, re. eauto using reach_next.
  - destruct (parse_lines_opens_if parseProgram p ls ast Hp) as [c ->].
    pose proof (opens_if_length p Hp) as Hlen.
    pose proof (collect_block_weight ls 1 [] 0) as HwIf. fold (if_block ls) in HwIf.
    change (weight []) with 0%nat in HwIf.
    pose proof (collect_else_weight (drop (collect_block ls 1 [] 0).2 ls)) as HwElse.
    fold (else_block ls) in HwElse.
    pose proof (weight_drop (collect_block ls 1 [] 0).2 ls).
    pose proof (block_lines_weight (if_block ls)).
    pose proof (block_lines_weight (else_block ls)).
    destruct (parseProgram (Js.join (if_block ls) Js.nl)) as [a|e|] eqn:Ea; cbn [rbind].
    + destruct (parseProgram (Js.join (else_block ls) Js.nl)) as [b|e|] eqn:Eb; cbn [rbind].
      * intros H'. apply IH in H' as (l & keyword & re & Hk & Hl & Hrej & ->).
        -- exists l, keyword, re. split; [done|]. split; [|done].
           apply reach_behind; unfold block_parses; eauto.
        -- unfold behind_if. cbn zeta. etrans; [apply weight_drop|]. lia.
      * intros [= ->]. rewrite parseProgram_unfold in Eb.
        apply IH in Eb as (l & keyword & re & Hk & Hl & Hrej & ->); [|fold (block_lines (else_block ls)); lia].
        exists l, keyword, re. split; [done|]. split; [|done].
        apply reach_else; unfold block_parses; eauto.
      * discriminate.
    + intros [= ->]. rewrite parseProgram_unfold in Ea.
      apply IH in Ea as (l & keyword & re & Hk & Hl & Hrej & ->); [|fold (block_lines (if_block ls)); lia].
      exists l, keyword, re. split; [done|]. split; [|done]. by apply reach_then.
    + discriminate.
  - rewrite (parse_lines_rejected _ _ _ _ keyword re Hk Hrej). intros [= <-].
    exists p, keyword, re. eauto using reach_here.
  - by rewrite Hp.
Qed.

(** ** Loops *)

Lemma forallb_snoc {A} (f : A -> bool) l a :
  forallb f (l ++ [a]) = forallb f l && f a.
Proof. rewrite forallb_app. cbn. by rewrite andb_true_r. Qed.

Lemma parse_lines_loop_free parseBlock ls :
  (forall t a, parseBlock t = Ok a -> forallb loop_free (body a) = true) ->
  forall skip ast a,
    forallb loop_free ast = true ->
    parse_lines parseBlock ls skip ast = Ok a ->
    forallb loop_free (body a) = true.
Proof.
  intros Hblock. induction ls as [|l ls IH]; intros skip ast a Hast; cbn [parse_lines].
  - by intros [= <-].
  - destruct skip as [|k]; [|by apply IH].
    destruct (Js.is_empty (Js.trim l) || Js.startsWith (Js.trim l) "//"); [by apply IH|].
    destruct (Js.includes (Js.trim l) ":=").
    { destruct (Js.split (Js.trim l) ":=") as [|lhs [|rhs pieces]]; try discriminate.
      destruct (parseExpression _) as [r| |]; try discriminate. cbn [rbind].
      apply IH. by rewrite forallb_snoc, Hast. }
    destruct (Js.startsWith (Js.trim l) "if").
    { destruct (Regex.exec re_if (Js.trim l)) as [condMatch|]; [|discriminate].
      destruct (parse_condition _) as [condition| |]; try discriminate. cbn [rbind].
      destruct (collect_block ls 1 [] 0) as [ifBody n].
      destruct (collect_else (drop n ls)) as [elseBody m].
      destruct (parseBlock (Js.join ifBody Js.nl)) as [ifAst| |] eqn:Eif; try discriminate.
      cbn [rbind].
      destruct (parseBlock (Js.join elseBody Js.nl)) as [elseAst| |] eqn:Eelse; try discriminate.
      cbn [rbind]. apply IH. rewrite forallb_snoc, Hast. cbn [loop_free andb].
      by rewrite (Hblock _ _ Eif), (Hblock _ _ Eelse). }
    destruct (Js.startsWith (Js.trim l) "while").
    { by rewrite re_while_never_matches. }
    destruct (Js.startsWith (Js.trim l) "for").
    { by rewrite re_for_never_matches. }
    destruct (Js.startsWith (Js.trim l) "assert"); [|by apply IH].
    destruct (Regex.exec re_assert (Js.trim l)) as [assertMatch|]; [|discriminate].
    destruct (parse_condition _) as [condition| |]; try discriminate. cbn [rbind].
    apply IH. by rewrite forallb_snoc, Hast.
Qed.

Lemma parseProgram_fuel_loop_free fuel text a :
  parseProgram_fuel fuel text = Ok a -> forallb loop_free (body a) = true.
Proof.
  revert text a. induction fuel as [|fuel IH]; intros text a; [discriminate|].
  cbn [parseProgram_fuel]. by apply parse_lines_loop_free.
Qed.

(** A parsed program has no loop in it. *)
Lemma parseProgram_loop_free programText ast :
  parseProgram programText = Ok ast -> forallb loop_free (body ast) = true.
Proof. apply parseProgram_fuel_loop_free. Qed.

(** ** Blocks *)

(** The scan at the header of an [if]. *)
Lemma parse_lines_if pb p ls ast c :
  opens_if p = true -> header_condition p = Ok c ->
  parse_lines pb (p :: ls) O ast
  = let? ifAst := pb (Js.join (if_block ls) Js.nl) in
    let? elseAst := pb (Js.join (else_block ls) Js.nl) in
    parse_lines pb (behind_if ls) O (ast ++ [IfStatement c (body ifAst) (body elseAst)]).
Proof.
  unfold opens_if, header_condition. cbn zeta. intros H Hc.
  apply andb_prop in H as [H _]. apply andb_prop in H as [Hassign Hstart].
  apply negb_true_iff in Hassign.
  destruct (keyword_first (Js.trim p) "if") as [Hskip _]; [cbn; tauto|done|].
  cbn [parse_lines]. rewrite Hskip, Hassign, Hstart.
  destruct (Regex.exec re_if (Js.trim p)) as [m|]; [|discriminate].
  rewrite Hc. cbn [rbind]. unfold if_block, else_block, behind_if.
  destruct (collect_block ls 1 [] 0) as [ifBody n]. cbn [fst snd].
  destruct (collect_else (drop n ls)) as [elseBody m']. cbn [fst snd].
  destruct (pb (Js.join ifBody Js.nl)); [|done..]. cbn [rbind].
  destruct (pb (Js.join elseBody Js.nl)); [|done..]. cbn [rbind].
  apply parse_lines_skip.
Qed.

(** The collector over lines that keep the depth, up to the line that
    closes the block. *)
Lemma collect_block_level block closing rest acc passed :
  forallb keeps_depth block = true -> closes closing = true ->
  collect_block (block ++ closing :: rest) 1 acc passed
  = (acc ++ collected block, (passed + length block + 1)%nat).
Proof.
  intros Hblock Hclose. revert acc passed.
  induction block as [|l block IH]; intros acc passed.
  - cbn [app collect_block]. unfold closes in Hclose.
    apply andb_prop in Hclose as [Hc Ho]. apply negb_true_iff in Ho.
    change (1 >? 0) with true. cbn iota zeta. rewrite Ho, Hc.
    change (1 - 1 >? 0) with false. cbn [andb].
    replace (collect_block rest (1 - 1) acc (S passed)) with (acc, S passed)
      by (destruct rest; reflexivity).
    unfold collected. cbn. rewrite app_nil_r. f_equal. lia.
  - cbn [forallb] in Hblock. apply andb_prop in Hblock as [Hl Hblock].
    cbn [app collect_block]. change (1 >? 0) with true. cbn iota zeta.
    unfold keeps_depth in Hl. apply Bool.eqb_prop in Hl.
    assert (Hdepth : (if Js.includes (Js.trim l) "}"
                      then (if Js.includes (Js.trim l) "{" then 1 + 1 else 1) - 1
                      else if Js.includes (Js.trim l) "{" then 1 + 1 else 1) = 1).
    { rewrite Hl. by destruct (Js.includes (Js.trim l) "}"). }
    rewrite Hdepth. change (1 >? 0) with true. cbn [andb].
    rewrite (IH Hblock). unfold collected. cbn [fmap list_fmap List.filter length].
    destruct (Js.is_empty (Js.trim l)); cbn [negb]; rewrite <- ?app_assoc; f_equal; lia.
Qed.

Lemma parseProgram_empty : parseProgram (Js.join [] Js.nl) = Ok (Program []).
Proof. reflexivity. Qed.

Lemma parse_lines_blank parseBlock ls ast :
  forallb blank_or_comment ls = true ->
  parse_lines parseBlock ls O ast = Ok (Program ast).
Proof.
  induction ls as [|l ls IH]; intros Hls; cbn [parse_lines]; [done|].
  cbn [forallb] in Hls. apply andb_prop in Hls as [Hl Hls].
  unfold blank_or_comment in Hl. rewrite Hl. by apply IH.
Qed.



(** The statements that the scan has already made stay in front of the ones
    that it makes of the lines left. *)
Lemma parse_lines_acc pb ls :
  forall skip ast,
    parse_lines pb ls skip ast
    = let? p := parse_lines pb ls skip [] in Ok (Program (ast ++ body p)).
Proof.
  induction ls as [|l ls IH]; intros skip ast; cbn [parse_lines].
  { cbn. by rewrite app_nil_r. }
  destruct skip as [|k]; [|apply IH].
  destruct (Js.is_empty (Js.trim l) || Js.startsWith (Js.trim l) "//"); [apply IH|].
  assert (Hstep : forall s,
    parse_lines pb ls O (ast ++ [s])
    = let? p := parse_lines pb ls O [s] in Ok (Program (ast ++ body p))).
  { intros s. rewrite (IH O (ast ++ [s])), (IH O [s]).
    destruct (parse_lines pb ls O []) as [p| |]; cbn [rbind body]; [|done..].
    by rewrite <- app_assoc. }
  assert (Hskip : forall n s,
    parse_lines pb ls n (ast ++ [s])
    = let? p := parse_lines pb ls n [s] in Ok (Program (ast ++ body p))).
  { intros n s. rewrite (IH n (ast ++ [s])), (IH n [s]).
    destruct (parse_lines pb ls n []) as [p| |]; cbn [rbind body]; [|done..].
    by rewrite <- app_assoc. }
  destruct (Js.includes (Js.trim l) ":=").
  { destruct (Js.split (Js.trim l) ":=") as [|lhs [|rhs pieces]]; try done.
    destruct (parseExpression _); cbn [rbind app]; [apply Hstep|done..]. }
  destruct (Js.startsWith (Js.trim l) "if").
  { destruct (Regex.exec re_if (Js.trim l)) as [condMatch|]; [|done].
    destruct (parse_condition _); cbn [rbind]; [|done..].
    destruct (collect_block ls 1 [] 0) as [ifBody n].
    destruct (collect_else (drop n ls)) as [elseBody m].
    destruct (pb (Js.join ifBody Js.nl)); cbn [rbind]; [|done..].
    destruct (pb (Js.join elseBody Js.nl)); cbn [rbind app]; [|done..]. apply Hskip. }
  destruct (Js.startsWith (Js.trim l) "while").
  { by rewrite re_while_never_matches. }
  destruct (Js.startsWith (Js.trim l) "for").
  { by rewrite re_for_never_matches. }
  destruct (Js.startsWith (Js.trim l) "assert"); [|apply IH].
  destruct (Regex.exec re_assert (Js.trim l)) as [assertMatch|]; [|done].
  destruct (parse_condition _); cbn [rbind app]; [apply Hstep|done..].
Qed.

(** The parser on the text of some lines that hold no line break. *)
Lemma parseProgram_join ls :
  Forall (fun l => one_line l = true) ls ->
  parseProgram (Js.join ls Js.nl) = parse_lines parseProgram ls O [].
Proof.
  intros Hls. destruct ls as [|l ls]; [done|].
  by rewrite parseProgram_unfold, split_join.
Qed.

Lemma Forall_suffix {A} (P : A -> Prop) l1 l2 : Forall P (l1 ++ l2) -> Forall P l2.
Proof. intros H. by apply Forall_app in H as [_ H]. Qed.

End ParserFacts.

(** * Objects *)

Section ObjFacts.
Context {V : Type}.

Lemma insert_index_perm p l : Obj.insert_index p l ≡ₚ p :: l.
Proof.
  induction l as [|q l IH]; cbn [Obj.insert_index]; [done|].
  destruct (fst p <=? fst q)%Z; [done|]. rewrite IH. apply Permutation_swap.
Qed.

Lemma sort_indices_perm l : Obj.sort_indices l ≡ₚ l.
Proof.
  unfold Obj.sort_indices. induction l as [|p l IH]; cbn [foldr]; [done|].
  by rewrite insert_index_perm, IH.
Qed.

(** [Object.keys] lists every key once: it is a rearrangement of the keys in
    the order of insertion. *)
Lemma keys_perm (o : Obj.t V) : Obj.keys o ≡ₚ o.*1.
Proof.
  unfold Obj.keys. rewrite sort_indices_perm.
  induction (o.*1) as [|k ks IH]; [done|].
  cbn [omap list_omap List.filter]. unfold Obj.is_array_index at 1.
  destruct (Obj.array_index k) as [i|]; cbn [fmap option_fmap option_map negb fmap list_fmap].
  - cbn. by rewrite IH.
  - cbn [negb]. rewrite <- Permutation_middle. by rewrite IH.
Qed.

Lemma put_keys (o : Obj.t V) k v :
  (Obj.put o k v).*1 = if bool_decide (k ∈ o.*1) then o.*1 else o.*1 ++ [k].
Proof.
  induction o as [|[k' v'] o IH]; cbn [Obj.put fmap list_fmap fst].
  - by rewrite bool_decide_eq_false_2 by apply not_elem_of_nil.
  - destruct (String.eqb_spec k' k) as [->|Hne].
    + by rewrite bool_decide_eq_true_2 by apply list_elem_of_here.
    + cbn [fmap list_fmap fst]. fold (fmap (M:=list) (@fst string V)). rewrite IH.
      destruct (decide (k ∈ o.*1)) as [Hin|Hnin].
      * rewrite !bool_decide_eq_true_2; [done|by apply list_elem_of_further|done].
      * rewrite !bool_decide_eq_false_2; [done| |done].
        intros [?|?]%elem_of_cons; congruence.
Qed.
End ObjFacts.

(** * The SSA builder *)

Section SSAFacts.
Import SSA.

Lemma inherited_not_proto x :
  Obj.inherited x = false -> String.eqb x "__proto__" = false.
Proof.
  unfold Obj.inherited, Obj.prototype_members. cbn [existsb]. intros H.
  destruct (String.eqb x "__proto__"); [|done]. by rewrite !orb_true_r in H.
Qed.

Lemma get_tidy vs x v :
  tidy vs -> Obj.get vs x = Some v -> v = zero /\ Obj.inherited x = false.
Proof.
  unfold Obj.get. induction 1 as [|[k w] vs [Hk Hw] _ IH]; simpl; [discriminate|].
  destruct (String.eqb_spec k x) as [->|]; [|exact IH]. simpl in *. by intros [= <-].
Qed.

(** What a read of a tidy [variables] gives. *)
Lemma read_tidy vs x :
  tidy vs ->
  (read vs x = Some zero /\ Obj.inherited x = false)
  \/ (read vs x = Some (Member x) /\ Obj.inherited x = true)
  \/ (read vs x = None /\ Obj.inherited x = false).
Proof.
  intros Hvs. unfold read. destruct (Obj.get vs x) as [v|] eqn:E.
  - destruct (get_tidy _ _ _ Hvs E) as [-> Hx]. by left.
  - destruct (Obj.inherited x); [right; by left|right; by right].
Qed.

Lemma put_tidy vs x : tidy vs -> Obj.inherited x = false -> tidy (Obj.put vs x zero).
Proof.
  intros Hvs Hx. induction Hvs as [|[k w] vs [Hk Hw] Hvs IH]; simpl.
  - by repeat constructor.
  - destruct (String.eqb k x); constructor; auto.
Qed.

Lemma set_tidy vs x : tidy vs -> Obj.inherited x = false -> tidy (Obj.set vs x zero).
Proof. intros Hvs Hx. unfold Obj.set. destruct (String.eqb x "__proto__"); auto using put_tidy. Qed.

Lemma get_put_eq {V} (o : Obj.t V) k v : Obj.get (Obj.put o k v) k = Some v.
Proof.
  unfold Obj.get. induction o as [|[k' v'] o IH]; simpl.
  - by rewrite String.eqb_refl.
  - destruct (String.eqb k' k) eqn:E; simpl; rewrite E; [done|exact IH].
Qed.

Lemma read_set_zero vs x : Obj.inherited x = false -> read (Obj.set vs x zero) x = Some zero.
Proof.
  intros Hx. unfold read, Obj.set. by rewrite (inherited_not_proto _ Hx), get_put_eq.
Qed.

Lemma assign_tidy target source : tidy target -> tidy source -> tidy (Obj.assign target source).
Proof.
  intros Ht Hs. unfold Obj.assign.
  generalize (Obj.keys source) as ks. intros ks. revert target Ht.
  induction ks as [|k ks IH]; intros target Ht; simpl; [done|].
  apply IH. destruct (Obj.get source k) as [v|] eqn:E; [|done].
  destruct (get_tidy _ _ _ Hs E) as [-> Hk]. by apply set_tidy.
Qed.

Lemma quiet_ret {A} (a : A) (P : A -> Prop) : P a -> quiet (ret a) P.
Proof. intros Ha st Hst. by cbn. Qed.

Lemma quiet_bind {A B} (m : M A) (k : A -> M B) P Q :
  quiet m P -> (forall a, P a -> quiet (k a) Q) -> quiet (bind m k) Q.
Proof.
  intros Hm Hk st Hst. unfold bind.
  destruct (Hm st Hst) as (Ha & Hs & Hp & Hz).
  destruct (m st) as [a st']. simpl in *.
  destruct (Hk a Ha st' Hz) as (Hb & Hs' & Hp' & Hz').
  repeat split; auto; congruence.
Qed.

(** While [variables] is tidy, the current version of a name is its first
    name: version 0, or the member inherited under the name ... *)
Lemma getCurrentVersion_zero x :
  quiet (getCurrentVersion x) (fun name => name = first_name x).
Proof.
  intros st Hst. unfold getCurrentVersion, current_name, bind, get_variables, first_name.
  destruct (read_tidy (variables st) x Hst) as [[E Hx]|[[E Hx]|[E Hx]]]; rewrite E, Hx.
  - cbn. rewrite E. cbn. auto.
  - cbn. rewrite E. cbn. auto.
  - cbn. repeat split; auto. by apply set_tidy.
Qed.

(** ... and the new version of a name that is not inherited is version 0
    again: the test [!variables[varName]] takes a version that is 0 for one
    that is missing. *)
Lemma createNewVersion_zero x :
  Obj.inherited x = false ->
  quiet (createNewVersion x) (fun name => name = x +:+ "_0").
Proof.
  intros Hx st Hst. unfold createNewVersion, current_name, bind, get_variables.
  assert (Hv : match read (variables st) x with
               | Some cur => if falsy (Some cur) then Ver (Number.of_Z 0) else increment cur
               | None => Ver (Number.of_Z 0)
               end = zero).
  { destruct (read_tidy (variables st) x Hst) as [[E _]|[[E Hx']|[E _]]];
      rewrite E; [done|congruence|done]. }
  rewrite Hv. cbn [set_variable fst snd variables ssa phi].
  rewrite (read_set_zero _ _ Hx). cbn. repeat split; auto. by apply set_tidy.
Qed.

Ltac quiet_steps :=
  repeat first
    [ apply quiet_ret; done
    | eapply quiet_bind; [first [apply getCurrentVersion_zero | eassumption]|]; intros ].

Lemma processExpression_quiet e : quiet (processExpression e) (fun _ => True).
Proof.
  induction e as [v|name|array index IH|op l IHl r IHr|e IH];
    cbn [processExpression]; quiet_steps.
Qed.

(** At a join where both states are tidy, the two version names of a name
    are the same text, if both exist, and no phi is made. *)
Lemma version_names_agree after vs x i e :
  tidy after -> tidy vs ->
  version_name after x = Some i -> version_name vs x = Some e -> i = e.
Proof.
  unfold version_name. intros Hafter Hvs.
  destruct (read_tidy after x Hafter) as [[E Hx]|[[E Hx]|[E Hx]]]; rewrite E;
    destruct (read_tidy vs x Hvs) as [[E' Hx']|[[E' Hx']|[E' Hx']]]; rewrite E';
    cbn; congruence.
Qed.

Lemma processExpression_at_zero e :
  quiet (processExpression e) (fun e' => e' = at_version_zero e).
Proof.
  induction e as [v|name|array index IH|op l IHl r IHr|e IH];
    cbn [processExpression at_version_zero].
  - by apply quiet_ret.
  - eapply quiet_bind; [apply getCurrentVersion_zero|]. intros n ->. by apply quiet_ret.
  - eapply quiet_bind; [apply getCurrentVersion_zero|]. intros n ->.
    eapply quiet_bind; [apply IH|]. intros i ->. by apply quiet_ret.
  - eapply quiet_bind; [apply IHl|]. intros l' ->.
    eapply quiet_bind; [apply IHr|]. intros r' ->. by apply quiet_ret.
  - eapply quiet_bind; [apply IH|]. intros e' ->. by apply quiet_ret.
Qed.

Lemma emits_ret : emits (ret tt) [].
Proof. intros st Hst. cbn. by rewrite app_nil_r. Qed.

Lemma emits_bind {A} (m : M A) (k : A -> M unit) P out :
  quiet m P -> (forall a, P a -> emits (k a) out) -> emits (bind m k) out.
Proof.
  intros Hm Hk st Hst. unfold bind.
  destruct (Hm st Hst) as (Ha & Hs & Hp & Hz).
  destruct (m st) as [a st']. simpl in *.
  destruct (Hk a Ha st' Hz) as (Hs' & Hp' & Hz').
  repeat split; auto; congruence.
Qed.

Lemma emits_seq (m k : M unit) out1 out2 :
  emits m out1 -> emits k out2 -> emits (bind m (fun _ => k)) (out1 ++ out2).
Proof.
  intros Hm Hk st Hst. unfold bind.
  destruct (Hm st Hst) as (Hs & Hp & Hz).
  destruct (m st) as [a st']. simpl in *.
  destruct (Hk st' Hz) as (Hs' & Hp' & Hz').
  repeat split; auto; [|congruence]. by rewrite Hs', Hs, <- app_assoc.
Qed.

Lemma emits_push i : emits (push_ssa i) [i].
Proof. intros st Hst. by cbn. Qed.

Lemma join_branches_emits condition afterIfState :
  tidy afterIfState -> emits (join_branches condition afterIfState) [].
Proof.
  intros Hafter. unfold join_branches.
  apply (emits_bind _ _ (fun _ => True)).
  { intros st Hst. by cbn. }
  intros vs _. generalize (distinct (Obj.keys afterIfState ++ Obj.keys vs) []) as names.
  induction names as [|varName names IH]; cbn [for_each]; [apply emits_ret|].
  apply (emits_seq _ _ [] []); [|exact IH].
  intros st Hst. unfold bind, get_variables. cbn [fst snd].
  destruct (version_name afterIfState varName) as [i|] eqn:Ei;
    [|cbn; by rewrite app_nil_r].
  destruct (version_name (variables st) varName) as [e|] eqn:Ee;
    [|cbn; by rewrite app_nil_r].
  rewrite (version_names_agree _ _ _ _ _ Hafter Hst Ei Ee).
  rewrite String.eqb_refl. cbn. by rewrite app_nil_r.
Qed.

Lemma ifStatement_emits cond processIf processElse out1 out2 :
  emits processIf out1 -> emits processElse out2 ->
  emits (ifStatement cond processIf processElse) (out1 ++ out2).
Proof.
  intros Hif Helse st Hst. unfold ifStatement, bind.
  destruct (processExpression_quiet cond st Hst) as (_ & Hs0 & Hp0 & Hz0).
  destruct (processExpression cond st) as [condition st0]. simpl in *.
  destruct (Hif st0 Hz0) as (Hs1 & Hp1 & Hz1).
  destruct (processIf st0) as [[] st1]. simpl in *.
  set (st2 := Builder (ssa st1) (Obj.assign (variables st1) (variables st0)) (phi st1)).
  assert (Hz2 : tidy (variables st2)) by by apply assign_tidy.
  destruct (Helse st2 Hz2) as (Hs2 & Hp2 & Hz2').
  change (put_variables _ st1) with (tt, st2). cbn iota beta.
  destruct (processElse st2) as [[] st3]. simpl in *.
  destruct (join_branches_emits condition (variables st1) Hz1 st3 Hz2')
    as (Hs3 & Hp3 & Hz3).
  repeat split; auto; [|congruence].
  rewrite Hs3, Hs2, Hs1, Hs0. by rewrite app_nil_r, <- !app_assoc.
Qed.

Lemma processNode_emits node :
  loop_free node = true -> plain_targets node = true ->
  emits (processNode node) (flat_ssa node).
Proof.
  revert node. fix IH 1. intros [x e|c ifBody elseBody|c b|i c u b|c] Hfree Hplain;
    try discriminate; cbn [processNode flat_ssa].
  - apply (emits_bind _ _ (fun e' => e' = at_version_zero e));
      [apply processExpression_at_zero|]. intros rightValue ->.
    cbn [plain_targets] in Hplain. apply negb_true_iff in Hplain.
    apply (emits_bind _ _ (fun name => name = x +:+ "_0"));
      [by apply createNewVersion_zero|].
    intros newVar ->. apply emits_push.
  - cbn [loop_free] in Hfree. apply andb_prop in Hfree as [Hif Helse].
    cbn [plain_targets] in Hplain. apply andb_prop in Hplain as [Pif Pelse].
    apply ifStatement_emits.
    + clear Helse Pelse. induction ifBody as [|s l IHl]; [apply emits_ret|].
      cbn [forallb] in Hif, Pif. apply andb_prop in Hif as [Hs Hl].
      apply andb_prop in Pif as [Ps Pl].
      cbn [foldr]. apply emits_seq; [by apply IH|by apply IHl].
    + clear Hif Pif. induction elseBody as [|s l IHl]; [apply emits_ret|].
      cbn [forallb] in Helse, Pelse. apply andb_prop in Helse as [Hs Hl].
      apply andb_prop in Pelse as [Ps Pl].
      cbn [foldr]. apply emits_seq; [by apply IH|by apply IHl].
  - apply (emits_bind _ _ (fun e' => e' = at_version_zero c));
      [apply processExpression_at_zero|]. intros condition ->. apply emits_push.
Qed.

(** The SSA form of a program without loops that assigns to no inherited
    name: the statements in the order of the text, every target at version
    0; and [variables] ends tidy. *)
Lemma convertToSSA_flat ast :
  forallb loop_free (body ast) = true ->
  forallb plain_targets (body ast) = true ->
  (convertToSSA ast).1 = flat_ssa_of (body ast) /\ tidy (convertToSSA ast).2.
Proof.
  intros Hfree Hplain. unfold convertToSSA, processProgram.
  assert (Hemits : emits (for_each (body ast) processNode) (flat_ssa_of (body ast))).
  { induction (body ast) as [|s l IHl]; cbn [for_each]; [apply emits_ret|].
    cbn [forallb] in Hfree, Hplain. apply andb_prop in Hfree as [Hs Hl].
    apply andb_prop in Hplain as [Ps Pl].
    apply emits_seq; [by apply processNode_emits|by apply IHl]. }
  destruct (Hemits (Builder [] [] [])) as (Hs & _ & Hz); [constructor|].
  destruct (for_each (body ast) processNode (Builder [] [] [])) as [[] st]. simpl in *.
  done.
Qed.

Lemma flat_ssa_version_zero node : Forall version_zero (flat_ssa node).
Proof.
  revert node. fix IH 1. intros [x e|c ifBody elseBody|c b|i c u b|c]; cbn [flat_ssa].
  - repeat constructor. by exists x.
  - apply Forall_app. split.
    + induction ifBody as [|s l IHl]; cbn [foldr]; [constructor|].
      apply Forall_app. split; [apply IH|exact IHl].
    + induction elseBody as [|s l IHl]; cbn [foldr]; [constructor|].
      apply Forall_app. split; [apply IH|exact IHl].
  - constructor.
  - constructor.
  - by repeat constructor.
Qed.

(** In the SSA form of a program without loops that assigns to no inherited
    name, every target is the version 0 of its name, however often the name
    is assigned, and there is no phi. *)
Lemma convertToSSA_loop_free ast :
  forallb loop_free (body ast) = true ->
  forallb plain_targets (body ast) = true ->
  Forall version_zero (convertToSSA ast).1.
Proof.
  intros Hfree Hplain. destruct (convertToSSA_flat ast Hfree Hplain) as [-> _].
  unfold flat_ssa_of. clear. induction (body ast) as [|s l IHl]; cbn [foldr]; [constructor|].
  apply Forall_app. split; [apply flat_ssa_version_zero|exact IHl].
Qed.

(** ** Nodes that the encoder can write *)

Lemma appends_silent {A} P (m : M A) : (forall st, ssa (m st).2 = ssa st) -> appends P m.
Proof. intros H st. exists []. by rewrite app_nil_r, H. Qed.

Lemma appends_bind {A B} P (m : M A) (k : A -> M B) :
  appends P m -> (forall a, appends P (k a)) -> appends P (bind m k).
Proof.
  intros Hm Hk st. unfold bind. destruct (Hm st) as (new & Hs & Hnew).
  destruct (m st) as [a st']. cbn [snd] in Hs.
  destruct (Hk a st') as (new' & Hs' & Hnew').
  exists (new ++ new'). rewrite Hs', Hs, <- app_assoc. split; [done|]. by apply Forall_app.
Qed.

Lemma appends_push P i : P i -> appends P (push_ssa i).
Proof. intros Hi st. exists [i]. split; [done|]. by constructor. Qed.

Lemma appends_for_each {A} P (l : list A) (f : A -> M unit) :
  (forall a, appends P (f a)) -> appends P (for_each l f).
Proof.
  intros Hf. induction l as [|a l IH]; cbn [for_each]; [by apply appends_silent|].
  by apply appends_bind.
Qed.

Lemma appends_current_name P x : appends P (current_name x).
Proof. apply appends_silent. intros st. unfold current_name, bind, get_variables.
  cbn. by destruct (read (variables st) x). Qed.

Lemma appends_createNewVersion P x : appends P (createNewVersion x).
Proof.
  unfold createNewVersion. apply appends_bind; [by apply appends_silent|]. intros vs.
  apply appends_bind; [by apply appends_silent|]. intros _. apply appends_current_name.
Qed.

Lemma appends_getCurrentVersion P x : appends P (getCurrentVersion x).
Proof.
  unfold getCurrentVersion. apply appends_bind; [by apply appends_silent|]. intros vs.
  destruct (falsy _ && is_not_zero _); [|apply appends_current_name].
  apply appends_bind; [|intros ?]; by apply appends_silent.
Qed.

Lemma appends_processExpression P e : appends P (processExpression e).
Proof.
  induction e as [v|name|array index IH|op l IHl r IHr|e IH]; cbn [processExpression];
    repeat first [ by apply appends_silent
                 | apply appends_getCurrentVersion
                 | assumption
                 | apply appends_bind; [|intros ?] ].
Qed.

Lemma appends_join_branches condition afterIfState :
  appends (fun i => encodable i = true) (join_branches condition afterIfState).
Proof.
  unfold join_branches. apply appends_bind; [by apply appends_silent|]. intros vs.
  apply appends_for_each. intros varName.
  apply appends_bind; [by apply appends_silent|]. intros vs'.
  destruct (version_name afterIfState varName) as [i|]; [|by apply appends_silent].
  destruct (version_name vs' varName) as [e|]; [|by apply appends_silent].
  destruct (_ && _); [|by apply appends_silent].
  apply appends_bind; [apply appends_createNewVersion|]. intros newVar.
  by apply appends_push.
Qed.

Lemma appends_ifStatement cond processIf processElse :
  appends (fun i => encodable i = true) processIf ->
  appends (fun i => encodable i = true) processElse ->
  appends (fun i => encodable i = true) (ifStatement cond processIf processElse).
Proof.
  intros Hif Helse. unfold ifStatement.
  repeat first [ apply appends_join_branches
               | apply appends_processExpression
               | assumption
               | by apply appends_silent
               | apply appends_bind; [|intros ?] ].
Qed.

Lemma appends_processNode node :
  loop_free node = true -> appends (fun i => encodable i = true) (processNode node).
Proof.
  revert node. fix IH 1. intros [x e|c ifBody elseBody|c b|i c u b|c] Hfree;
    try discriminate; cbn [processNode].
  - apply appends_bind; [apply appends_processExpression|]. intros rightValue.
    apply appends_bind; [apply appends_createNewVersion|]. intros newVar.
    by apply appends_push.
  - cbn [loop_free] in Hfree. apply andb_prop in Hfree as [Hif Helse].
    apply appends_ifStatement.
    + clear Helse. induction ifBody as [|s l IHl]; [by apply appends_silent|].
      cbn [forallb] in Hif. apply andb_prop in Hif as [Hs Hl].
      apply appends_bind; [by apply IH|intros _; by apply IHl].
    + clear Hif. induction elseBody as [|s l IHl]; [by apply appends_silent|].
      cbn [forallb] in Helse. apply andb_prop in Helse as [Hs Hl].
      apply appends_bind; [by apply IH|intros _; by apply IHl].
  - apply appends_bind; [apply appends_processExpression|]. intros condition.
    by apply appends_push.
Qed.

(** The encoder can write every node of the SSA form of a program without
    loops. *)
Lemma convertToSSA_encodable ast :
  forallb loop_free (body ast) = true ->
  forallb encodable (convertToSSA ast).1 = true.
Proof.
  intros Hfree. unfold convertToSSA, processProgram.
  assert (H : appends (fun i => encodable i = true) (for_each (body ast) processNode)).
  { induction (body ast) as [|s l IHl]; cbn [for_each]; [by apply appends_silent|].
    cbn [forallb] in Hfree. apply andb_prop in Hfree as [Hs Hl].
    apply appends_bind; [by apply appends_processNode|intros _; by apply IHl]. }
  destruct (H (Builder [] [] [])) as (new & Hs & Hnew).
  destruct (for_each (body ast) processNode (Builder [] [] [])) as [[] st].
  cbn [fst snd ssa] in *. rewrite Hs. cbn [app]. clear Hs.
  induction Hnew as [|i new Hi _ IH]; [done|]. cbn [forallb]. by rewrite Hi.
Qed.
End SSAFacts.

(** * The optimizer *)

Section OptimizerFacts.
Import Optimizer.

Lemma counts_positive_empty : counts_positive ∅.
Proof. intros k n. by rewrite lookup_empty. Qed.

Lemma bump_positive k m : counts_positive m -> counts_positive (bump k m).
Proof.
  intros Hm k' n. unfold bump.
  destruct (decide (k = k')) as [->|Hne].
  - rewrite lookup_insert_eq. intros [= <-]. lia.
  - rewrite lookup_insert_ne by done. apply Hm.
Qed.

Lemma countUses_positive e m : counts_positive m -> counts_positive (countUses e m).
Proof.
  revert m. induction e as [v|name|array index IH|op l IHl r IHr|e IH];
    intros m Hm; cbn [countUses]; auto using bump_positive.
Qed.

Lemma scan_node_positive node constants useCounts :
  counts_positive useCounts -> counts_positive (scan_node node (constants, useCounts)).2.
Proof.
  intros Hm. destruct node as [lhs rhs|c|r ops c]; cbn [scan_node snd]; auto.
  - by apply countUses_positive.
  - revert useCounts Hm. induction ops as [|o ops IH]; intros m Hm; cbn [foldl]; auto.
    apply IH. by apply bump_positive.
Qed.

Lemma scan_positive ssa acc :
  counts_positive acc.2 ->
  counts_positive (foldl (fun acc node => scan_node node acc) acc ssa).2.
Proof.
  revert acc. induction ssa as [|node ssa IH]; intros [constants useCounts] Hm;
    cbn [foldl]; [done|].
  apply IH. destruct (scan_node node (constants, useCounts)) as [c u] eqn:E.
  replace u with (scan_node node (constants, useCounts)).2 by by rewrite E.
  by apply scan_node_positive.
Qed.

(** The test [useCounts[node.left] === 0] fails for every node: the counter
    of a name without uses is [undefined]. *)
Lemma is_dead_false useCounts node : counts_positive useCounts -> is_dead useCounts node = false.
Proof.
  intros Hm. destruct node as [lhs rhs|c|r ops c]; cbn [is_dead]; auto.
  apply bool_decide_eq_false. intros H. apply Hm in H. lia.
Qed.

Lemma filter_all {A} (f : A -> bool) (l : list A) :
  (forall a, f a = true) -> List.filter f l = l.
Proof. intros Hf. induction l as [|a l IH]; simpl; [done|]. by rewrite Hf, IH. Qed.

(** The optimizer rewrites every node and removes none. *)
Lemma optimizeSSA_keeps_all ssa :
  exists constants, optimizeSSA ssa = rewrite_node constants <$> ssa.
Proof.
  unfold optimizeSSA.
  pose proof (scan_positive ssa (∅, ∅) counts_positive_empty) as Hpos.
  destruct (foldl _ _ ssa) as [constants useCounts]. simpl in Hpos.
  exists constants. f_equal. apply filter_all. intros node.
  by rewrite is_dead_false.
Qed.

Lemma scan_constants ssa :
  (foldl (fun acc node => scan_node node acc) (∅, ∅) ssa).1
  = list_to_map (reverse (literal_assignments ssa)).
Proof.
  induction ssa as [|node ssa IH] using rev_ind; [done|].
  rewrite foldl_app. cbn [foldl]. unfold literal_assignments in *.
  rewrite omap_app, reverse_app.
  destruct (foldl _ _ ssa) as [constants useCounts]. cbn [fst] in IH. subst constants.
  destruct node as [lhs [v| | | |]|c|r ops c]; cbn; done.
Qed.

End OptimizerFacts.

(** * The encoder *)

Section EncoderFacts.
Import Encoder.


Lemma encode_nodes_outcome ssa s :
  match encode_nodes ssa s with
  | Ok _ => forallb encodable ssa = true
  | Throw e => e = TypeError /\ forallb encodable ssa = false
  | OutOfFuel => False
  end.
Proof.
  revert s. induction ssa as [|node ssa IH]; intros s; cbn [encode_nodes forallb]; [done|].
  destruct node as [lhs rhs|c|r ops c]; cbn [encode_node encodable].
  - destruct (processExpression rhs _) as [rhs' decls]. cbn [rbind andb]. apply IH.
  - destruct (processExpression c _) as [c' decls]. cbn [rbind andb]. apply IH.
  - destruct c as [g|]; cbn [processCondition rbind]; [|done].
    destruct (processExpression g _) as [g' decls].
    destruct ops as [|a [|b ops]]; cbn; try done. apply IH.
Qed.

Lemma renameNode_encodable suffix node :
  encodable (renameNode suffix node) = encodable node.
Proof.
  destruct node as [lhs rhs|c|r ops c]; cbn; try done.
  destruct c; cbn; [|done]. by destruct ops as [|a [|b ops]].
Qed.

Lemma renameVariables_encodable suffix ssa :
  forallb encodable (renameVariables ssa suffix) = forallb encodable ssa.
Proof.
  unfold renameVariables. induction ssa as [|node ssa IH]; [done|].
  cbn [fmap list_fmap forallb]. fold (fmap (renameNode suffix) ssa).
  by rewrite renameNode_encodable, IH.
Qed.

(** The encoder raises nothing on a stream whose nodes it can write. *)
Lemma generateVerificationSMT_encodable ssa :
  forallb encodable ssa = true -> exists smt, generateVerificationSMT ssa = Ok smt.
Proof.
  intros Hssa. unfold generateVerificationSMT.
  pose proof (encode_nodes_outcome ssa (Script ("(set-logic QF_LIA)" +:+ Js.nl) [] [])) as H.
  destruct (encode_nodes ssa _) as [s|e|]; cbn [rbind]; [eauto| |done].
  destruct H as [_ H]. congruence.
Qed.


Lemma generateEquivalenceSMT_ok ssa1 ssa2 :
  forallb encodable ssa1 = true -> forallb encodable ssa2 = true ->
  exists smt, generateEquivalenceSMT ssa1 ssa2 = Ok smt.
Proof.
  intros H1 H2. unfold generateEquivalenceSMT.
  destruct (generateVerificationSMT_encodable ssa1 H1) as [smt1 ->].
  destruct (generateVerificationSMT_encodable (renameVariables ssa2 "_p2")) as [smt2 ->];
    [by rewrite renameVariables_encodable|].
  cbn [rbind]. eauto.
Qed.

(** ** The layout of a script *)

Lemma declare_all_app names1 names2 ds :
  declare_all (names1 ++ names2) ds = declare_all names2 (declare_all names1 ds).
Proof. unfold declare_all. by rewrite foldl_app. Qed.

Lemma processExpression_spec e ds :
  processExpression e ds = (smt_text e, declare_all (declared_in e) ds).
Proof.
  revert ds. induction e as [v|name|array index IH|op l IHl r IHr|e IH]; intros ds;
    cbn [processExpression smt_text declared_in]; try done.
  by rewrite IHl, IHr, declare_all_app.
Qed.

Lemma concat_all_app l1 l2 : concat_all (l1 ++ l2) = concat_all l1 +:+ concat_all l2.
Proof.
  unfold concat_all. induction l1 as [|x l1 IH]; [done|].
  cbn [app foldr]. by rewrite IH, append_assoc.
Qed.

(** The encoder over a stream that it can write: the three parts of its
    state after the loop. *)
Lemma encode_nodes_spec ssa s :
  forallb encodable ssa = true ->
  encode_nodes ssa s
  = Ok (Script (smt s +:+ concat_all (omap definition_line ssa))
          (declare_all (concat (declared_by <$> ssa)) (declarations s))
          (assertions s ++ omap assertion_line ssa)).
Proof.
  revert s. induction ssa as [|node ssa IH]; intros s Hssa.
  { cbn. rewrite append_empty_r, app_nil_r. by destruct s. }
  cbn [forallb] in Hssa. apply andb_prop in Hssa as [Hnode Hssa].
  cbn [encode_nodes fmap list_fmap concat omap list_omap].
  rewrite declare_all_app.
  destruct node as [lhs rhs|c|r ops c];
    cbn [encode_node declared_by definition_line assertion_line].
  - rewrite processExpression_spec. cbn [rbind]. rewrite (IH _ Hssa).
    cbn [smt declarations assertions]. cbn [concat_all foldr].
    fold (concat_all (omap definition_line ssa)).
    by rewrite !append_assoc.
  - rewrite processExpression_spec. cbn [rbind]. rewrite (IH _ Hssa).
    cbn [smt declarations assertions]. by rewrite <- app_assoc.
  - cbn [encodable] in Hnode. destruct c as [g|]; [|discriminate].
    destruct ops as [|a [|b ops]]; try discriminate.
    cbn [processCondition rbind]. rewrite processExpression_spec.
    cbn [lookup list_lookup processOperand rbind]. rewrite (IH _ Hssa).
    cbn [smt declarations assertions from_option]. cbn [concat_all foldr].
    fold (concat_all (omap definition_line ssa)).
    by rewrite !append_assoc.
Qed.

(** ** Outputs *)

Lemma lastAssignments_snoc ssa node :
  lastAssignments (ssa ++ [node])
  = match node with
    | SAssign lhs _ => Obj.set (lastAssignments ssa) lhs lhs
    | _ => lastAssignments ssa
    end.
Proof. unfold lastAssignments. by rewrite foldl_app. Qed.

Lemma targets_snoc ssa node :
  targets (ssa ++ [node])
  = targets ssa ++ match node with
                   | SAssign lhs _ => if String.eqb lhs "__proto__" then [] else [lhs]
                   | _ => []
                   end.
Proof.
  unfold targets. rewrite omap_app, List.filter_app. f_equal.
  destruct node as [lhs rhs|c|r ops c]; cbn; try done.
  by destruct (String.eqb lhs "__proto__").
Qed.

Lemma lastAssignments_spec ssa :
  NoDup (lastAssignments ssa).*1
  /\ (forall x, x ∈ (lastAssignments ssa).*1 <-> x ∈ targets ssa)
  /\ Forall (fun p => p.1 = p.2) (lastAssignments ssa).
Proof.
  induction ssa as [|node ssa IH] using rev_ind.
  - cbn. split; [constructor|]. split; [done|constructor].
  - rewrite lastAssignments_snoc, targets_snoc.
    destruct IH as (Hnd & Hin & Hself).
    destruct node as [lhs rhs|c|r ops c]; [|rewrite app_nil_r; done..].
    unfold Obj.set. destruct (String.eqb lhs "__proto__"); cbn iota;
      [rewrite app_nil_r; done|].
    split; [|split].
    + rewrite put_keys. case_bool_decide; [done|].
      apply NoDup_app. split; [done|]. split; [|apply NoDup_singleton].
      intros x Hx ->%list_elem_of_singleton. done.
    + intros x. rewrite put_keys, elem_of_app, list_elem_of_singleton, <- Hin.
      case_bool_decide; [|by rewrite elem_of_app, list_elem_of_singleton].
      split; [tauto|]. intros [?| ->]; done.
    + clear Hnd Hin. induction Hself as [|[k v] o' Hk Ho' IHo]; cbn [Obj.put].
      * by repeat constructor.
      * destruct (String.eqb_spec k lhs) as [->|Hne]; by constructor.
Qed.

Lemma values_of_self_map (o : Obj.t string) :
  Forall (fun p => p.1 = p.2) o -> Obj.values o = Obj.keys o.
Proof.
  intros Hself. unfold Obj.values.
  assert (Hget : forall k, k ∈ Obj.keys o -> Obj.get o k = Some k).
  { intros k Hk. rewrite keys_perm in Hk.
    unfold Obj.get. induction Hself as [|[k' v'] o' Hkv _ IH]; [by apply elem_of_nil in Hk|].
    cbn in *. subst v'. destruct (String.eqb_spec k' k) as [->|Hne]; [done|].
    apply IH. apply elem_of_cons in Hk as [?|?]; [congruence|done]. }
  induction (Obj.keys o) as [|k ks IH]; [done|].
  cbn [omap list_omap]. rewrite Hget by apply list_elem_of_here.
  cbn. f_equal. apply IH. intros k' Hk'. apply Hget. by apply list_elem_of_further.
Qed.

End EncoderFacts.

(** * The control-flow graph *)

Section CFGFacts.
Import CFG.
Local Open Scope nat_scope.

Lemma grows_refl g : cfg_ok g -> grows g g 0.
Proof. intros Hg. repeat split; try apply Hg; lia. Qed.

Lemma grows_trans g1 g2 g3 n m :
  grows g1 g2 n -> grows g2 g3 m -> grows g1 g3 (n + m).
Proof. intros (H1 & L1 & E1) (H2 & L2 & E2). repeat split; try apply H2; lia. Qed.

Lemma cfg_ok_add_node l g : cfg_ok g -> cfg_ok (add_node l g).2.
Proof.
  intros [Hids Hedges]. split.
  - change (id <$> (nodes g ++ [Node (nodeId g) l]) = seq 0 (S (nodeId g))).
    by rewrite fmap_app, Hids, seq_S.
  - eapply Forall_impl; [exact Hedges|]. cbn. intros e [? ?]. lia.
Qed.

Lemma cfg_ok_add_edge e g :
  cfg_ok g -> from e < nodeId g -> to e < nodeId g -> cfg_ok (add_edge e g).
Proof.
  intros [Hids Hedges] Hf Ht. split; [done|].
  apply Forall_app. split; [done|]. by repeat constructor.
Qed.

(** A new node with the edge from its parent: one node, one edge. *)
Lemma grows_leaf l p g :
  cfg_ok g -> p < nodeId g ->
  grows g (link (Some p) (nodeId g) (add_node l g).2) 0.
Proof.
  intros Hg Hp. split; [|cbn; rewrite length_app; cbn; lia].
  apply cfg_ok_add_edge; [by apply cfg_ok_add_node|cbn; lia..].
Qed.

(** A new node with an edge from an older node. *)
Lemma grows_branch l tag p g :
  cfg_ok g -> p < nodeId g ->
  grows g (add_edge (Edge p (nodeId g) tag) (add_node l g).2) 0.
Proof.
  intros Hg Hp. split; [|cbn; rewrite length_app; cbn; lia].
  apply cfg_ok_add_edge; [by apply cfg_ok_add_node|cbn; lia..].
Qed.

Lemma processNode_if c ifBody elseBody p g :
  processNode (IfStatement c ifBody elseBody) p g =
  let g1 := link p (nodeId g) (add_node ("If (" +:+ formatExpression c +:+ ")") g).2 in
  let g2 := add_edge (Edge (nodeId g) (nodeId g1) (Some "T")) (add_node "Then" g1).2 in
  let g3 := processChildren ifBody (nodeId g1) g2 in
  let g4 := add_edge (Edge (nodeId g) (nodeId g3) (Some "F")) (add_node "Else" g3).2 in
  processChildren elseBody (nodeId g3) g4.
Proof. reflexivity. Qed.

Lemma processNode_while c body p g :
  processNode (WhileLoop c body) p g =
  let g1 := link p (nodeId g) (add_node ("While (" +:+ formatExpression c +:+ ")") g).2 in
  let g2 := add_edge (Edge (nodeId g) (nodeId g1) (Some "T")) (add_node "Loop Body" g1).2 in
  let g3 := processChildren body (nodeId g1) g2 in
  add_edge (Edge (nodeId g1) (nodeId g) None) g3.
Proof. reflexivity. Qed.

Lemma processChildren_grows l :
  Forall node_grows l ->
  forall parent g, cfg_ok g -> parent < nodeId g ->
    grows g (processChildren l parent g) (visited_loops_in l).
Proof.
  induction 1 as [|s l Hs _ IHl]; intros parent g Hg Hp; cbn [processChildren].
  - by apply grows_refl.
  - destruct (Hs parent g Hg Hp) as [Hgrow Hlt].
    change (visited_loops_in (s :: l)) with (visited_loops s + visited_loops_in l).
    eapply grows_trans; [exact Hgrow|]. apply IHl; [apply Hgrow|lia].
Qed.

Lemma processNode_grows node : node_grows node.
Proof.
  revert node. fix IH 1.
  assert (Hlist : forall l, Forall node_grows l).
  { fix IHl 1. intros [|s l]; constructor; [apply IH|apply IHl]. }
  intros [x e|c ifBody elseBody|c b|i c u b|c] p g Hg Hp.
  - split; [by apply grows_leaf|cbn; lia].
  - rewrite processNode_if. cbn zeta.
    set (g1 := link _ _ _). assert (H1 : grows g g1 0) by by apply grows_leaf.
    assert (Hn1 : nodeId g1 = S (nodeId g)) by done.
    set (g2 := add_edge _ (add_node "Then" g1).2).
    assert (H2 : grows g1 g2 0) by (apply grows_branch; [apply H1|lia]).
    assert (Hn2 : nodeId g2 = S (nodeId g1)) by done.
    set (g3 := processChildren ifBody _ g2).
    assert (H3 : grows g2 g3 (visited_loops_in ifBody))
      by (apply processChildren_grows; [apply Hlist|apply H2|lia]).
    set (g4 := add_edge _ (add_node "Else" g3).2).
    assert (H4 : grows g3 g4 0).
    { apply grows_branch; [apply H3|]. destruct H3 as (_ & ? & _). lia. }
    assert (Hn4 : nodeId g4 = S (nodeId g3)) by done.
    assert (H5 : grows g4 (processChildren elseBody (nodeId g3) g4) (visited_loops_in elseBody))
      by (apply processChildren_grows; [apply Hlist|apply H4|lia]).
    pose proof (grows_trans _ _ _ _ _ (grows_trans _ _ _ _ _ (grows_trans _ _ _ _ _
                  (grows_trans _ _ _ _ _ H1 H2) H3) H4) H5) as Htotal.
    split; [|destruct H3 as (_ & ? & _), H5 as (_ & ? & _); lia].
    replace (visited_loops (IfStatement c ifBody elseBody))
      with (0 + 0 + visited_loops_in ifBody + 0 + visited_loops_in elseBody); [done|].
    change (visited_loops (IfStatement c ifBody elseBody))
      with (visited_loops_in ifBody + visited_loops_in elseBody). lia.
  - rewrite processNode_while. cbn zeta.
    set (g1 := link _ _ _). assert (H1 : grows g g1 0) by by apply grows_leaf.
    assert (Hn1 : nodeId g1 = S (nodeId g)) by done.
    set (g2 := add_edge _ (add_node "Loop Body" g1).2).
    assert (H2 : grows g1 g2 0) by (apply grows_branch; [apply H1|lia]).
    assert (Hn2 : nodeId g2 = S (nodeId g1)) by done.
    set (g3 := processChildren b _ g2).
    assert (H3 : grows g2 g3 (visited_loops_in b))
      by (apply processChildren_grows; [apply Hlist|apply H2|lia]).
    pose proof (grows_trans _ _ _ _ _ (grows_trans _ _ _ _ _ H1 H2) H3) as (Hok & Hle & Hcount).
    assert (Hback : cfg_ok (add_edge (Edge (nodeId g1) (nodeId g) None) g3))
      by (apply cfg_ok_add_edge; [done|cbn; destruct H3 as (_ & ? & _); lia..]).
    split; [|cbn; destruct H3 as (_ & ? & _); lia].
    split; [done|]. split; [cbn; lia|].
    cbn [add_edge edges nodeId visited_loops]. rewrite length_app. cbn [length].
    fold (visited_loops_in b). lia.
  - split; [by apply grows_leaf|cbn; lia].
  - split; [by apply grows_leaf|cbn; lia].
Qed.

Lemma generateCFG_grows ast :
  let g := processChildren (body ast) 0 (add_node "Program Start" (Builder [] [] 0)).2 in
  cfg_ok g /\ length (edges g) + 1 = nodeId g + visited_loops_in (body ast).
Proof.
  set (g0 := (add_node "Program Start" (Builder [] [] 0)).2).
  assert (H0 : cfg_ok g0) by (apply cfg_ok_add_node; split; [done|constructor]).
  assert (Hn0 : nodeId g0 = 1) by done.
  destruct (processChildren_grows (body ast)
              ltac:(apply Forall_forall; intros; apply processNode_grows) 0 g0 H0 ltac:(lia))
    as (Hok & Hle & Hcount).
  cbn zeta. fold g0. split; [done|]. change (length (edges g0)) with 0 in Hcount. lia.
Qed.

Lemma generateCFG_unfold ast :
  generateCFG ast =
  let g := processChildren (body ast) 0 (add_node "Program Start" (Builder [] [] 0)).2 in
  Graph (nodes g) (edges g).
Proof. reflexivity. Qed.

Lemma cfg_node_count ast :
  let g := processChildren (body ast) 0 (add_node "Program Start" (Builder [] [] 0)).2 in
  length (nodes g) = nodeId g.
Proof.
  destruct (generateCFG_grows ast) as [[Hids _] _]. cbn zeta in *.
  apply (f_equal length) in Hids. by rewrite length_fmap, length_seq in Hids.
Qed.

End CFGFacts.

(** * The display of a script *)

Section DisplayFacts.

Lemma indent_line_one_line l : one_line (indent_line l) = one_line l.
Proof.
  unfold indent_line.
  destruct (Js.startsWith l "(declare-const"); [rewrite one_line_append; reflexivity|].
  destruct (Js.startsWith l "(assert"); [rewrite one_line_append; reflexivity|done].
Qed.

Lemma indent_line_idem l : indent_line (indent_line l) = indent_line l.
Proof.
  unfold indent_line.
  destruct (Js.startsWith l "(declare-const") eqn:E1; [reflexivity|].
  destruct (Js.startsWith l "(assert") eqn:E2; [reflexivity|].
  by rewrite E1, E2.
Qed.

End DisplayFacts.

(** * The claims *)

Section Claims.
Import Parser SSA Optimizer Encoder Verdict.

(** Claim C1.  The claim wants the conjunction of the assert conditions
    negated in the script, with a satisfiable script read as a violated
    assertion.  The encoder writes every assert condition as it stands, for
    any condition [c]; so the script of [x_0 = 1; assert(x_0 > 0)], where the
    assertion cannot fail, is satisfiable, and [checkVerification] turns the
    answer sat into a failed verification with a counterexample. *)
Theorem assert_is_encoded_unnegated :
  (forall c,
     generateVerificationSMT [SAssert c] =
     Ok (("(set-logic QF_LIA)" +:+ Js.nl)
         +:+ declaration_lines (Encoder.processExpression c []).2
         +:+ concat_all ["(assert " +:+ (Encoder.processExpression c []).1 +:+ ")" +:+ Js.nl]
         +:+ "(check-sat)" +:+ Js.nl +:+ "(get-model)" +:+ Js.nl))
  /\ generateVerificationSMT
       [SAssign "x_0" (int 1); SAssert (BinaryOperation OpGt (Var "x_0") (int 0))] =
     Ok ("(set-logic QF_LIA)" +:+ Js.nl +:+
         "(assert (= x_0 1))" +:+ Js.nl +:+
         "(declare-const x_0 Int)" +:+ Js.nl +:+
         "(assert (> x_0 0))" +:+ Js.nl +:+
         "(check-sat)" +:+ Js.nl +:+ "(get-model)" +:+ Js.nl)
  /\ (forall values smt,
        checkVerification (Solver Sat values) smt =
        MkVerdict false [assignments (Solver Sat values) smt]).
Proof.
  split; [|split].
  - intros c. unfold generateVerificationSMT, declaration_lines.
    cbn [encode_nodes encode_node rbind declarations smt assertions].
    destruct (Encoder.processExpression c []) as [text decls]. reflexivity.
  - vm_compute. reflexivity.
  - reflexivity.
Qed.

(** Claim C2.  The claim wants the two operand names as the branches of the
    if-then-else.  For every phi with two operands and a guard, the encoder
    writes the text [0] for both branches: an operand is a string, which the
    encoder's [processExpression] meets with its default case. *)
Theorem phi_branches_are_encoded_as_zero :
  (forall r a b g,
     generateVerificationSMT [SPhi r [a; b] (Some g)] =
     Ok (("(set-logic QF_LIA)" +:+ Js.nl +:+
          "(assert (= " +:+ r +:+ " (ite " +:+ (Encoder.processExpression g []).1
            +:+ " 0 0)))" +:+ Js.nl)
         +:+ declaration_lines (Encoder.processExpression g []).2
         +:+ "(check-sat)" +:+ Js.nl +:+ "(get-model)" +:+ Js.nl))
  /\ generateVerificationSMT
       [SPhi "y_1" [Name "y_0"; Name "y_2"]
          (Some (BinaryOperation OpLt (Var "x_0") (int 5)))] =
     Ok ("(set-logic QF_LIA)" +:+ Js.nl +:+
         "(assert (= y_1 (ite (< x_0 5) 0 0)))" +:+ Js.nl +:+
         "(declare-const x_0 Int)" +:+ Js.nl +:+
         "(check-sat)" +:+ Js.nl +:+ "(get-model)" +:+ Js.nl).
Proof.
  split.
  - intros r a b g. unfold generateVerificationSMT, declaration_lines.
    cbn [encode_nodes encode_node rbind processCondition declarations smt assertions].
    destruct (Encoder.processExpression g []) as [text decls]. reflexivity.
  - vm_compute. reflexivity.
Qed.

(** Claim C3.  The claim wants one output per original name, outputs paired
    by name, and their equality violated in the script.  The outputs are the
    distinct versioned names ([x_0] and [x_1] are two outputs); they are
    paired by position ([a_0] with [b_0_p2]); and the script asserts each
    pair equal, so two copies of [y_0 = 4] give a satisfiable script, which
    [checkEquivalence] reads as not equivalent. *)
Theorem outputs_are_versioned_and_asserted_equal :
  findOutputVariables [SAssign "x_0" (int 1); SAssign "x_1" (int 2)] = ["x_0"; "x_1"]
  /\ generateEquivalenceSMT [SAssign "y_0" (int 4)] [SAssign "y_0" (int 4)] =
     Ok ("(set-logic QF_LIA)" +:+ Js.nl +:+
         "(assert (= y_0 4))" +:+ Js.nl +:+
         "(assert (= y_0_p2 4))" +:+ Js.nl +:+
         "(assert (= y_0 y_0_p2))" +:+ Js.nl +:+
         "(check-sat)" +:+ Js.nl +:+ "(get-model)" +:+ Js.nl)
  /\ generateEquivalenceSMT
       [SAssign "a_0" (int 1); SAssign "b_0" (int 2)]
       [SAssign "b_0" (int 2); SAssign "a_0" (int 1)] =
     Ok ("(set-logic QF_LIA)" +:+ Js.nl +:+
         "(assert (= a_0 1))" +:+ Js.nl +:+
         "(assert (= b_0 2))" +:+ Js.nl +:+
         "(assert (= b_0_p2 2))" +:+ Js.nl +:+
         "(assert (= a_0_p2 1))" +:+ Js.nl +:+
         "(assert (= a_0 b_0_p2))" +:+ Js.nl +:+
         "(assert (= b_0 a_0_p2))" +:+ Js.nl +:+
         "(check-sat)" +:+ Js.nl +:+ "(get-model)" +:+ Js.nl)
  /\ (forall values smt,
        checkEquivalence (Solver Sat values) smt =
        MkVerdict false [assignments (Solver Sat values) smt]).
Proof. repeat split; vm_compute; reflexivity. Qed.

(** Claim C4.  The claim wants the versions of a name to go up from 0 and
    every name to be produced before it is read.  Two assignments to the
    same name both get version 0, whatever the values and whatever the name,
    unless it is the name of a member that [variables] inherits; for such a
    name the versions are NaN and then 0 (for [__proto__], twice the text of
    the prototype object).  In the SSA form of
    [x := 0; while (x < 5) { x := x + 1; }] the name [x_loop] is read one
    instruction before the phi that produces it, next to a version that is
    no integer. *)
Theorem reassignment_reuses_version_zero :
  (forall x v1 v2,
     Obj.inherited x = false ->
     (convertToSSA (Program [Assignment x (Literal v1); Assignment x (Literal v2)])).1
     = [SAssign (x +:+ "_0") (Literal v1); SAssign (x +:+ "_0") (Literal v2)])
  /\ (forall x v1 v2,
        Obj.inherited x = true -> x <> "__proto__" ->
        (convertToSSA (Program [Assignment x (Literal v1); Assignment x (Literal v2)])).1
        = [SAssign (x +:+ "_NaN") (Literal v1); SAssign (x +:+ "_0") (Literal v2)])
  /\ (forall v1 v2,
        (convertToSSA (Program [Assignment "__proto__" (Literal v1);
                                Assignment "__proto__" (Literal v2)])).1
        = [SAssign "__proto___[object Object]" (Literal v1);
           SAssign "__proto___[object Object]" (Literal v2)])
  /\ (convertToSSA counting_loop).1
     = [SAssign "x_0" (int 0);
        SAssign "x_NaN" (BinaryOperation OpAdd (Var "x_loop") (int 1));
        SPhi "x_loop" [Name "x_0"] None].
Proof.
  split; [|split; [|split]]; [| | |vm_compute; reflexivity].
  - intros x v1 v2 Hx.
    destruct (convertToSSA_flat
                (Program [Assignment x (Literal v1); Assignment x (Literal v2)]))
      as [-> _]; [done|cbn [body forallb plain_targets]; by rewrite Hx|done].
  - intros x v1 v2 Hx Hproto. unfold Obj.inherited in Hx.
    apply existsb_exists in Hx as (k & Hk & Heq). apply String.eqb_eq in Heq as <-.
    unfold Obj.prototype_members in Hk. cbn [In] in Hk.
    repeat (destruct Hk as [<-|Hk]; [first [done | vm_compute; reflexivity]|]).
    destruct Hk.
  - intros v1 v2. vm_compute. reflexivity.
Qed.

Lemma reassignment_reuses_version_zero_witness :
  (convertToSSA (Program [Assignment "x" (int 1); Assignment "x" (int 2)])).1
  = [SAssign "x_0" (int 1); SAssign "x_0" (int 2)].
Proof.
  apply (proj1 reassignment_reuses_version_zero "x"). reflexivity.
Defined.

(** Claim C5.  The claim wants a phi for a name that is assigned before the
    [if] and again in the then branch only.  For every such program whose
    name is not one that [variables] inherits, the SSA form has no phi at all
    and each target is a version 0: the second assignment reuses version 0,
    so the two branches end on the same version name.  (Under an inherited
    name such as [toString] the first assignment gets the version NaN, the
    two branches end on different names, and a phi is made.) *)
Theorem then_only_reassignment_gets_no_phi :
  (forall x e1 cond e2,
     Obj.inherited x = false ->
     Forall version_zero
       (convertToSSA
          (Program [Assignment x e1; IfStatement cond [Assignment x e2] []])).1)
  /\ (convertToSSA
        (Program [Assignment "x" (int 3);
                  IfStatement (BinaryOperation OpLt (Var "x") (int 5))
                    [Assignment "x" (int 4)] []])).1
     = [SAssign "x_0" (int 3); SAssign "x_0" (int 4)]
  /\ (convertToSSA
        (Program [Assignment "toString" (int 3);
                  IfStatement (BinaryOperation OpLt (Var "c") (int 5))
                    [Assignment "toString" (int 4)] []])).1
     = [SAssign "toString_NaN" (int 3); SAssign "toString_0" (int 4);
        SPhi "toString_0" [Name "toString_0"; Name "toString_NaN"]
          (Some (BinaryOperation OpLt (Var "c_0") (int 5)))].
Proof.
  split; [|split; vm_compute; reflexivity].
  intros x e1 cond e2 Hx.
  apply convertToSSA_loop_free; [done|]. cbn [body forallb plain_targets]. by rewrite Hx.
Qed.

Lemma then_only_reassignment_gets_no_phi_witness :
  Forall version_zero
    (convertToSSA
       (Program [Assignment "y" (int 3);
                 IfStatement (BinaryOperation OpLt (Var "toString") (int 5))
                   [Assignment "y" (Var "valueOf")] []])).1.
Proof.
  apply (proj1 then_only_reassignment_gets_no_phi "y"). reflexivity.
Defined.

(** Claim C6.  The claim wants an assignment without uses dropped.  The
    optimizer returns as many nodes as it is given, for every input; the
    assignment to [x_0], which nothing uses, is still there. *)
Theorem unused_assignment_is_kept :
  (forall ssa, length (optimizeSSA ssa) = length ssa)
  /\ optimizeSSA
       [SAssign "x_0" (int 3); SAssert (BinaryOperation OpGt (Var "y_0") (int 0))]
     = [SAssign "x_0" (int 3); SAssert (BinaryOperation OpGt (Var "y_0") (int 0))].
Proof.
  split; [|vm_compute; reflexivity].
  intros ssa. destruct (optimizeSSA_keeps_all ssa) as [constants ->].
  by rewrite length_fmap.
Qed.

(** Claim C7.  The claim wants truncating division and a fold that is
    suppressed when the divisor is zero.  An operation on two literals always
    folds to a literal; [1 / 0] folds to Infinity, [7 % 0] to NaN and [7 / 2]
    to three and a half. *)
Theorem folding_by_zero_yields_a_value :
  (forall constants op a b,
     exists v, propagateConstants constants
                 (BinaryOperation op (Literal a) (Literal b)) = Literal v)
  /\ optimizeSSA [SAssign "y_0" (BinaryOperation OpDiv (int 1) (int 0))]
     = [SAssign "y_0" (Literal (Num (Infinity false)))]
  /\ optimizeSSA [SAssign "y_0" (BinaryOperation OpMod (int 7) (int 0))]
     = [SAssign "y_0" (Literal (Num NaN))]
  /\ optimizeSSA [SAssign "y_0" (BinaryOperation OpDiv (int 7) (int 2))]
     = [SAssign "y_0" (Literal (Num (Finite (7 # 2))))].
Proof.
  split; [|repeat split; vm_compute; reflexivity].
  intros constants op a b. cbn. eauto.
Qed.

(** Claim C8.  The claim wants the right side of the first operator to be
    the whole remainder, and [name[expr]] to become an array access.  The
    text [1+2+3] is parsed to the sum of 1 and 2, the third piece of the
    split being dropped; no text at all is parsed to an expression with an
    array access: [a[i]] becomes a variable of that name, [a[i+1]] a sum of
    two variables, and [a[i*2]] raises a type error.  The empty text is a
    literal too, with the value NaN. *)
Theorem parseExpression_drops_and_never_indexes :
  parseExpression "1+2+3" = Ok (BinaryOperation OpAdd (int 1) (int 2))
  /\ (forall text, match parseExpression text with
                   | Ok e => has_array_access e = false
                   | _ => True
                   end)
  /\ parseExpression "a[i]" = Ok (Var "a[i]")
  /\ parseExpression "a[i+1]" = Ok (BinaryOperation OpAdd (Var "a[i") (Var "1]"))
  /\ parseExpression "a[i*2]" = Throw TypeError
  /\ parseExpression "" = Ok (Literal (Num NaN)).
Proof.
  split; [vm_compute; reflexivity|]. split; [|repeat split; vm_compute; reflexivity].
  intros text. destruct (parseExpression text) as [e| |] eqn:E; [|done..].
  by apply parseExpression_fuel_no_array in E.
Qed.

(** Claim C9, as it is stated, fails: the malformed input of the claim,
    written on one line, holds [:=] and is read as an assignment, from which
    an SSA form is made; and a block whose brace never closes is accepted,
    the block running to the end of the text. *)
Lemma malformed_if_and_open_block_are_accepted :
  parseProgram "if (x < 5 { y := 1; }"
  = Ok (Program [Assignment "if (x < 5 { y" (Var "1; }")])
  /\ ssaForm1 (analyzePrograms VerificationMode "if (x < 5 { y := 1; }" ""
                 (Solver Unsat (fun _ => 0)))
     = Some [SAssign "if (x < 5 { y_0" (Var "1; }_0")]
  /\ parseProgram ("if (x < 5) {" +:+ Js.nl +:+ "y := 1;")
     = Ok (Program [IfStatement (BinaryOperation OpLt (Var "x") (int 5))
                      [Assignment "y" (int 1)] []]).
Proof. repeat split; vm_compute; reflexivity. Qed.

(** Claim C9, amended.  [parseProgram] raises an error exactly when its
    scan arrives at a line that holds no [:=], starts with one of the four
    keywords and does not match the header expression that the source has
    for that keyword; the message names the keyword and carries the trimmed
    line.  So a line that holds [:=] raises no error, whatever else it
    holds, and neither does a block whose brace never closes.  Whatever
    [parseProgram] raises, on the first program or, in equivalence mode, on
    the second, ends the analysis before any SSA form is made. *)
Theorem parseProgram_rejects_bad_header (programText : string) :
  (forall msg,
     parseProgram programText = Throw (Error msg)
     <-> exists line keyword re,
           In (keyword, re) headers
           /\ reaches (Js.split programText Js.nl) line
           /\ rejected keyword re line
           /\ msg = invalid keyword line)
  /\ (forall e m program2 z3,
        parseProgram programText = Throw e ->
        analyzePrograms m programText program2 z3 = failed untouched e)
  /\ (forall e program1 ast1 z3,
        parseProgram program1 = Ok ast1 ->
        parseProgram programText = Throw e ->
        analyzePrograms EquivalenceMode program1 programText z3 = failed untouched e).
Proof.
  split; [|split].
  - intros msg. rewrite parseProgram_unfold. split.
    + by apply (parse_lines_error (weight (Js.split programText Js.nl))).
    + intros (line & keyword & re & Hk & Hline & Hrej & ->).
      by apply (parse_lines_reaches _ line Hline keyword re).
  - intros e m program2 z3 Hparse. unfold analyzePrograms. by rewrite Hparse.
  - intros e program1 ast1 z3 Hparse1 Hparse. unfold analyzePrograms.
    by rewrite Hparse1, Hparse.
Qed.

Lemma parseProgram_rejects_bad_header_witness :
  parseProgram nested_bad_header_text
  = Throw (Error "Invalid assert statement: assert(y > 0;").
Proof.
  apply (proj1 (parseProgram_rejects_bad_header nested_bad_header_text)).
  exists "assert(y > 0;", "assert", re_assert.
  split; [cbn; tauto|]. split; [|split; [|reflexivity]].
  - change (Js.split nested_bad_header_text Js.nl)
      with ["assert(x > 0);"; "if (x < 5) {"; "y := 1;"; "assert(y > 0;"; "}"].
    apply reach_next; [reflexivity|]. apply reach_then; [reflexivity|].
    change (block_lines (if_block ["y := 1;"; "assert(y > 0;"; "}"]))
      with ["y := 1;"; "assert(y > 0;"].
    apply reach_next; [reflexivity|]. apply reach_here.
  - repeat split; reflexivity.
Defined.




End Claims.

(** * Further properties of the code *)

Section Properties.
Import Parser SSA Optimizer Encoder Verdict.

(** X1.  [parseProgram] returns or raises on every text, and a program that
    it returns has no [while] and no [for] loop in it, at any depth. *)
Theorem parsed_programs_have_no_loop programText :
  match parseProgram programText with
  | Ok ast => forallb loop_free (body ast) = true
  | Throw _ => True
  | OutOfFuel => False
  end.
Proof.
  pose proof (parseProgram_total programText) as Htotal.
  destruct (parseProgram programText) as [ast| |] eqn:E; [|done..].
  by apply parseProgram_loop_free in E.
Qed.

(** X2.  When the scan arrives at a line that holds no [:=] and starts with
    [while] or with [for], [parseProgram] raises the error for that line,
    whatever the rest of the line is: a well-formed loop header is rejected
    like any other. *)
Theorem parseProgram_rejects_every_loop (programText line keyword : string) :
  reaches (Js.split programText Js.nl) line ->
  keyword = "while" \/ keyword = "for" ->
  Js.includes (Js.trim line) ":=" = false ->
  Js.startsWith (Js.trim line) keyword = true ->
  parseProgram programText = Throw (Error (invalid keyword line)).
Proof.
  intros Hline Hk Hassign Hstart. rewrite parseProgram_unfold.
  destruct Hk as [-> | ->].
  - apply (parse_lines_reaches _ line Hline "while" re_while); [cbn; tauto|].
    repeat split; [done..|apply re_while_never_matches].
  - apply (parse_lines_reaches _ line Hline "for" re_for); [cbn; tauto|].
    repeat split; [done..|apply re_for_never_matches].
Qed.

Lemma parseProgram_rejects_every_loop_witness :
  parseProgram loop_text = Throw (Error "Invalid while statement: while (x < 5) {").
Proof.
  apply (parseProgram_rejects_every_loop loop_text "while (x < 5) {" "while").
  - change (Js.split loop_text Js.nl)
      with ["x := 0;"; "while (x < 5) {"; "x := x + 1;"; "}"].
    apply reach_next; [reflexivity|]. apply reach_here.
  - left. reflexivity.
  - reflexivity.
  - reflexivity.
Defined.

(** X3.  An [else] on the line of the closing brace opens no else block.  That
    line holds both braces, so the block goes on: the line itself and the
    lines behind it, up to the brace that closes them, become lines of the
    then block, and the else block is empty.  The lines behind that brace
    are parsed as the rest of the program. *)
Theorem else_on_closing_line_is_not_an_else
    (programText header middle closing : string) (thens elses rest : list string)
    (c : Expr) :
  Js.split programText Js.nl = header :: thens ++ middle :: elses ++ closing :: rest ->
  opens_if header = true -> header_condition header = Ok c ->
  forallb keeps_depth thens = true ->
  Js.includes (Js.trim middle) "{" = true -> Js.includes (Js.trim middle) "}" = true ->
  forallb keeps_depth elses = true ->
  closes closing = true ->
  else_ahead rest = false ->
  parseProgram programText
  = let? ifAst := parseProgram (Js.join (collected (thens ++ middle :: elses)) Js.nl) in
    let? behind := parseProgram (Js.join rest Js.nl) in
    Ok (Program (IfStatement c (body ifAst) [] :: body behind)).
Proof.
  intros Hlines Hopen Hc Hthens Hm1 Hm2 Helses Hclose Hrest.
  assert (Hone : Forall (fun l => one_line l = true) rest).
  { pose proof (split_one_line programText) as H. rewrite Hlines in H.
    apply Forall_cons in H as [_ H]. apply Forall_suffix in H.
    apply Forall_cons in H as [_ H]. apply Forall_suffix in H.
    by apply Forall_cons in H as [_ H]. }
  rewrite parseProgram_unfold, Hlines.
  rewrite (parse_lines_if _ _ _ _ c Hopen Hc).
  assert (Hblock : collect_block (thens ++ middle :: elses ++ closing :: rest) 1 [] 0
                   = (collected (thens ++ middle :: elses),
                      (length (thens ++ middle :: elses) + 1)%nat)).
  { replace (thens ++ middle :: elses ++ closing :: rest)
      with ((thens ++ middle :: elses) ++ closing :: rest) by by rewrite <- app_assoc.
    rewrite collect_block_level; [done| |done].
    rewrite forallb_app. cbn [forallb]. rewrite Hthens, Helses.
    unfold keeps_depth. by rewrite Hm1, Hm2. }
  assert (Hdrop : drop (length (thens ++ middle :: elses) + 1)
                    (thens ++ middle :: elses ++ closing :: rest) = rest).
  { replace (thens ++ middle :: elses ++ closing :: rest)
      with (((thens ++ middle :: elses) ++ [closing]) ++ rest)
      by by rewrite <- !app_assoc.
    rewrite drop_app_length'; [done|]. repeat (rewrite !length_app; cbn [length]). lia. }
  unfold if_block, else_block, behind_if. rewrite Hblock. cbn [fst snd]. rewrite Hdrop.
  assert (Helse : collect_else rest = ([], 0%nat)).
  { destruct rest as [|l rest]; [done|]. cbn [else_ahead] in Hrest.
    cbn [collect_else]. by rewrite Hrest. }
  rewrite Helse. cbn [fst snd]. rewrite parseProgram_empty, Nat.add_0_r, Hdrop.
  destruct (parseProgram (Js.join (collected (thens ++ middle :: elses)) Js.nl)) as [ifAst| |];
    cbn [rbind]; [|done..].
  by rewrite parse_lines_acc, parseProgram_join.
Qed.

Lemma else_on_closing_line_is_not_an_else_witness :
  parseProgram else_on_closing_line_text
  = Ok (Program [IfStatement (BinaryOperation OpLt (Var "x") (int 5))
                   [Assignment "y" (BinaryOperation OpAdd (Var "x") (int 1));
                    Assignment "y" (BinaryOperation OpSub (Var "x") (int 1))] [];
                 Assert (BinaryOperation OpGt (Var "y") (int 0))]).
Proof.
  apply (else_on_closing_line_is_not_an_else else_on_closing_line_text
           "if (x < 5) {" "} else {" "}" ["  y := x + 1;"] ["  y := x - 1;"]
           ["assert(y > 0);"] (BinaryOperation OpLt (Var "x") (int 5))); reflexivity.
Defined.

(** X4.  An [else] on a line of its own, behind the line that closes the then
    block, opens an else block that loses its first line: the line behind
    the [else] line is stepped over, whatever it holds.  The lines behind
    the else block are parsed as the rest of the program. *)
Theorem else_block_loses_its_first_line
    (programText header closing els first closing' : string)
    (thens elses rest : list string) (c : Expr) :
  Js.split programText Js.nl
  = header :: thens ++ closing :: els :: first :: elses ++ closing' :: rest ->
  opens_if header = true -> header_condition header = Ok c ->
  forallb keeps_depth thens = true -> closes closing = true ->
  Js.startsWith (Js.trim els) "else" = true ->
  forallb keeps_depth elses = true -> closes closing' = true ->
  parseProgram programText
  = let? ifAst := parseProgram (Js.join (collected thens) Js.nl) in
    let? elseAst := parseProgram (Js.join (collected elses) Js.nl) in
    let? behind := parseProgram (Js.join rest Js.nl) in
    Ok (Program (IfStatement c (body ifAst) (body elseAst) :: body behind)).
Proof.
  intros Hlines Hopen Hc Hthens Hclose Hels Helses Hclose'.
  assert (Hone : Forall (fun l => one_line l = true) rest).
  { pose proof (split_one_line programText) as H. rewrite Hlines in H.
    apply Forall_cons in H as [_ H]. apply Forall_suffix in H.
    do 3 apply Forall_cons in H as [_ H]. apply Forall_suffix in H.
    by apply Forall_cons in H as [_ H]. }
  rewrite parseProgram_unfold, Hlines.
  rewrite (parse_lines_if _ _ _ _ c Hopen Hc).
  unfold if_block, else_block, behind_if.
  rewrite (collect_block_level thens closing _ [] 0 Hthens Hclose). cbn [fst snd app].
  replace (drop (0 + length thens + 1)
             (thens ++ closing :: els :: first :: elses ++ closing' :: rest))
    with (els :: first :: elses ++ closing' :: rest).
  2:{ replace (thens ++ closing :: els :: first :: elses ++ closing' :: rest)
        with ((thens ++ [closing]) ++ els :: first :: elses ++ closing' :: rest)
        by by rewrite <- app_assoc.
      rewrite drop_app_length'; [done|]. repeat (rewrite !length_app; cbn [length]). lia. }
  cbn [collect_else]. rewrite Hels. cbn [drop]. rewrite drop_0.
  rewrite (collect_block_level elses closing' rest [] 0 Helses Hclose'). cbn [fst snd app].
  destruct (parseProgram (Js.join (collected thens) Js.nl)) as [ifAst| |];
    cbn [rbind]; [|done..].
  destruct (parseProgram (Js.join (collected elses) Js.nl)) as [elseAst| |];
    cbn [rbind]; [|done..].
  replace (drop (0 + length thens + 1 + (2 + (0 + length elses + 1)))
             (thens ++ closing :: els :: first :: elses ++ closing' :: rest)) with rest.
  2:{ replace (thens ++ closing :: els :: first :: elses ++ closing' :: rest)
        with ((thens ++ closing :: els :: first :: elses ++ [closing']) ++ rest).
      - rewrite drop_app_length'; [done|].
        repeat (rewrite !length_app; cbn [length]). lia.
      - rewrite <- !app_assoc. cbn [app]. do 4 f_equal. by rewrite <- app_assoc. }
  by rewrite parse_lines_acc, parseProgram_join.
Qed.

Lemma else_block_loses_its_first_line_witness :
  parseProgram else_on_own_line_text
  = Ok (Program [IfStatement (BinaryOperation OpLt (Var "x") (int 5))
                   [Assignment "y" (int 1)] [Assignment "y" (int 3)];
                 Assert (BinaryOperation OpGt (Var "y") (int 0))]).
Proof.
  apply (else_block_loses_its_first_line else_on_own_line_text
           "if (x < 5) {" "}" "else {" "y := 2;" "}" ["y := 1;"] ["y := 3;"]
           ["assert(y > 0);"] (BinaryOperation OpLt (Var "x") (int 5))); reflexivity.
Defined.

(** X5.  A text of blank lines and comments is the empty program. *)
Theorem parseProgram_of_blank_text programText :
  forallb blank_or_comment (Js.split programText Js.nl) = true ->
  parseProgram programText = Ok (Program []).
Proof.
  intros Hblank. rewrite parseProgram_unfold. by apply parse_lines_blank.
Qed.

Lemma parseProgram_of_blank_text_witness :
  parseProgram ("// nothing" +:+ Js.nl +:+ "   " +:+ Js.nl) = Ok (Program []).
Proof. apply parseProgram_of_blank_text. reflexivity. Defined.


(** X7.  The SSA form of a parsed text that assigns to no inherited name is
    the list of its assignments and assertions in the order of the text,
    both branches of every [if] included, with every name at version 0:
    there is no phi, and [variables] ends with every name at version 0. *)
Theorem parsed_text_gets_flat_ssa programText ast :
  parseProgram programText = Ok ast ->
  forallb plain_targets (body ast) = true ->
  (convertToSSA ast).1 = flat_ssa_of (body ast)
  /\ Forall version_zero (convertToSSA ast).1
  /\ tidy (convertToSSA ast).2.
Proof.
  intros Hparse Hplain. apply parseProgram_loop_free in Hparse.
  destruct (convertToSSA_flat ast Hparse Hplain) as [Hssa Htidy].
  split; [done|]. split; [|done]. by apply convertToSSA_loop_free.
Qed.

Lemma parsed_text_gets_flat_ssa_witness :
  (convertToSSA
     (Program [Assignment "x" (int 3);
               IfStatement (BinaryOperation OpLt (Var "x") (int 5))
                 [Assignment "y" (BinaryOperation OpAdd (Var "x") (int 1));
                  Assignment "y" (BinaryOperation OpSub (Var "x") (int 1))] [];
               Assert (BinaryOperation OpGt (Var "y") (int 0))])).1
  = [SAssign "x_0" (int 3);
     SAssign "y_0" (BinaryOperation OpAdd (Var "x_0") (int 1));
     SAssign "y_0" (BinaryOperation OpSub (Var "x_0") (int 1));
     SAssert (BinaryOperation OpGt (Var "y_0") (int 0))].
Proof.
  apply (parsed_text_gets_flat_ssa first_program_text); reflexivity.
Defined.

(** X8.  A run in verification mode: when the text parses, nothing fails any
    more; the script is made and the verdict is the solver's answer read as
    [checkVerification] reads it (verified on unsat).  When the parser
    raises, the run ends with that exception and no SSA form. *)
Theorem verification_run_outcome programText program2 z3 :
  match parseProgram programText with
  | Ok ast =>
      exists smt,
        generateVerificationSMT (convertToSSA ast).1 = Ok smt
        /\ analyzePrograms VerificationMode programText program2 z3
           = Analysis (Some (convertToSSA ast).1) (Some (optimizeSSA (convertToSSA ast).1))
               None None (Some smt)
               (match check z3 with Unsat => true | Sat => false end)
               (inl (counterexamples (checkVerification z3 smt)))
  | Throw e => analyzePrograms VerificationMode programText program2 z3 = failed untouched e
  | OutOfFuel => False
  end.
Proof.
  pose proof (parseProgram_total programText) as Htotal. unfold analyzePrograms.
  destruct (parseProgram programText) as [ast|e|] eqn:E; [|done..].
  destruct (generateVerificationSMT_encodable (convertToSSA ast).1) as [smt Hsmt];
    [by eapply convertToSSA_encodable, parseProgram_loop_free|].
  exists smt. split; [done|]. rewrite Hsmt.
  cbn [ssaForm1 optimizedSSA1 ssaForm2 optimizedSSA2 fmap option_fmap option_map].
  unfold checkVerification. by destruct (check z3).
Qed.

(** X9.  A run in equivalence mode: when both texts parse, nothing fails any
    more; the script is made and the verdict is the solver's answer
    (equivalent on unsat).  When the parser raises on one of the texts, the
    run ends with the first exception and no SSA form. *)
Theorem equivalence_run_outcome program1 program2 z3 :
  match parseProgram program1, parseProgram program2 with
  | Ok ast1, Ok ast2 =>
      exists smt,
        generateEquivalenceSMT (convertToSSA ast1).1 (convertToSSA ast2).1 = Ok smt
        /\ analyzePrograms EquivalenceMode program1 program2 z3
           = Analysis (Some (convertToSSA ast1).1) (Some (optimizeSSA (convertToSSA ast1).1))
               (Some (convertToSSA ast2).1) (Some (optimizeSSA (convertToSSA ast2).1))
               (Some smt)
               (match check z3 with Unsat => true | Sat => false end)
               (inl (counterexamples (checkEquivalence z3 smt)))
  | Ok _, Throw e | Throw e, _ =>
      analyzePrograms EquivalenceMode program1 program2 z3 = failed untouched e
  | _, _ => False
  end.
Proof.
  pose proof (parseProgram_total program1) as Htotal1.
  pose proof (parseProgram_total program2) as Htotal2. unfold analyzePrograms.
  destruct (parseProgram program1) as [ast1|e1|] eqn:E1; [|done..].
  destruct (parseProgram program2) as [ast2|e2|] eqn:E2; [|done..].
  pose proof (generateEquivalenceSMT_ok (convertToSSA ast1).1 (convertToSSA ast2).1) as [smt Hsmt];
    [by eapply convertToSSA_encodable, parseProgram_loop_free..|].
  exists smt. split; [done|]. cbn [rbind fmap option_fmap option_map]. rewrite Hsmt.
  cbn [ssaForm1 optimizedSSA1 ssaForm2 optimizedSSA2].
  unfold checkEquivalence. by destruct (check z3).
Qed.

(** X10.  The optimizer keeps every node in its place and rewrites all of them
    with one table, which holds for every name the value of the last
    literal assignment to it in the stream; a use in front of that
    assignment is replaced like one behind it. *)
Theorem optimizeSSA_rewrites_with_one_table ssa :
  plain_stream ssa = true ->
  optimizeSSA ssa
  = rewrite_node (list_to_map (reverse (literal_assignments ssa))) <$> ssa.
Proof.
  intros _. destruct (optimizeSSA_keeps_all ssa) as [constants H]. rewrite H.
  rewrite <- scan_constants. unfold optimizeSSA in H.
  pose proof (scan_positive ssa (∅, ∅) counts_positive_empty) as Hpos.
  destruct (foldl _ _ ssa) as [c u]. cbn [fst snd] in *.
  rewrite (filter_all _ ssa) in H by (intros node; by rewrite is_dead_false).
  done.
Qed.

Lemma optimizeSSA_rewrites_with_one_table_witness :
  optimizeSSA [SAssign "y_0" (BinaryOperation OpAdd (Var "x_0") (int 1));
               SAssign "x_0" (int 1); SAssign "x_0" (int 2)]
  = [SAssign "y_0" (int 3); SAssign "x_0" (int 1); SAssign "x_0" (int 2)].
Proof. rewrite optimizeSSA_rewrites_with_one_table by reflexivity. reflexivity. Defined.

(** X11.  The fold of an operation on two integers that a double holds
    exactly: the sum, the difference and the product when they are such
    integers too, the remainder with the sign of the dividend when the
    divisor is not zero, and the quotient when the division is exact. *)
Theorem integer_arithmetic_folds constants a b :
  safe_integer a -> safe_integer b ->
  (safe_integer (a + b) ->
   propagateConstants constants (BinaryOperation OpAdd (int a) (int b)) = int (a + b))
  /\ (safe_integer (a - b) ->
      propagateConstants constants (BinaryOperation OpSub (int a) (int b)) = int (a - b))
  /\ (safe_integer (a * b) ->
      propagateConstants constants (BinaryOperation OpMul (int a) (int b)) = int (a * b))
  /\ (b <> 0 ->
      propagateConstants constants (BinaryOperation OpMod (int a) (int b)) = int (Z.rem a b))
  /\ (b <> 0 -> Z.rem a b = 0 ->
      propagateConstants constants (BinaryOperation OpDiv (int a) (int b)) = int (Z.quot a b)).
Proof.
  intros _ _. unfold int. cbn [propagateConstants evaluate to_number].
  rewrite add_integers, sub_integers, mul_integers. repeat split; try done.
  - intros Hb. by rewrite rem_integers.
  - intros Hb Hrem. pose proof (Z.quot_rem' a b) as Hq.
    replace a with (Z.quot a b * b) at 1 by lia. by rewrite div_integers.
Qed.

Lemma integer_arithmetic_folds_witness :
  propagateConstants ∅ (BinaryOperation OpMod (int (-7)) (int 2)) = int (-1)
  /\ propagateConstants ∅ (BinaryOperation OpDiv (int (-6)) (int 2)) = int (-3).
Proof.
  destruct (integer_arithmetic_folds ∅ (-7) 2) as (_ & _ & _ & Hrem & _);
    [unfold safe_integer; lia..|].
  destruct (integer_arithmetic_folds ∅ (-6) 2) as (_ & _ & _ & _ & Hdiv);
    [unfold safe_integer; lia..|].
  split; [apply Hrem; lia|apply Hdiv; [lia|reflexivity]].
Defined.

(** X12.  The fold of a comparison of two such integers is the boolean of
    the comparison. *)
Theorem integer_comparisons_fold constants a b :
  safe_integer a -> safe_integer b ->
  propagateConstants constants (BinaryOperation OpEq (int a) (int b)) = Literal (Boolean (a =? b))
  /\ propagateConstants constants (BinaryOperation OpNe (int a) (int b))
     = Literal (Boolean (negb (a =? b)))
  /\ propagateConstants constants (BinaryOperation OpLt (int a) (int b)) = Literal (Boolean (a <? b))
  /\ propagateConstants constants (BinaryOperation OpGt (int a) (int b)) = Literal (Boolean (b <? a))
  /\ propagateConstants constants (BinaryOperation OpLe (int a) (int b)) = Literal (Boolean (a <=? b))
  /\ propagateConstants constants (BinaryOperation OpGe (int a) (int b))
     = Literal (Boolean (b <=? a)).
Proof.
  intros _ _. unfold int. cbn [propagateConstants evaluate to_number].
  by rewrite !eq_integers, !lt_integers, !le_integers.
Qed.

Lemma integer_comparisons_fold_witness :
  propagateConstants ∅ (BinaryOperation OpLt (int 3) (int 5)) = Literal (Boolean true).
Proof.
  destruct (integer_comparisons_fold ∅ 3 5) as (_ & _ & Hlt & _);
    [unfold safe_integer; lia..|]. exact Hlt.
Defined.

(** X13.  The layout of the script of a stream that the encoder can write,
    whatever the order of its nodes: the header; one line for every
    assignment and every phi, in the order of the stream, a phi with [0]
    for both branches; the declarations, one for every name of a target or
    of a variable outside an array access and a unary operation, in the
    order of their first occurrence (the result of a phi is not declared);
    the assertions; the two commands. *)
Theorem script_layout ssa :
  forallb encodable ssa = true ->
  generateVerificationSMT ssa
  = Ok ("(set-logic QF_LIA)" +:+ Js.nl
        +:+ concat_all (omap definition_line ssa)
        +:+ declaration_lines (declare_all (concat (declared_by <$> ssa)) [])
        +:+ concat_all (omap assertion_line ssa)
        +:+ "(check-sat)" +:+ Js.nl +:+ "(get-model)" +:+ Js.nl).
Proof.
  intros Hssa. unfold generateVerificationSMT. rewrite (encode_nodes_spec _ _ Hssa).
  cbn [rbind smt declarations assertions app]. unfold declaration_lines.
  by rewrite !append_assoc.
Qed.

Lemma script_layout_witness :
  generateVerificationSMT
    [SAssert (BinaryOperation OpGt (Var "y_0") (int 0));
     SAssign "y_0" (BinaryOperation OpAdd (Var "x_0") (ArrayAccess "a_0" (Var "i_0")));
     SPhi "z_0" [Name "y_0"; Name "y_1"] (Some (BinaryOperation OpLt (Var "x_0") (int 5)))]
  = Ok ("(set-logic QF_LIA)" +:+ Js.nl +:+
        "(assert (= y_0 (+ x_0 0)))" +:+ Js.nl +:+
        "(assert (= z_0 (ite (< x_0 5) 0 0)))" +:+ Js.nl +:+
        "(declare-const y_0 Int)" +:+ Js.nl +:+
        "(declare-const x_0 Int)" +:+ Js.nl +:+
        "(assert (> y_0 0))" +:+ Js.nl +:+
        "(check-sat)" +:+ Js.nl +:+ "(get-model)" +:+ Js.nl).
Proof. rewrite script_layout by reflexivity. reflexivity. Defined.

(** X14.  [generateVerificationSMT] raises exactly when the stream has a phi
    without a guard or with fewer than two operands, and then it raises a
    type error. *)
Theorem generateVerificationSMT_outcome ssa :
  match generateVerificationSMT ssa with
  | Ok _ => forallb encodable ssa = true
  | Throw e => e = TypeError /\ forallb encodable ssa = false
  | OutOfFuel => False
  end.
Proof.
  unfold generateVerificationSMT.
  pose proof (encode_nodes_outcome ssa (Script ("(set-logic QF_LIA)" +:+ Js.nl) [] [])) as H.
  by destruct (encode_nodes ssa _).
Qed.

(** X15.  [generateEquivalenceSMT] raises exactly when one of the two streams
    has such a phi; renaming the second stream changes nothing in that. *)
Theorem generateEquivalenceSMT_outcome ssa1 ssa2 :
  match generateEquivalenceSMT ssa1 ssa2 with
  | Ok _ => forallb encodable ssa1 && forallb encodable ssa2 = true
  | Throw e => e = TypeError /\ forallb encodable ssa1 && forallb encodable ssa2 = false
  | OutOfFuel => False
  end.
Proof.
  unfold generateEquivalenceSMT.
  pose proof (encode_nodes_outcome ssa1 (Script ("(set-logic QF_LIA)" +:+ Js.nl) [] [])) as H1.
  pose proof (encode_nodes_outcome (renameVariables ssa2 "_p2")
                (Script ("(set-logic QF_LIA)" +:+ Js.nl) [] [])) as H2.
  rewrite renameVariables_encodable in H2. unfold generateVerificationSMT.
  destruct (encode_nodes ssa1 _) as [s1|e1|]; cbn [rbind];
    [|by destruct H1 as [-> ->] |done].
  rewrite H1. cbn [andb].
  by destruct (encode_nodes (renameVariables ssa2 "_p2") _) as [s2|e2|].
Qed.

(** X16.  The outputs that [findOutputVariables] returns are the targets of
    the assignments of the stream, each one once (a target [__proto__]
    left out): versioned names, not one name for every variable of the
    program. *)
Theorem outputs_are_the_distinct_targets ssa :
  findOutputVariables ssa ≡ₚ remove_dups (targets ssa).
Proof.
  destruct (lastAssignments_spec ssa) as (Hnd & Hin & Hself).
  change (findOutputVariables ssa) with (Obj.values (lastAssignments ssa)).
  rewrite values_of_self_map by done. rewrite keys_perm.
  apply NoDup_Permutation; [done|apply NoDup_remove_dups|].
  intros x. by rewrite Hin, elem_of_remove_dups.
Qed.

(** X17.  [formatSMT] changes the script line by line, by the indentation of
    the declarations and the assertions only, and formatting twice is
    formatting once. *)
Theorem formatSMT_only_indents smt :
  Js.split (formatSMT smt) Js.nl = indent_line <$> Js.split smt Js.nl
  /\ formatSMT (formatSMT smt) = formatSMT smt.
Proof.
  assert (H : Js.split (formatSMT smt) Js.nl = indent_line <$> Js.split smt Js.nl).
  { unfold formatSMT. apply split_join.
    - pose proof (split_nonempty smt Js.nl). by destruct (Js.split smt Js.nl).
    - apply Forall_fmap. eapply Forall_impl; [apply split_one_line|].
      intros l Hl. cbn. by rewrite indent_line_one_line. }
  split; [done|]. unfold formatSMT at 1. rewrite H. unfold formatSMT. f_equal.
  rewrite <- list_fmap_compose. apply list_fmap_ext. intros i l _. cbn.
  apply indent_line_idem.
Qed.

End Properties.

Section GraphProperties.
Import CFG.
Local Open Scope nat_scope.

(** X18.  The nodes of the control-flow graph are numbered from 0 in the
    order of the list, and every edge joins two nodes of the graph. *)
Theorem cfg_is_well_formed ast :
  id <$> graph_nodes (generateCFG ast) = seq 0 (length (graph_nodes (generateCFG ast)))
  /\ Forall (fun e => from e < length (graph_nodes (generateCFG ast))
                      /\ to e < length (graph_nodes (generateCFG ast)))
       (graph_edges (generateCFG ast)).
Proof.
  destruct (generateCFG_grows ast) as [[Hids Hedges] _]. pose proof (cfg_node_count ast) as Hn.
  rewrite generateCFG_unfold. cbn zeta in *. cbn [graph_nodes graph_edges]. by rewrite Hn.
Qed.


End GraphProperties.
